(** * NanoLab (PlanShock): the per-task alert engine and the speech queue

    A shallow embedding of the alerting logic of the repository:
    - the urgency classifiers ([App.tsx] calculatePriority and
      [components/TodoItemCard.tsx] calculateLocalPriority),
    - the threshold scheduler ([evaluateSchedule] of TodoItemCard.tsx),
    - the initial-event suppression of the alert dispatcher,
    - the speech queue ([flushSpeechQueue] / [handleSpeak] of App.tsx),
    - the normalisers of the data-store boundary
      ([normalizeEstimatedTime], [toDateSafe]),
    - the card between two resets (ticks, message answers, renders), the
      nag rules and the duration text ([utils/nagMessages.ts]),
    - the order of the task list and the reminder timers of App.tsx,
    - the forms that add, edit and delete a task.

    Conventions.  Points in time and durations are integers of milliseconds
    ([Date.getTime()], [Date.now()]) and are modelled in [Z].  Hours are
    JavaScript numbers obtained by a division; they are modelled as exact
    rationals in [Q].  A [Set<string>] is a [gset string], the speech cache
    ([Map<string, string>]) a [gmap string string]. *)

From Stdlib Require Import ZArith QArith Lqa Lia Bool.
From stdpp Require Import gmap strings list pretty.

Local Open Scope Z_scope.

(** ** Priorities *)

(** The three tiers ('충격', '경고', '안전'). *)
Inductive Canonical := CRITICAL | WARNING | SAFE.

(** [PriorityRank] of App.tsx: the three tiers and their legacy aliases. *)
Inductive PriorityRank :=
| RankCritical | RankWarning | RankSafe
| LEGACY_CRITICAL | LEGACY_WARNING | LEGACY_SAFE.

#[global] Instance Canonical_eq_dec : EqDecision Canonical.
Proof. solve_decision. Defined.
#[global] Instance PriorityRank_eq_dec : EqDecision PriorityRank.
Proof. solve_decision. Defined.

(** Both files map a rank to its tier in the same way on the values of the
    type (the string aliases outside the type are not modelled). *)
Definition toCanonicalPriority (p : PriorityRank) : Canonical :=
  match p with
  | RankCritical | LEGACY_CRITICAL => CRITICAL
  | RankWarning | LEGACY_WARNING => WARNING
  | RankSafe | LEGACY_SAFE => SAFE
  end.

(** A task as the engine sees it, after the data-store boundary. *)
Record TodoItem := {
  deadline : option Z;        (* Date | null, in ms *)
  estimatedTime : option Q;   (* number | null, in hours *)
  createdAt : option Z;
  completedAt : option Z;
}.

Definition HOUR_MS : Z := 60 * 60 * 1000.
Definition HALF_HOUR_MS : Z := 30 * 60 * 1000.
Definition INITIAL_EVENT_SKIP_WINDOW_MS : Z := 60 * 1000.

Definition Qltb (x y : Q) : bool := negb (Qle_bool y x).

(** [(deadline.getTime() - Date.now()) / HOUR_MS] *)
Definition remainingHours (d now : Z) : Q :=
  (inject_Z (d - now) / inject_Z HOUR_MS)%Q.

(** ** The classifiers *)

Module App.

Definition CRITICAL_THRESHOLD_HOURS : Q := inject_Z 6.
Definition WARNING_THRESHOLD_HOURS : Q := inject_Z 24.

(** [LEGACY_PRIORITY_MAP[value] ?? value] *)
Definition toLegacyPriority (c : Canonical) : PriorityRank :=
  match c with
  | CRITICAL => LEGACY_CRITICAL
  | WARNING => LEGACY_WARNING
  | SAFE => LEGACY_SAFE
  end.

(** [calculatePriority(deadline, _estimatedTime)]; [now] is [Date.now()]. *)
Definition calculatePriority (dl : option Z) (_estimatedTime : option Q)
    (now : Z) : PriorityRank :=
  match dl with
  | None => toLegacyPriority SAFE
  | Some d =>
      let hoursLeft := remainingHours d now in
      if Qle_bool hoursLeft 0 then toLegacyPriority CRITICAL
      else if Qle_bool hoursLeft CRITICAL_THRESHOLD_HOURS
           then toLegacyPriority CRITICAL
      else if Qle_bool hoursLeft WARNING_THRESHOLD_HOURS
           then toLegacyPriority WARNING
      else toLegacyPriority SAFE
  end.


(** *** The data-store boundary *)

(** A JavaScript number. *)
Inductive JsNumber :=
| NaN
| Infinity (negative : bool)
| Finite (q : Q).

(** [Number.isFinite] *)
Definition isFinite (n : JsNumber) : bool :=
  match n with Finite _ => true | _ => false end.

(** A value of type [unknown], as far as [typeof] tells it apart. *)
Inductive JsValue :=
| VNumber (n : JsNumber)
| VString (s : string)
| VOther.                    (* null, undefined, booleans, objects *)

(** A [Date] object: its time value is NaN or a number of milliseconds. *)
Inductive JsDate :=
| InvalidDate
| DateOf (t : Z).

(** [Number.isNaN(date.getTime())] *)
Definition isInvalid (d : JsDate) : bool :=
  match d with InvalidDate => true | DateOf _ => false end.

(** What Firestore hands over for a date field. *)
Inductive DateInput (Timestamp : Type) :=
| DNull                      (* null or undefined *)
| DDate (d : JsDate)
| DTimestamp (ts : Timestamp)
| DString (s : string).
Arguments DNull {Timestamp}.
Arguments DDate {Timestamp} d.
Arguments DTimestamp {Timestamp} ts.
Arguments DString {Timestamp} s.

Section Boundary.
(** The parts of the platform the normalisers call: [Number(s.trim())],
    [new Date(s)] and Firestore's [Timestamp.toDate()]. *)
Context {Timestamp : Type}.
Variable numberOfTrimmed : string → JsNumber.
Variable dateOfString : string → JsDate.
Variable toDate : Timestamp → JsDate.

(** [normalizeEstimatedTime(value)] *)
Definition normalizeEstimatedTime (value : JsValue) : option JsNumber :=
  match value with
  | VNumber n => if isFinite n then Some n else None
  | VString s =>
      let parsed := numberOfTrimmed s in
      if isFinite parsed then Some parsed else None
  | VOther => None
  end.

(** [toDateSafe(value)] *)
Definition toDateSafe (value : DateInput Timestamp) : option JsDate :=
  match value with
  | DNull | DString "" => None          (* [!value] *)
  | DDate d => if isInvalid d then None else Some d
  | DTimestamp ts => Some (toDate ts)
  | DString s =>
      let parsed := dateOfString s in
      if isInvalid parsed then None else Some parsed
  end.
End Boundary.

(** *** The speech queue *)

Inductive NagStyle := Harsh | Sarcastic | Professor | Cute | Tsundere.

#[global] Instance NagStyle_eq_dec : EqDecision NagStyle.
Proof. solve_decision. Defined.

(** The string each member of [NagStyle] is. *)
Definition styleName (s : NagStyle) : string :=
  match s with
  | Harsh => "개빡센 잔소리형"
  | Sarcastic => "비꼬는 친구형"
  | Professor => "팩트폭격 교수형"
  | Cute => "귀엽지만 할 말 다하는형"
  | Tsundere => "츤데레형"
  end.

(** A queued job.  [jobId] stands for the identity of the promise whose
    [resolve] and [reject] the item carries. *)
Record SpeechQueueItem := {
  jobId : nat;
  message : string;
  style : NagStyle;
}.

#[global] Instance SpeechQueueItem_eq_dec : EqDecision SpeechQueueItem.
Proof. solve_decision. Defined.

Inductive Settlement := Resolved | Rejected.

#[global] Instance Settlement_eq_dec : EqDecision Settlement.
Proof. solve_decision. Defined.

(** An invocation of [flushSpeechQueue] suspended at an [await]: at the
    request to the synthesis endpoint, or at the promise of the playback
    of the audio element it created. *)
Inductive Flight :=
| Fetching (job : SpeechQueueItem)
| Playing (job : SpeechQueueItem) (audio : nat).

#[global] Instance Flight_eq_dec : EqDecision Flight.
Proof. solve_decision. Defined.

Definition flightJob (f : Flight) : SpeechQueueItem :=
  match f with Fetching j | Playing j _ => j end.

(** The refs of [App] the queue lives in, the event loop around them, and
    the history of what was played and settled.  Audio elements are
    numbered in the order of their creation, so the next one is
    [length played]. *)
Record SpeechState := mkSpeech {
  speechEnabled : bool;
  speechQueueRef : list SpeechQueueItem;
  isSpeakingRef : bool;
  audioRef : option nat;
  speechCacheRef : gmap string string;
  flights : list Flight;             (* suspended invocations *)
  sounding : list nat;               (* audio elements that are playing *)
  nextJob : nat;                     (* promises created so far *)
  played : list nat;                 (* job ids, in the order of [play()] *)
  settled : list (nat * Settlement); (* promises, in the order they settle *)
}.

Definition idle (enabled : bool) : SpeechState :=
  mkSpeech enabled [] false None ∅ [] [] 0 [] [].

Definition setEnabled (b : bool) '(mkSpeech _ q s a c f so n p se) :=
  mkSpeech b q s a c f so n p se.
Definition setQueue (q : list SpeechQueueItem) '(mkSpeech e _ s a c f so n p se) :=
  mkSpeech e q s a c f so n p se.
Definition setSpeaking (s : bool) '(mkSpeech e q _ a c f so n p se) :=
  mkSpeech e q s a c f so n p se.
Definition setAudioRef (a : option nat) '(mkSpeech e q s _ c f so n p se) :=
  mkSpeech e q s a c f so n p se.
Definition setCache (c : gmap string string) '(mkSpeech e q s a _ f so n p se) :=
  mkSpeech e q s a c f so n p se.
Definition setFlights (f : list Flight) '(mkSpeech e q s a c _ so n p se) :=
  mkSpeech e q s a c f so n p se.
Definition setSounding (so : list nat) '(mkSpeech e q s a c f _ n p se) :=
  mkSpeech e q s a c f so n p se.
Definition setNextJob (n : nat) '(mkSpeech e q s a c f so _ p se) :=
  mkSpeech e q s a c f so n p se.
Definition setPlayed (p : list nat) '(mkSpeech e q s a c f so n _ se) :=
  mkSpeech e q s a c f so n p se.
Definition setSettled (se : list (nat * Settlement)) '(mkSpeech e q s a c f so n p _) :=
  mkSpeech e q s a c f so n p se.

(** [`${style}:${message}`] *)
Definition cacheKey (job : SpeechQueueItem) : string :=
  styleName (style job) +:+ ":" +:+ message job.

(** The executor of the playback promise: [new Audio(url)],
    [audioRef.current = audio], [audio.play()].  The invocation now waits
    for the element. *)
Definition startAudio (job : SpeechQueueItem) (st : SpeechState) : SpeechState :=
  let a := length (played st) in
  setPlayed (played st ++ [jobId job])
    (setSounding (sounding st ++ [a])
       (setFlights (flights st ++ [Playing job a])
          (setAudioRef (Some a) st))).

(** The [try] block up to its first [await]: with a cached URL the audio
    element is created at once, otherwise the invocation waits for the
    synthesis endpoint.  An empty cached URL counts as a miss
    ([!cachedUrl]). *)
Definition beginAttempt (job : SpeechQueueItem) (st : SpeechState) : SpeechState :=
  match speechCacheRef st !! cacheKey job with
  | Some url =>
      if bool_decide (url = "")
      then setFlights (flights st ++ [Fetching job]) st
      else startAudio job st
  | None => setFlights (flights st ++ [Fetching job]) st
  end.

(** [flushSpeechQueue()] up to its first [await]; [enabled] is the
    [speechEnabled] its closure captured. *)
Definition flushSpeechQueue (enabled : bool) (st : SpeechState) : SpeechState :=
  if negb enabled || isSpeakingRef st then st
  else
    match speechQueueRef st with
    | [] => st
    | job :: rest => beginAttempt job (setSpeaking true (setQueue rest st))
    end.

(** [nextJob.resolve()] or [nextJob.reject(error)]: the invocation is over
    and the promise of its job settles. *)
Definition settle (f : Flight) (how : Settlement) (st : SpeechState) : SpeechState :=
  setSettled (settled st ++ [(jobId (flightJob f), how)])
    (setFlights (filter (λ g, g ≠ f) (flights st)) st).

(** The [finally] block.  The recursive call goes through the closure of
    the invocation, which was created with [speechEnabled] true. *)
Definition finally_ (st : SpeechState) : SpeechState :=
  let st1 := setSpeaking false st in
  match speechQueueRef st1 with
  | [] => st1
  | _ :: _ => flushSpeechQueue true st1
  end.

(** [audio.pause(); audio.currentTime = 0] on the element of [audioRef]. *)
Definition pauseCurrent (st : SpeechState) : SpeechState :=
  match audioRef st with
  | Some a => setSounding (filter (λ b, b ≠ a) (sounding st)) st
  | None => st
  end.

Inductive SpeakResult :=
| ResolvedAtOnce            (* [Promise.resolve()] *)
| Pending (job : nat).      (* the promise of a queued job *)

(** [handleSpeak(message, style, options)]; [selectedStyle] is the style
    the closure captured. *)
Definition handleSpeak (selectedStyle : NagStyle) (msg : string)
    (style_ : option NagStyle) (interrupt : bool) (st : SpeechState)
    : SpeechState * SpeakResult :=
  if negb (speechEnabled st) || bool_decide (msg = "") then (st, ResolvedAtOnce)
  else
    let resolvedStyle := default selectedStyle style_ in
    let st1 :=
      if interrupt
      then setSpeaking false (pauseCurrent (setQueue [] st))
      else st in
    let job := {| jobId := nextJob st1; message := msg; style := resolvedStyle |} in
    let st2 := setNextJob (S (nextJob st1))
                 (setQueue (speechQueueRef st1 ++ [job]) st1) in
    (flushSpeechQueue (speechEnabled st) st2, Pending (jobId job)).

(** The answer of the synthesis endpoint, as [flushSpeechQueue] reads it. *)
Inductive FetchResult :=
| FetchFailed                               (* network error, [!response.ok], bad JSON *)
| FetchOk (format : option string) (audioBase64 : string).

(** What the event loop can deliver to the queue. *)
Inductive Event :=
| Speak (selectedStyle : NagStyle) (msg : string) (style_ : option NagStyle)
    (interrupt : bool)
| FetchDone (job : nat) (r : FetchResult)
| AudioEnded (audio : nat)                  (* [onended] *)
| AudioError (audio : nat)                  (* [onerror] *)
| PlayRejected (audio : nat)                (* [audio.play()] rejects *)
| SetSpeechEnabled (b : bool).

Definition fetchingOf (job : nat) (st : SpeechState) : option Flight :=
  List.find (λ f, match f with
                  | Fetching j => bool_decide (jobId j = job)
                  | Playing _ _ => false
                  end) (flights st).

(** The invocation that waits for the audio element [audio], whether the
    element sounds or was paused. *)
Definition waitingOn (audio : nat) (st : SpeechState) : option Flight :=
  List.find (λ f, match f with
                  | Fetching _ => false
                  | Playing _ a => bool_decide (a = audio)
                  end) (flights st).

(** The invocation that waits for a sounding element. *)
Definition playingOf (audio : nat) (st : SpeechState) : option Flight :=
  if bool_decide (audio ∈ sounding st) then waitingOn audio st else None.

Definition silence (audio : nat) (st : SpeechState) : SpeechState :=
  setSounding (filter (λ b, b ≠ audio) (sounding st)) st.

(** One turn of the event loop.  An event nobody waits for changes nothing.
    [onended] comes from an element that plays to its end, which a paused
    element does not.  [onerror] and the rejection of [audio.play()] also
    come from a paused element: [pause()] rejects a [play()] promise that
    is still pending, and the element may still fail to load.  Either way
    the invocation that waits for the element resumes in its [catch] and
    runs its [finally]. *)
Definition step (st : SpeechState) (ev : Event) : SpeechState :=
  match ev with
  | Speak sel msg sty interrupt => fst (handleSpeak sel msg sty interrupt st)
  | FetchDone job r =>
      match fetchingOf job st with
      | None => st
      | Some f =>
          match r with
          | FetchFailed => finally_ (settle f Rejected st)
          | FetchOk format audioBase64 =>
              let cachedUrl :=
                "data:audio/" +:+ default "mp3" format +:+ ";base64,"
                +:+ audioBase64 in
              let st1 :=
                setCache (<[cacheKey (flightJob f) := cachedUrl]> (speechCacheRef st)) st in
              startAudio (flightJob f)
                (setFlights (filter (λ g, g ≠ f) (flights st1)) st1)
          end
      end
  | AudioEnded audio =>
      match playingOf audio st with
      | None => st
      | Some f =>
          finally_ (settle f Resolved (setAudioRef None (silence audio st)))
      end
  | AudioError audio =>
      match waitingOn audio st with
      | None => st
      | Some f =>
          finally_ (settle f Rejected (setAudioRef None (silence audio st)))
      end
  | PlayRejected audio =>
      match waitingOn audio st with
      | None => st
      | Some f => finally_ (settle f Rejected (silence audio st))
      end
  | SetSpeechEnabled b =>
      (* the effect on [speechEnabled] runs when the setting changes *)
      if bool_decide (b = speechEnabled st) then st
      else
        let st1 := setEnabled b st in
        if b then flushSpeechQueue true st1
        else pauseCurrent (setSpeaking false (setQueue [] st1))
  end.

Definition run (st : SpeechState) (evs : list Event) : SpeechState :=
  foldl step st evs.

(** An event list without interruptions: no [interrupt] flag and no
    switching of the speech setting. *)
Definition plain (ev : Event) : bool :=
  match ev with
  | Speak _ _ _ interrupt => negb interrupt
  | SetSpeechEnabled _ => false
  | _ => true
  end.

(** The element whose playback an event reports as failed. *)
Definition failureOf (ev : Event) : option nat :=
  match ev with
  | AudioError audio | PlayRejected audio => Some audio
  | _ => None
  end.


(** An invocation that waits for an element that was paused: it resumes
    only if the element fails. *)
Definition stuckFlight (st : SpeechState) (f : Flight) : Prop :=
  match f with
  | Fetching _ => False
  | Playing _ a => (a ∉ sounding st) ∧ (a < length (played st))%nat
  end.

(** The queue is serial: apart from invocations that are stuck, at most one
    invocation is under way; the queue is only non-empty while one is; and
    the only element that sounds is the one it waits for. *)
Definition Serial (st : SpeechState) : Prop :=
  ∃ stuck alive,
    flights st = stuck ++ alive
    ∧ Forall (stuckFlight st) stuck
    ∧ match alive with
      | [] =>
          isSpeakingRef st = false ∧ speechQueueRef st = [] ∧ sounding st = []
      | [Fetching _] => isSpeakingRef st = true ∧ sounding st = []
      | [Playing _ a] =>
          isSpeakingRef st = true ∧ sounding st = [a]
          ∧ (a < length (played st))%nat
      | _ => False
      end.

(** [Serial], with the stuck invocations named. *)
Definition SerialWith (stuck : list Flight) (st : SpeechState) : Prop :=
  ∃ alive,
    flights st = stuck ++ alive
    ∧ Forall (stuckFlight st) stuck
    ∧ match alive with
      | [] =>
          isSpeakingRef st = false ∧ speechQueueRef st = [] ∧ sounding st = []
      | [Fetching _] => isSpeakingRef st = true ∧ sounding st = []
      | [Playing _ a] =>
          isSpeakingRef st = true ∧ sounding st = [a]
          ∧ (a < length (played st))%nat
      | _ => False
      end.

(** No invocation is under way. *)
Definition Quiet (st : SpeechState) : Prop :=
  Forall (stuckFlight st) (flights st) ∧ sounding st = [].

(** The jobs in enqueue order: settled, under way, waiting. *)
Definition jobOrder (st : SpeechState) : list nat :=
  map fst (settled st) ++ map (λ f, jobId (flightJob f)) (flights st)
  ++ map jobId (speechQueueRef st).

(** The jobs that are settled or whose clip plays. *)
Definition begun (st : SpeechState) : list nat :=
  map fst (settled st)
  ++ flat_map (λ f, match f with
                    | Fetching _ => []
                    | Playing j _ => [jobId j]
                    end) (flights st).

(** What holds of the queue as long as nothing interrupts it: it is
    serial, no invocation is stuck and [audioRef] is the element that
    sounds, the jobs are taken in the order of their arrival, and the clips
    played are, in order, among the jobs that are settled or playing. *)
Definition Ordered (st : SpeechState) : Prop :=
  (∀ j a, Playing j a ∈ flights st → a ∈ sounding st ∧ audioRef st = Some a)
  ∧ jobOrder st = seq 0 (nextJob st)
  ∧ played st `sublist_of` begun st.

Definition Tight (st : SpeechState) : Prop := Serial st ∧ Ordered st.

(** History only grows: [st'] has played and settled what [st] had, and
    possibly more. *)
Definition Extends (st st' : SpeechState) : Prop :=
  (∃ l, played st' = played st ++ l)
  ∧ (∃ l, settled st' = settled st ++ l)
  ∧ (nextJob st ≤ nextJob st')%nat.

(** The job [i] was created and is neither settled, nor under way, nor
    waiting: its item was dropped from the queue. *)
Definition Dropped (i : nat) (st : SpeechState) : Prop :=
  (∀ how, (i, how) ∉ settled st)
  ∧ (∀ f, f ∈ flights st → jobId (flightJob f) ≠ i)
  ∧ (∀ j, j ∈ speechQueueRef st → jobId j ≠ i)
  ∧ (i < nextJob st)%nat.



End App.

Module Draft.

(** The draft of the card kept in tmp_TodoItemCard.tsx, which no module
    imports.  Its classifier compares the estimate with the remaining
    hours as floating-point numbers and is left out; its suppression test
    is the one that compares the tier at mount with the live tier. *)

(** [shouldSkipInitial] of tmp_TodoItemCard.tsx; [priority] is the prop. *)
Definition shouldSkipInitial (created : option Z) (now : Z)
    (initialPriority priority : PriorityRank) : bool :=
  let withinWindow :=
    match created with
    | None => false
    | Some createdAtMs =>
        negb (createdAtMs =? 0)
        && (now - createdAtMs <? INITIAL_EVENT_SKIP_WINDOW_MS)
    end in
  withinWindow && bool_decide (initialPriority ≠ RankSafe)
  && bool_decide (initialPriority = priority).

End Draft.

Module Card.

(** [toLegacyPriority] of TodoItemCard.tsx keeps the tier as it is. *)
Definition toLegacyPriority (c : Canonical) : PriorityRank :=
  match c with
  | CRITICAL => RankCritical
  | WARNING => RankWarning
  | SAFE => RankSafe
  end.

(** [calculateLocalPriority(deadline, _estimatedTime)] *)
Definition calculateLocalPriority (dl : option Z) (_estimatedTime : option Q)
    (now : Z) : PriorityRank :=
  match dl with
  | None => toLegacyPriority SAFE
  | Some d =>
      let remaining := remainingHours d now in
      if Qle_bool remaining 0 then toLegacyPriority CRITICAL
      else if Qle_bool remaining (inject_Z 6) then toLegacyPriority CRITICAL
      else if Qle_bool remaining (inject_Z 24) then toLegacyPriority WARNING
      else toLegacyPriority SAFE
  end.

(** *** The threshold scheduler (the tick effect of TodoItemCard.tsx) *)

Record Threshold := { key : string; ms : Z }.

Definition PRE_DEADLINE_THRESHOLDS_ASC : list Threshold :=
  [ {| key := "pre-30m"; ms := HALF_HOUR_MS |};
    {| key := "pre-1h"; ms := HOUR_MS |};
    {| key := "pre-2h"; ms := 2 * HOUR_MS |};
    {| key := "pre-3h"; ms := 3 * HOUR_MS |};
    {| key := "pre-4h"; ms := 4 * HOUR_MS |};
    {| key := "pre-5h"; ms := 5 * HOUR_MS |} ].

Definition POST_DEADLINE_THRESHOLDS_ASC : list Threshold :=
  [ {| key := "post-1h"; ms := HOUR_MS |};
    {| key := "post-6h"; ms := 6 * HOUR_MS |};
    {| key := "post-24h"; ms := 24 * HOUR_MS |} ].

(** The thresholds of a list are in ascending order of [ms], as those of
    both lists are. *)
Fixpoint ascending (ths : list Threshold) : bool :=
  match ths with
  | a :: (b :: _) as rest => (ms a <? ms b) && ascending rest
  | _ => true
  end.

(** The refs and the React state the tick reads and writes. *)
Record SchedulerState := {
  prevPriorityRef : PriorityRank;
  prevRemainingRef : option Z;
  triggeredThresholdsRef : gset string;
  shouldShowNag : bool;
  nagRefreshKey : nat;
  pendingSpeechKeyRef : option nat;
}.

(** One entry per call of [triggerNagEvent], tagged with its call site. *)
Inductive AlertEvent :=
| TierTransition
| ThresholdFired (k : string).

#[global] Instance AlertEvent_eq_dec : EqDecision AlertEvent.
Proof. solve_decision. Defined.

(** [requestNagRefresh()] with [forcePlay = false]. *)
Definition requestNagRefresh (st : SchedulerState) : SchedulerState :=
  let next := S (nagRefreshKey st) in
  {| prevPriorityRef := prevPriorityRef st;
     prevRemainingRef := prevRemainingRef st;
     triggeredThresholdsRef := triggeredThresholdsRef st;
     shouldShowNag := shouldShowNag st;
     nagRefreshKey := next;
     pendingSpeechKeyRef := Some next |}.

Definition setTriggered (s : gset string) (st : SchedulerState) :=
  {| prevPriorityRef := prevPriorityRef st;
     prevRemainingRef := prevRemainingRef st;
     triggeredThresholdsRef := s;
     shouldShowNag := shouldShowNag st;
     nagRefreshKey := nagRefreshKey st;
     pendingSpeechKeyRef := pendingSpeechKeyRef st |}.

Definition setPrevRemaining (r : option Z) (st : SchedulerState) :=
  {| prevPriorityRef := prevPriorityRef st;
     prevRemainingRef := r;
     triggeredThresholdsRef := triggeredThresholdsRef st;
     shouldShowNag := shouldShowNag st;
     nagRefreshKey := nagRefreshKey st;
     pendingSpeechKeyRef := pendingSpeechKeyRef st |}.

Definition setPrevPriority (p : PriorityRank) (st : SchedulerState) :=
  {| prevPriorityRef := p;
     prevRemainingRef := prevRemainingRef st;
     triggeredThresholdsRef := triggeredThresholdsRef st;
     shouldShowNag := shouldShowNag st;
     nagRefreshKey := nagRefreshKey st;
     pendingSpeechKeyRef := pendingSpeechKeyRef st |}.

Definition setShouldShowNag (b : bool) (st : SchedulerState) :=
  {| prevPriorityRef := prevPriorityRef st;
     prevRemainingRef := prevRemainingRef st;
     triggeredThresholdsRef := triggeredThresholdsRef st;
     shouldShowNag := b;
     nagRefreshKey := nagRefreshKey st;
     pendingSpeechKeyRef := pendingSpeechKeyRef st |}.

(** [triggerNagEvent()]: refresh, and report the event. *)
Definition triggerNagEvent (e : AlertEvent)
    (c : SchedulerState * list AlertEvent) : SchedulerState * list AlertEvent :=
  (requestNagRefresh (fst c), snd c ++ [e]).

Definition has (s : gset string) (k : string) : bool := bool_decide (k ∈ s).

(** The test of the pre-deadline loop on one threshold. *)
Definition preMatches (prevDiff : option Z) (diff : Z) (fired : gset string)
    (threshold : Threshold) : bool :=
  let prevAbove :=
    match prevDiff with None => true | Some p => p >? ms threshold end in
  prevAbove && (diff <=? ms threshold) && negb (has fired (key threshold)).

(** The test of the post-deadline loop on one threshold. *)
Definition postMatches (prevElapsed elapsed : Z) (fired : gset string)
    (threshold : Threshold) : bool :=
  let prevBelow := prevElapsed <? ms threshold in
  prevBelow && (elapsed >=? ms threshold) && negb (has fired (key threshold)).

(** The pre-deadline [for ... of] loop: the first threshold that matches is
    returned (the loop adds its key, triggers and breaks). *)
Fixpoint scanPre (prevDiff : option Z) (diff : Z) (fired : gset string)
    (ths : list Threshold) : option Threshold :=
  match ths with
  | [] => None
  | threshold :: rest =>
      if preMatches prevDiff diff fired threshold
      then Some threshold
      else scanPre prevDiff diff fired rest
  end.

(** The post-deadline loop. *)
Fixpoint scanPost (prevElapsed elapsed : Z) (fired : gset string)
    (ths : list Threshold) : option Threshold :=
  match ths with
  | [] => None
  | threshold :: rest =>
      if postMatches prevElapsed elapsed fired threshold
      then Some threshold
      else scanPost prevElapsed elapsed fired rest
  end.

Definition fire (k : string) (c : SchedulerState * list AlertEvent) :=
  triggerNagEvent (ThresholdFired k)
    (setTriggered ({[ k ]} ∪ triggeredThresholdsRef (fst c)) (fst c), snd c).

(** The body of [if (!eventTriggered && live === CRITICAL)]. *)
Definition evaluateThresholds (diff : Z)
    (c : SchedulerState * list AlertEvent) : SchedulerState * list AlertEvent :=
  let prevDiff := prevRemainingRef (fst c) in
  if diff >=? 0 then
    let c1 :=
      match scanPre prevDiff diff (triggeredThresholdsRef (fst c))
              PRE_DEADLINE_THRESHOLDS_ASC with
      | Some threshold => fire (key threshold) c
      | None => c
      end in
    let prevPositive :=
      match prevDiff with None => true | Some p => p >? 0 end in
    if prevPositive && (diff <=? 0)
       && negb (has (triggeredThresholdsRef (fst c1)) "deadline-hit")
    then fire "deadline-hit" c1
    else c1
  else
    let prevElapsed :=
      match prevDiff with None => 0 | Some p => Z.max 0 (- p) end in
    let elapsed := Z.abs diff in
    match scanPost prevElapsed elapsed (triggeredThresholdsRef (fst c))
            POST_DEADLINE_THRESHOLDS_ASC with
    | Some threshold => fire (key threshold) c
    | None => c
    end.

Definition isCompleted (todo : TodoItem) : bool :=
  match completedAt todo with Some _ => true | None => false end.

(** [evaluateSchedule(diff)]; [now] is the clock read by
    [calculateLocalPriority].  The result is the state after the tick and
    the events it triggered, in order. *)
Definition evaluateSchedule (todo : TodoItem) (now diff : Z)
    (st : SchedulerState) : SchedulerState * list AlertEvent :=
  if isCompleted todo then
    (setTriggered ∅ (setPrevRemaining (Some diff) st), [])
  else
    let livePriority :=
      calculateLocalPriority (deadline todo) (estimatedTime todo) now in
    let prevPriority := prevPriorityRef st in
    let live := toCanonicalPriority livePriority in
    let prev := toCanonicalPriority prevPriority in
    let c0 : SchedulerState * list AlertEvent := (st, []) in
    let c1 :=
      if bool_decide (prev ≠ live) then
        let c :=
          if bool_decide (prev = SAFE) && bool_decide (live = WARNING)
          then triggerNagEvent TierTransition c0
          else if bool_decide (prev ≠ CRITICAL) && bool_decide (live = CRITICAL)
          then triggerNagEvent TierTransition c0
          else c0 in
        let s1 :=
          setShouldShowNag
            (negb (isCompleted todo) && bool_decide (live ≠ SAFE)) (fst c) in
        let s2 :=
          if bool_decide (live ≠ CRITICAL) then setTriggered ∅ s1 else s1 in
        (setPrevPriority livePriority s2, snd c)
      else c0 in
    if bool_decide (live ≠ CRITICAL) then
      (setPrevRemaining (Some diff) (fst c1), snd c1)
    else
      let eventTriggered :=
        match snd c1 with [] => false | _ => true end in
      let c2 :=
        if negb eventTriggered && bool_decide (live = CRITICAL)
        then evaluateThresholds diff c1
        else c1 in
      (setPrevRemaining (Some diff) (fst c2), snd c2).

(** [calc()]: both clock reads of one tick fall in the same millisecond. *)
Definition calc (todo : TodoItem) (now : Z) (st : SchedulerState)
    : SchedulerState * list AlertEvent :=
  match deadline todo with
  | Some d => evaluateSchedule todo now (d - now) st
  | None => (setPrevRemaining None st, [])
  end.

(** A sequence of ticks, each with its clock read and its [diff]. *)
Fixpoint runTicks (todo : TodoItem) (ticks : list (Z * Z))
    (st : SchedulerState) : SchedulerState * list AlertEvent :=
  match ticks with
  | [] => (st, [])
  | (now, diff) :: rest =>
      let r := evaluateSchedule todo now diff st in
      let r' := runTicks todo rest (fst r) in
      (fst r', snd r ++ snd r')
  end.

(** The two places where the tick empties [triggeredThresholdsRef]: a
    completed task, and a tier change to a tier other than CRITICAL. *)
Definition clearsFired (todo : TodoItem) (now : Z) (st : SchedulerState) : bool :=
  let live :=
    toCanonicalPriority
      (calculateLocalPriority (deadline todo) (estimatedTime todo) now) in
  let prev := toCanonicalPriority (prevPriorityRef st) in
  isCompleted todo
  || (bool_decide (prev ≠ live) && bool_decide (live ≠ CRITICAL)).

(** No tick of the sequence empties the set of fired keys. *)
Fixpoint neverClears (todo : TodoItem) (ticks : list (Z * Z))
    (st : SchedulerState) : bool :=
  match ticks with
  | [] => true
  | (now, diff) :: rest =>
      negb (clearsFired todo now st)
      && neverClears todo rest (fst (evaluateSchedule todo now diff st))
  end.

(** How many events of a trace carry the threshold key [k]. *)
Definition countKey (k : string) (evs : list AlertEvent) : nat :=
  length (filter (λ e, e = ThresholdFired k) evs).

(** The tick finds the task in CRITICAL and sees another tier. *)
Definition leavesCritical (todo : TodoItem) (now : Z) (st : SchedulerState) : bool :=
  let live :=
    toCanonicalPriority
      (calculateLocalPriority (deadline todo) (estimatedTime todo) now) in
  bool_decide (toCanonicalPriority (prevPriorityRef st) = CRITICAL)
  && bool_decide (live ≠ CRITICAL).

(** A lifecycle: the task is not completed and no tick of the sequence
    leaves CRITICAL. *)
Fixpoint staysInLifecycle (todo : TodoItem) (ticks : list (Z * Z))
    (st : SchedulerState) : bool :=
  match ticks with
  | [] => true
  | (now, diff) :: rest =>
      negb (isCompleted todo) && negb (leavesCritical todo now st)
      && staysInLifecycle todo rest (fst (evaluateSchedule todo now diff st))
  end.

(** The clock reads of a tick sequence never go back, from [t] on. *)
Fixpoint clockAdvances (t : Z) (ticks : list (Z * Z)) : bool :=
  match ticks with
  | [] => true
  | (now, _) :: rest => (t <=? now) && clockAdvances now rest
  end.

(** *** The shape of a tick *)

(** What one evaluation of the thresholds can do to the set of fired keys
    and which events it reports. *)
Inductive ThresholdOutcome (diff : Z) (T : gset string)
    : gset string → list AlertEvent → Prop :=
| out_none : ThresholdOutcome diff T T []
| out_one (k : string) :
    k ∉ T → ThresholdOutcome diff T ({[ k ]} ∪ T) [ThresholdFired k]
| out_two (k : string) :
    diff = 0 → k ∉ T → k ≠ "deadline-hit" → ("deadline-hit" ∉ T) →
    k ∈ map key PRE_DEADLINE_THRESHOLDS_ASC →
    ThresholdOutcome diff T ({[ "deadline-hit" ]} ∪ ({[ k ]} ∪ T))
      [ThresholdFired k; ThresholdFired "deadline-hit"].

(** The three ways a tick can end. *)
Inductive TickOutcome (todo : TodoItem) (now diff : Z) (st : SchedulerState)
    : SchedulerState → list AlertEvent → Prop :=
| tick_cleared (st' : SchedulerState) (evs : list AlertEvent) :
    clearsFired todo now st = true →
    triggeredThresholdsRef st' = ∅ →
    evs = [] ∨ evs = [TierTransition] →
    TickOutcome todo now diff st st' evs
| tick_transition (st' : SchedulerState) :
    clearsFired todo now st = false →
    triggeredThresholdsRef st' = triggeredThresholdsRef st →
    TickOutcome todo now diff st st' [TierTransition]
| tick_thresholds (st' : SchedulerState) (evs : list AlertEvent) :
    clearsFired todo now st = false →
    ThresholdOutcome diff (triggeredThresholdsRef st)
      (triggeredThresholdsRef st') evs →
    TickOutcome todo now diff st st' evs.

(** *** The alert dispatcher (the effect on [displayMessage]) *)

Record DispatcherState := mkDispatcher {
  hasSkippedInitialEventRef : bool;
  initialPriorityRef : PriorityRank;
  prevStyleRef : App.NagStyle;
  lastSpeechKeyRef : Z;
  lastLoadedKeyRef : option nat;
}.

Definition setHasSkipped (b : bool) '(mkDispatcher _ i p s l) :=
  mkDispatcher b i p s l.
Definition setInitialPriority (i : PriorityRank) '(mkDispatcher b _ p s l) :=
  mkDispatcher b i p s l.
Definition setPrevStyle (p : App.NagStyle) '(mkDispatcher b i _ s l) :=
  mkDispatcher b i p s l.
Definition setLastSpeechKey (s : Z) '(mkDispatcher b i p _ l) :=
  mkDispatcher b i p s l.
Definition setLastLoadedKey (l : option nat) '(mkDispatcher b i p s _) :=
  mkDispatcher b i p s l.

Definition setPendingSpeechKey (k : option nat) (st : SchedulerState) :=
  {| prevPriorityRef := prevPriorityRef st;
     prevRemainingRef := prevRemainingRef st;
     triggeredThresholdsRef := triggeredThresholdsRef st;
     shouldShowNag := shouldShowNag st;
     nagRefreshKey := nagRefreshKey st;
     pendingSpeechKeyRef := k |}.

(** The effect on [todo.id], the deadline, the estimate and [isCompleted]:
    a new task instance.  It also runs when the card mounts. *)
Definition resetForTask (todo : TodoItem) (now : Z)
    (c : SchedulerState * DispatcherState) : SchedulerState * DispatcherState :=
  let initialPriority :=
    calculateLocalPriority (deadline todo) (estimatedTime todo) now in
  let s1 := setPrevPriority initialPriority (fst c) in
  let s2 :=
    setShouldShowNag
      (negb (isCompleted todo)
       && bool_decide (toCanonicalPriority initialPriority ≠ SAFE)) s1 in
  let s3 :=
    setPrevRemaining
      (match deadline todo with Some d => Some (d - now) | None => None end) s2 in
  let s4 := setTriggered ∅ s3 in
  (s4, setInitialPriority initialPriority
         (setLastSpeechKey (-1) (setHasSkipped false (snd c)))).

(** The refs of a card at its first render, after the effects of the mount. *)
Definition mount (todo : TodoItem) (priority : PriorityRank)
    (selectedStyle : App.NagStyle) (now : Z) : SchedulerState * DispatcherState :=
  resetForTask todo now
    ({| prevPriorityRef :=
          calculateLocalPriority (deadline todo) (estimatedTime todo) now;
        prevRemainingRef :=
          match deadline todo with Some d => Some (d - now) | None => None end;
        triggeredThresholdsRef := ∅;
        shouldShowNag :=
          negb (isCompleted todo)
          && bool_decide (toCanonicalPriority priority ≠ SAFE);
        nagRefreshKey := 0;
        pendingSpeechKeyRef := None |},
     mkDispatcher false priority selectedStyle (-1) None).

(** The message request of the current [nagRefreshKey] has answered. *)
Definition messageLoaded (c : SchedulerState * DispatcherState)
    : SchedulerState * DispatcherState :=
  (fst c,
   setLastLoadedKey
     (Some (default (nagRefreshKey (fst c)) (pendingSpeechKeyRef (fst c))))
     (snd c)).

(** [createdAtMs && Date.now() - createdAtMs < INITIAL_EVENT_SKIP_WINDOW_MS] *)
Definition withinWindow (created : option Z) (now : Z) : bool :=
  match created with
  | None => false
  | Some createdAtMs =>
      negb (createdAtMs =? 0)
      && (now - createdAtMs <? INITIAL_EVENT_SKIP_WINDOW_MS)
  end.

Definition shouldSkipInitial (todo : TodoItem) (now : Z)
    (ds : DispatcherState) : bool :=
  withinWindow (createdAt todo) now
  && bool_decide (initialPriorityRef ds ≠ toLegacyPriority SAFE).

Inductive Action :=
| Notify (body : string)                          (* [triggerNotification] *)
| OnSpeak (msg : string) (style : App.NagStyle).  (* [onSpeak], no options *)

Inductive DispatchOutcome :=
| NotDue                          (* nothing to dispatch in this run *)
| StyleChanged                    (* the pending alert is dropped *)
| SkippedInitial                  (* consumed, not dispatched *)
| Dispatched (acts : list Action).

Definition consume (c : SchedulerState * DispatcherState)
    : SchedulerState * DispatcherState :=
  (setPendingSpeechKey None (fst c),
   setLastSpeechKey (Z.of_nat (nagRefreshKey (fst c))) (snd c)).

(** One run of the effect. *)
Definition dispatchEffect (todo : TodoItem) (now : Z)
    (selectedStyle : App.NagStyle) (aiMessage : option string)
    (notificationsEnabled speechEnabled : bool)
    (c : SchedulerState * DispatcherState)
    : (SchedulerState * DispatcherState) * DispatchOutcome :=
  let ss := fst c in
  let displayMessage := if shouldShowNag ss then aiMessage else None in
  match displayMessage with
  | None => (c, NotDue)
  | Some msg =>
      if negb (shouldShowNag ss) || bool_decide (msg = "") || isCompleted todo
      then (c, NotDue)
      else
        let styleJustChanged :=
          bool_decide (prevStyleRef (snd c) ≠ selectedStyle) in
        let c1 := (ss, setPrevStyle selectedStyle (snd c)) in
        if styleJustChanged then (consume c1, StyleChanged)
        else if bool_decide (pendingSpeechKeyRef ss = Some (nagRefreshKey ss))
                && bool_decide (lastLoadedKeyRef (snd c1) = Some (nagRefreshKey ss))
                && bool_decide (lastSpeechKeyRef (snd c1) ≠ Z.of_nat (nagRefreshKey ss))
        then
          if negb (hasSkippedInitialEventRef (snd c1))
             && shouldSkipInitial todo now (snd c1)
          then (consume (ss, setHasSkipped true (snd c1)), SkippedInitial)
          else
            let c2 := (ss, setHasSkipped true (snd c1)) in
            let acts :=
              (if notificationsEnabled then [Notify msg] else [])
              ++ (if speechEnabled && shouldShowNag ss
                  then [OnSpeak msg selectedStyle] else []) in
            (consume c2, Dispatched acts)
        else (c1, NotDue)
  end.

End Card.

(** ** The task list of App.tsx *)

Module AppList.

(** [priorityOrderWeight]: 충격 1, 경고 2, 안전 3. *)
Definition priorityOrderWeight (c : Canonical) : Z :=
  match c with CRITICAL => 1 | WARNING => 2 | SAFE => 3 end.

(** [LEGACY_TO_CANONICAL], a table with an entry for every rank. *)
Definition LEGACY_TO_CANONICAL (p : PriorityRank) : Canonical :=
  match p with
  | LEGACY_CRITICAL => CRITICAL
  | LEGACY_WARNING => WARNING
  | LEGACY_SAFE => SAFE
  | RankCritical => CRITICAL
  | RankWarning => WARNING
  | RankSafe => SAFE
  end.

(** [prioritySortWeight(priority)]: the smaller, the more urgent. *)
Definition prioritySortWeight (priority : PriorityRank) : Z :=
  priorityOrderWeight (LEGACY_TO_CANONICAL priority).

(** [TodoItem] of App.tsx, after the data-store boundary. *)
Record TodoItem := {
  id : string;
  name : string;
  deadline : option Z;
  estimatedTime : option Q;
  priority : PriorityRank;
  createdAt : option Z;
  completedAt : option Z;
}.

(** A [Date | null] as a condition. *)
Definition truthy {A} (o : option A) : bool :=
  match o with Some _ => true | None => false end.

Section Sorting.
(** [a.localeCompare(b)] *)
Variable localeCompare : string → string → Z.

(** The comparator of the snapshot listener. *)
Definition snapshotOrder (a b : TodoItem) : Z :=
  if truthy (completedAt a) && negb (truthy (completedAt b)) then 1
  else if negb (truthy (completedAt a)) && truthy (completedAt b) then -1
  else
    let priorityDiff :=
      prioritySortWeight (priority a) - prioritySortWeight (priority b) in
    if negb (priorityDiff =? 0) then priorityDiff
    else
      match deadline a, deadline b with
      | Some da, Some db => da - db
      | Some _, None => -1
      | None, Some _ => 1
      | None, None => localeCompare (name a) (name b)
      end.

(** The comparator of [sortedTodos], with its own table of weights. *)
Definition sortedTodosOrder (a b : TodoItem) : Z :=
  let weight (c : Canonical) : Z :=
    match c with CRITICAL => 1 | WARNING => 2 | SAFE => 3 end in
  if truthy (completedAt a) && negb (truthy (completedAt b)) then 1
  else if negb (truthy (completedAt a)) && truthy (completedAt b) then -1
  else
    let diff :=
      weight (toCanonicalPriority (priority a))
      - weight (toCanonicalPriority (priority b)) in
    if negb (diff =? 0) then diff
    else
      match deadline a, deadline b with
      | Some da, Some db => da - db
      | Some _, None => -1
      | None, Some _ => 1
      | None, None => localeCompare (name a) (name b)
      end.

End Sorting.

(** *** The reminder timers (the effect on [hydratedTodos] and the two
    switches) *)

Definition PRE_DEADLINE_REMINDER_MS : Z := 30 * 60 * 1000.

(** A timeout the effect sets: its id, its delay, and what its callback
    closed over. *)
Record Reminder := {
  timeoutId : nat;
  triggerAt : Z;
  remindedTodo : TodoItem;
  notificationsEnabledThen : bool;
}.

(** [notificationTimersRef], and the number of timeouts set so far: the
    ids of the timeouts are numbered in the order of their creation. *)
Record TimerState := {
  notificationTimersRef : gmap string nat;
  timeoutsSet : nat;
}.

Inductive TimerAction :=
| ClearTimeout (timerId : nat)
| SetTimeout (reminder : Reminder).

(** [!todo.completedAt && todo.deadline] *)
Definition isPending (todo : TodoItem) : bool :=
  negb (truthy (completedAt todo)) && truthy (deadline todo).

(** The body of [pending.forEach]. *)
Definition scheduleReminder (notificationsEnabled : bool) (now : Z)
    (acc : TimerState * list TimerAction) (todo : TodoItem)
    : TimerState * list TimerAction :=
  let timers := notificationTimersRef (fst acc) in
  match deadline todo with
  | None => acc
  | Some d =>
      if bool_decide (is_Some (timers !! id todo)) then acc
      else
        let triggerAt := d - PRE_DEADLINE_REMINDER_MS - now in
        if triggerAt <=? 0 then acc
        else
          let timeoutId := timeoutsSet (fst acc) in
          ({| notificationTimersRef := <[id todo := timeoutId]> timers;
              timeoutsSet := S timeoutId |},
           snd acc
           ++ [SetTimeout {| timeoutId := timeoutId;
                             triggerAt := triggerAt;
                             remindedTodo := todo;
                             notificationsEnabledThen := notificationsEnabled |}])
  end.

(** The effect; [now] is the clock read of this run.  The order in which
    the stale timers are cleared is the order of the map, which is not
    modelled. *)
Definition reminderEffect (hydratedTodos : list TodoItem)
    (notificationsEnabled speechEnabled : bool) (now : Z) (st : TimerState)
    : TimerState * list TimerAction :=
  let timers := notificationTimersRef st in
  if negb notificationsEnabled && negb speechEnabled then
    ({| notificationTimersRef := ∅; timeoutsSet := timeoutsSet st |},
     map (λ kv, ClearTimeout (snd kv)) (map_to_list timers))
  else
    let pending := List.filter isPending hydratedTodos in
    let isStale (kv : string * nat) : Prop := fst kv ∉ map id pending in
    let cleared :=
      map (λ kv, ClearTimeout (snd kv)) (map_to_list (filter isStale timers)) in
    let kept := filter (λ kv, ¬ isStale kv) timers in
    foldl (scheduleReminder notificationsEnabled now)
      ({| notificationTimersRef := kept; timeoutsSet := timeoutsSet st |},
       cleared)
      pending.

End AppList.

(** ** The nag rules and the duration text (utils/nagMessages.ts) *)

Module Nag.

(** The task as the message generator sees it. *)
Record TodoItem := {
  title : string;
  dueDate : Z;
  estimatedTime : Q;
  createdAt : Z;
}.

Inductive NagRule := CRITICAL | PROCRASTINATING | NORMAL.

#[global] Instance NagRule_eq_dec : EqDecision NagRule.
Proof. solve_decision. Defined.

Definition ONE_MINUTE : Z := 60 * 1000.
Definition ONE_HOUR : Z := 60 * ONE_MINUTE.
Definition ONE_DAY : Z := 24 * ONE_HOUR.

(** [formatDuration(ms)] on a whole number of milliseconds; the numbers are
    printed in decimal, as a template literal prints an integer. *)
Definition formatDuration (ms : Z) : string :=
  let isNegative := ms <? 0 in
  let abs := Z.abs ms in
  let days := abs / ONE_DAY in
  let hours := (abs mod ONE_DAY) / ONE_HOUR in
  let minutes := (abs mod ONE_HOUR) / ONE_MINUTE in
  let parts :=
    (if bool_decide (days ≠ 0) then [pretty days +:+ "일"] else [])
    ++ (if bool_decide (hours ≠ 0) || bool_decide (days ≠ 0)
        then [pretty hours +:+ "시간"] else [])
    ++ [pretty minutes +:+ "분"] in
  let result := String.concat " " parts in
  if isNegative then "-" +:+ result else result.

(** [determineNagRule(todo, now)] *)
Definition determineNagRule (todo : TodoItem) (now : Z) : NagRule :=
  let timeUntilDue := dueDate todo - now in
  if timeUntilDue <=? ONE_DAY then CRITICAL
  else
    let timeSinceCreated := now - createdAt todo in
    if timeSinceCreated >=? 2 * ONE_DAY then PROCRASTINATING
    else NORMAL.

(** How pressing a rule is. *)
Definition pressure (r : NagRule) : Z :=
  match r with NORMAL => 0 | PROCRASTINATING => 1 | CRITICAL => 2 end.

End Nag.

(** ** The card between two resets *)

Module CardLife.
Import Card.

(** What happens to a mounted card: the interval fires and [calc] runs, the
    message request answers, or the component renders and the effect on
    [displayMessage] runs with the props and the message of that render. *)
Inductive CardEvent :=
| Tick (now : Z)
| Loaded
| Render (now : Z) (selectedStyle : App.NagStyle) (aiMessage : option string)
    (notificationsEnabled speechEnabled : bool).

Inductive CardOutput :=
| Alerts (evs : list AlertEvent)
| Outcome (o : DispatchOutcome).

Definition cardStep (todo : TodoItem) (c : SchedulerState * DispatcherState)
    (ev : CardEvent) : (SchedulerState * DispatcherState) * CardOutput :=
  match ev with
  | Tick now =>
      let r := calc todo now (fst c) in ((fst r, snd c), Alerts (snd r))
  | Loaded => (messageLoaded c, Alerts [])
  | Render now selectedStyle aiMessage notificationsEnabled speechEnabled =>
      let r := dispatchEffect todo now selectedStyle aiMessage
                 notificationsEnabled speechEnabled c in
      (fst r, Outcome (snd r))
  end.

Fixpoint cardRun (todo : TodoItem) (evs : list CardEvent)
    (c : SchedulerState * DispatcherState)
    : (SchedulerState * DispatcherState) * list CardOutput :=
  match evs with
  | [] => (c, [])
  | ev :: rest =>
      let r := cardStep todo c ev in
      let r' := cardRun todo rest (fst r) in
      (fst r', snd r :: snd r')
  end.

(** A tick that reported at least one alert event. *)
Definition raisesAlert (o : CardOutput) : bool :=
  match o with Alerts (_ :: _) => true | _ => false end.

(** A run of the effect that took the pending alert: it dispatched it or
    suppressed it as the initial one. *)
Definition handlesAlert (o : CardOutput) : bool :=
  match o with
  | Outcome SkippedInitial | Outcome (Dispatched _) => true
  | _ => false
  end.

Definition isSkip (o : CardOutput) : bool :=
  match o with Outcome SkippedInitial => true | _ => false end.

(** The remaining time of a tick sequence never grows, from [p] on. *)
Fixpoint remainingShrinks (p : Z) (ticks : list (Z * Z)) : bool :=
  match ticks with
  | [] => true
  | (_, diff) :: rest => (diff <=? p) && remainingShrinks diff rest
  end.

(** The remaining time [p] seen by the last tick is already at or beyond
    the point at which the key [k] fires. *)
Definition passed (p : Z) (k : string) : bool :=
  existsb (λ th, bool_decide (k = key th) && (p <=? ms th))
    PRE_DEADLINE_THRESHOLDS_ASC
  || (bool_decide (k = "deadline-hit") && (p <=? 0))
  || existsb (λ th, bool_decide (k = key th) && (ms th <=? - p))
       POST_DEADLINE_THRESHOLDS_ASC.
(** The nag is shown for an open task whose remembered tier is not 안전. *)
Definition nagShownAsTier (todo : TodoItem) (st : SchedulerState) : Prop :=
  shouldShowNag st
  = negb (isCompleted todo)
    && bool_decide (toCanonicalPriority (prevPriorityRef st) ≠ SAFE).

(** How many outputs of a run satisfy [f]. *)
Definition count (f : CardOutput → bool) (outs : list CardOutput) : nat :=
  length (List.filter f outs).

(** After the first output that took an alert, no output is the initial
    skip. *)
Fixpoint skipOnlyFirst (outs : list CardOutput) : bool :=
  match outs with
  | [] => true
  | o :: rest =>
      if handlesAlert o then forallb (λ o', negb (isSkip o')) rest
      else skipOnlyFirst rest
  end.

(** 1 while an alert is pending. *)
Definition pendingAlerts (c : SchedulerState * DispatcherState) : nat :=
  match pendingSpeechKeyRef (fst c) with Some _ => 1 | None => 0 end.

(** The key of the last alert taken is never ahead of the refresh key. *)
Definition keysInOrder (c : SchedulerState * DispatcherState) : Prop :=
  lastSpeechKeyRef (snd c) ≤ Z.of_nat (nagRefreshKey (fst c)).

(** [nagPayload] of TodoItemCard.tsx, built in a render whose clock reads
    [now]; [name] is [todo.name]. *)
Definition nagPayload (name : string) (todo : TodoItem) (now : Z) : Nag.TodoItem :=
  {| Nag.title := if bool_decide (name = "") then "이름 없는 할 일" else name;
     Nag.dueDate := default (now + 60 * 60 * 1000) (deadline todo);
     Nag.estimatedTime := default 1%Q (estimatedTime todo);
     Nag.createdAt := default now (createdAt todo) |}.

End CardLife.

(** ** The forms: adding, editing and deleting a task *)

Module Forms.
Import App.

(** [editForm] of TodoItemCard.tsx and [TodoFormState] of
    TodoInputForm.tsx: what the three inputs hold. *)
Record FormState := {
  name : string;
  deadline : string;
  estimatedTime : string;
}.

(** What the edit form hands to [updateTodo]. *)
Record Updates := {
  updatedName : string;
  updatedDeadline : option JsDate;
  updatedEstimatedTime : option JsNumber;
}.

(** What the input form hands to [addTodo]. *)
Record NewTodo := {
  newName : string;
  newDeadline : option JsDate;
  newEstimatedTime : option JsNumber;
  newCreatedAt : option JsDate;
}.

(** What [handleUpdateTodo] writes to the document of the task. *)
Record UpdateDoc := {
  docName : string;
  docDeadline : option JsDate;
  docEstimatedTime : option JsNumber;
}.

(** The document [handleAddTodo] adds. *)
Record AddDoc := {
  addedName : string;
  addedDeadline : option JsDate;
  addedEstimatedTime : option JsNumber;
  addedPriority : PriorityRank;
  addedCreatedAt : JsDate;
  addedCompletedAt : option JsDate;
  addedUserId : string;
}.

(** A submit handler shows an error and stops, or calls its callback. *)
Inductive Submission (P : Type) :=
| FormError (message : string)
| Submitted (payload : P).
Arguments FormError {P} message.
Arguments Submitted {P} payload.

(** [Number.isNaN] *)
Definition isNaN (n : JsNumber) : bool :=
  match n with NaN => true | _ => false end.

(** [n < 0] on JavaScript numbers. *)
Definition ltZero (n : JsNumber) : bool :=
  match n with
  | NaN => false
  | Infinity negative => negative
  | Finite q => Qltb q 0
  end.

(** [d.getTime()] of a valid date, and the number of a finite estimate, as
    the classifier takes them. *)
Definition timeOf (d : option JsDate) : option Z :=
  match d with Some (DateOf t) => Some t | _ => None end.

Definition hoursOf (n : option JsNumber) : option Q :=
  match n with Some (Finite q) => Some q | _ => None end.

(** [value instanceof Date && !Number.isNaN(value.getTime()) ? value : null] *)
Definition validOrNull (d : option JsDate) : option JsDate :=
  match d with
  | Some d => if isInvalid d then None else Some d
  | None => None
  end.

(** A [number | null] as the [unknown] that [normalizeEstimatedTime]
    takes. *)
Definition asValue (n : option JsNumber) : JsValue :=
  match n with Some n => VNumber n | None => VOther end.

Section Platform.
(** The parts of the platform the handlers call: [s.trim()], [new Date(s)]
    and [Number(s)]. *)
Variable trim : string → string.
Variable dateOfString : string → JsDate.
Variable numberOf : string → JsNumber.

(** [handleEditSubmit] of TodoItemCard.tsx, up to the call of
    [updateTodo]. *)
Definition handleEditSubmit (editForm : FormState) : Submission Updates :=
  let trimmedName := trim (name editForm) in
  if bool_decide (trimmedName = "")
  then FormError "할 일 이름을 입력해주세요."
  else
    let parsedDeadline :=
      if bool_decide (deadline editForm = "") then None
      else Some (dateOfString (deadline editForm)) in
    if match parsedDeadline with
       | Some d => isInvalid d
       | None => false
       end
    then FormError "올바른 마감 시간을 입력해주세요."
    else
      let parsedEstimated :=
        if (0 <? String.length (trim (estimatedTime editForm)))%nat
        then Some (numberOf (estimatedTime editForm))
        else None in
      if match parsedEstimated with
         | Some n => isNaN n || ltZero n
         | None => false
         end
      then FormError "예상 시간은 0 이상으로 입력해주세요."
      else
        Submitted {| updatedName := trimmedName;
                     updatedDeadline := parsedDeadline;
                     updatedEstimatedTime := parsedEstimated |}.

(** [handleUpdateTodo(id, updates)] of App.tsx: the fields it writes, or
    nothing while the database is not ready. *)
Definition handleUpdateTodo (ready : bool) (updates : Updates)
    : option UpdateDoc :=
  if negb ready then None
  else
    let sanitizedDeadline := validOrNull (updatedDeadline updates) in
    let sanitizedEstimate :=
      normalizeEstimatedTime (λ s, numberOf (trim s))
        (asValue (updatedEstimatedTime updates)) in
    Some {| docName := updatedName updates;
            docDeadline := sanitizedDeadline;
            docEstimatedTime := sanitizedEstimate |}.

(** [handleSubmit] of TodoInputForm.tsx, up to the call of [addTodo];
    [now] is [new Date()]. *)
Definition handleSubmit (form : FormState) (now : Z) : Submission NewTodo :=
  let payload :=
    {| newName := trim (name form);
       newDeadline :=
         if bool_decide (deadline form = "") then None
         else Some (dateOfString (deadline form));
       newEstimatedTime :=
         if bool_decide (estimatedTime form = "") then None
         else Some (numberOf (estimatedTime form));
       newCreatedAt := Some (DateOf now) |} in
  if bool_decide (newName payload = "")
  then FormError "할 일 이름을 입력해 주세요."
  else Submitted payload.

(** [handleAddTodo(payload)] of App.tsx: the document it adds for the user
    [userId], or nothing while the database or the user is not ready;
    [now] is the clock read by [calculatePriority] and by [new Date()]. *)
Definition handleAddTodo (ready : bool) (userId : option string) (now : Z)
    (payload : NewTodo) : option AddDoc :=
  match userId with
  | None | Some "" => None                (* [!userId] *)
  | Some uid =>
      if negb ready then None
      else
        let deadline := validOrNull (newDeadline payload) in
        let estimatedTime :=
          normalizeEstimatedTime (λ s, numberOf (trim s))
            (asValue (newEstimatedTime payload)) in
        Some {| addedName := newName payload;
                addedDeadline := deadline;
                addedEstimatedTime := estimatedTime;
                addedPriority :=
                  calculatePriority (timeOf deadline) (hoursOf estimatedTime) now;
                addedCreatedAt := default (DateOf now) (newCreatedAt payload);
                addedCompletedAt := None;
                addedUserId := uid |}
  end.

End Platform.

(** The delete button of a card: [isConfirming], the timer of
    [resetTimerRef], the timers created so far and the calls of
    [deleteTodo]. *)
Record DeleteState := {
  isConfirming : bool;
  resetTimerRef : option nat;
  timersCreated : nat;
  deleteCalls : nat;
}.

Definition unarmed : DeleteState :=
  {| isConfirming := false; resetTimerRef := None;
     timersCreated := 0; deleteCalls := 0 |}.

(** [handleDeleteClick()] *)
Definition handleDeleteClick (st : DeleteState) : DeleteState :=
  if negb (isConfirming st) then
    {| isConfirming := true;
       resetTimerRef := Some (timersCreated st);
       timersCreated := S (timersCreated st);
       deleteCalls := deleteCalls st |}
  else
    {| isConfirming := false;
       resetTimerRef := None;
       timersCreated := timersCreated st;
       deleteCalls := S (deleteCalls st) |}.

Inductive DeleteEvent :=
| Click
| TimerFired (timer : nat).      (* two seconds after it was set *)

(** A timer that was cleared or replaced does not fire: only the one in
    [resetTimerRef] can. *)
Definition deleteStep (st : DeleteState) (ev : DeleteEvent) : DeleteState :=
  match ev with
  | Click => handleDeleteClick st
  | TimerFired timer =>
      if bool_decide (resetTimerRef st = Some timer) then
        {| isConfirming := false;
           resetTimerRef := None;
           timersCreated := timersCreated st;
           deleteCalls := deleteCalls st |}
      else st
  end.

Definition clicks (evs : list DeleteEvent) : nat :=
  length (List.filter (λ ev, match ev with Click => true | _ => false end) evs).

End Forms.

(** ** The speech cache *)

Module SpeechCache.
Import App.

(** The cache holds a clip for the key [k]: a URL that is not empty. *)
Definition hasClip (k : string) (st : SpeechState) : Prop :=
  ∃ url, speechCacheRef st !! k = Some url ∧ url ≠ "".

End SpeechCache.

(** ** Concrete tasks and runs used to exercise the model *)

Module Scenario.
Import Card.

Definition due : Z := 1700000000000.

(** A task without estimate, created 33 min 20 s before its deadline. *)
Definition lateTodo : TodoItem :=
  {| deadline := Some due; estimatedTime := None;
     createdAt := Some (due - 2000000); completedAt := None |}.

(** The card of [lateTodo], mounted when the task is created. *)
Definition lateMounted : SchedulerState :=
  fst (mount lateTodo LEGACY_CRITICAL App.Harsh (due - 2000000)).

(** A task created seven hours before its deadline, and ticks that reach
    it with gaps of hours: into CRITICAL, towards the deadline, past it. *)
Definition longTodo : TodoItem :=
  {| deadline := Some due; estimatedTime := None;
     createdAt := Some (due - 7 * HOUR_MS); completedAt := None |}.

Definition longMounted : SchedulerState :=
  fst (mount longTodo LEGACY_WARNING App.Harsh (due - 7 * HOUR_MS)).

Definition tickAt (now : Z) : Z * Z := (now, due - now).

Definition longTicks : list (Z * Z) :=
  map tickAt
    [ due - 7 * HOUR_MS; due - 5 * HOUR_MS - HALF_HOUR_MS;
      due - 5 * HOUR_MS + 60000; due - 600000; due - 540000; due;
      due + 2 * HOUR_MS; due + 2 * HOUR_MS + 60000; due + 30 * HOUR_MS;
      due + 31 * HOUR_MS ].

(** [longTodo], completed one hour before its deadline. *)
Definition doneTodo : TodoItem :=
  {| deadline := Some due; estimatedTime := None;
     createdAt := Some (due - 7 * HOUR_MS);
     completedAt := Some (due - HOUR_MS) |}.

(** A task with six hours and five seconds to go when it is created: its
    tier is WARNING then, and CRITICAL ten seconds later. *)
Definition freshTodo : TodoItem :=
  {| deadline := Some due; estimatedTime := None;
     createdAt := Some (due - 6 * HOUR_MS - 5000); completedAt := None |}.

Definition freshCreated : Z := due - 6 * HOUR_MS - 5000.

(** The card of [freshTodo] ten seconds after the creation: mounted, first
    tick, then the tick that sees the change of tier, and the answer of the
    message request. *)
Definition freshAfterTick : SchedulerState * DispatcherState :=
  let m := mount freshTodo LEGACY_WARNING App.Harsh freshCreated in
  let t0 := calc freshTodo freshCreated (fst m) in
  let t1 := calc freshTodo (freshCreated + 10000) (fst t0) in
  messageLoaded (fst t1, snd m).

(** Three lines are spoken on an idle queue; the endpoint answers and the
    clips end, one after the other. *)
Definition say (msg : string) : App.Event :=
  App.Speak App.Harsh msg None false.

Definition clip : App.FetchResult := App.FetchOk None "QUJD".

Definition threeJobs : list App.Event := [say "one"; say "two"; say "three"].

Definition firstPlaying : list App.Event := threeJobs ++ [App.FetchDone 0 clip].

Definition threeJobsPlayed : list App.Event :=
  firstPlaying
  ++ [App.AudioEnded 0; App.FetchDone 1 clip; App.AudioEnded 1;
      App.FetchDone 2 clip; App.AudioEnded 2].

Definition job (i : nat) (msg : string) : App.SpeechQueueItem :=
  {| App.jobId := i; App.message := msg; App.style := App.Harsh |}.

End Scenario.

(** ** Further concrete cases *)

Module Cases.
Import Card CardLife Scenario.

(** The card of [longTodo] after the tick ten minutes before the deadline,
    which followed a gap of more than five hours. *)
Definition tenMinutesLeft : SchedulerState :=
  fst (runTicks longTodo (take 4 longTicks) longMounted).

(** The card of [longTodo] as mounted, with both of its groups of refs. *)
Definition longCard : SchedulerState * DispatcherState :=
  mount longTodo LEGACY_WARNING App.Harsh (due - 7 * HOUR_MS).

(** The tick that sees [longTodo] enter 충격, the answer of the message
    request, and the render that follows. *)
Definition alertRun : list CardEvent :=
  [ Tick (due - 5 * HOUR_MS - HALF_HOUR_MS); Loaded;
    Render (due - 5 * HOUR_MS - HALF_HOUR_MS) App.Harsh (Some "hurry") true true ].

(** A task as the message generator sees it. *)
Definition nagTodo : Nag.TodoItem :=
  {| Nag.title := "report"; Nag.dueDate := due; Nag.estimatedTime := 2%Q;
     Nag.createdAt := due - 72 * HOUR_MS |}.

(** Stand-ins for the platform: a name comparison by length, and parsers
    that know one date and two numbers. *)
Definition byLength (a b : string) : Z :=
  Z.of_nat (String.length a) - Z.of_nat (String.length b).

Definition parseDate (s : string) : App.JsDate :=
  if bool_decide (s = "2023-11-14T22:13") then App.DateOf due
  else App.InvalidDate.

Definition parseNumber (s : string) : App.JsNumber :=
  if bool_decide (s = "2") then App.Finite 2%Q
  else if bool_decide (s = "") then App.Finite 0%Q
  else App.NaN.

Definition editForm : Forms.FormState :=
  {| Forms.name := "report"; Forms.deadline := "2023-11-14T22:13";
     Forms.estimatedTime := "2" |}.

(** Two tasks of the list: one open and due, one completed. *)
Definition listed : list AppList.TodoItem :=
  [ {| AppList.id := "a"; AppList.name := "report";
       AppList.deadline := Some due; AppList.estimatedTime := None;
       AppList.priority := LEGACY_SAFE;
       AppList.createdAt := Some (due - 72 * HOUR_MS);
       AppList.completedAt := None |};
    {| AppList.id := "b"; AppList.name := "slides";
       AppList.deadline := Some due; AppList.estimatedTime := None;
       AppList.priority := LEGACY_SAFE;
       AppList.createdAt := Some (due - 72 * HOUR_MS);
       AppList.completedAt := Some (due - 48 * HOUR_MS) |} ].

Definition noTimers : AppList.TimerState :=
  {| AppList.notificationTimersRef := ∅; AppList.timeoutsSet := 0 |}.

End Cases.

(** * Properties *)

Section Scheduler.
Import Card.

Implicit Types (st : SchedulerState) (evs : list AlertEvent)
  (k : string) (T : gset string).

Lemma has_true T k : has T k = true ↔ k ∈ T.
Proof. unfold has. apply bool_decide_eq_true. Qed.

Lemma has_false T k : has T k = false ↔ k ∉ T.
Proof. unfold has. apply bool_decide_eq_false. Qed.

Lemma scanPre_Some prevDiff diff T ths th :
  scanPre prevDiff diff T ths = Some th →
  th ∈ ths ∧ (key th ∉ T) ∧ diff <= ms th.
Proof.
  induction ths as [|t rest IH]; simpl; [done|].
  destruct (preMatches _ _ _ _) eqn:E.
  - intros [= <-]. unfold preMatches in E.
    apply andb_true_iff in E as [E1 E3].
    apply andb_true_iff in E1 as [_ E2].
    apply negb_true_iff, has_false in E3.
    split; [left|split; [done|lia]].
  - intros H. destruct (IH H) as (?&?&?). split; [by right|done].
Qed.

Lemma scanPost_Some prevElapsed elapsed T ths th :
  scanPost prevElapsed elapsed T ths = Some th →
  th ∈ ths ∧ (key th ∉ T).
Proof.
  induction ths as [|t rest IH]; simpl; [done|].
  destruct (postMatches _ _ _ _) eqn:E.
  - intros [= <-]. unfold postMatches in E.
    apply andb_true_iff in E as [_ E3].
    apply negb_true_iff, has_false in E3. split; [left|done].
  - intros H. destruct (IH H) as (?&?). split; [by right|done].
Qed.

Lemma pre_keys_not_deadline_hit k :
  k ∈ map key PRE_DEADLINE_THRESHOLDS_ASC → k ≠ "deadline-hit".
Proof.
  intros Hin ->. revert Hin. vm_compute. intros Hin.
  repeat (apply elem_of_cons in Hin as [Hin|Hin]; [discriminate|]).
  by apply elem_of_nil in Hin.
Qed.

Lemma evaluateThresholds_outcome diff st :
  let r := evaluateThresholds diff (st, []) in
  ThresholdOutcome diff (triggeredThresholdsRef st)
    (triggeredThresholdsRef (fst r)) (snd r)
  ∧ prevPriorityRef (fst r) = prevPriorityRef st.
Proof.
  unfold evaluateThresholds. cbn [fst snd].
  destruct (diff >=? 0) eqn:Hsign.
  - destruct (scanPre _ _ _ _) as [th|] eqn:Hscan.
    + apply scanPre_Some in Hscan as (Hin & Hfresh & Hle).
      assert (Hk : key th ∈ map key PRE_DEADLINE_THRESHOLDS_ASC)
        by (by apply list_elem_of_fmap_2).
      cbn [fire triggerNagEvent fst snd setTriggered requestNagRefresh
           triggeredThresholdsRef app].
      destruct (_ && _) eqn:E; cbn.
      * apply andb_true_iff in E as [E1 E3].
        apply andb_true_iff in E1 as [_ E2].
        apply negb_true_iff, has_false in E3.
        split; [|done].
        apply out_two; [lia|done|by apply pre_keys_not_deadline_hit| |done].
        intros Hd. apply E3, elem_of_union. by right.
      * split; [|done]. by apply out_one.
    + destruct (_ && _) eqn:E; cbn.
      * apply andb_true_iff in E as [_ E3].
        apply negb_true_iff, has_false in E3.
        split; [|done]. by apply out_one.
      * split; [apply out_none|done].
  - destruct (scanPost _ _ _ _) as [th|] eqn:Hscan; cbn.
    + apply scanPost_Some in Hscan as (_ & Hfresh).
      split; [|done]. by apply out_one.
    + split; [apply out_none|done].
Qed.

(** Decide the closed tier comparisons left after a case analysis. *)
Ltac eval_tier_tests :=
  repeat match goal with
    | |- context [bool_decide ?P] =>
        let b := eval vm_compute in (bool_decide P) in
        change (bool_decide P) with b
    | H : context [bool_decide ?P] |- _ =>
        let b := eval vm_compute in (bool_decide P) in
        change (bool_decide P) with b in H
    end.

Lemma evaluateSchedule_outcome todo now diff st :
  TickOutcome todo now diff st
    (fst (evaluateSchedule todo now diff st))
    (snd (evaluateSchedule todo now diff st)).
Proof.
  unfold evaluateSchedule.
  destruct (isCompleted todo) eqn:Hc.
  - apply tick_cleared; [unfold clearsFired; by rewrite Hc|done|by left].
  - pose proof (evaluateThresholds_outcome diff st) as [Hthr _].
    assert (Hcl : clearsFired todo now st
                  = (bool_decide (toCanonicalPriority (prevPriorityRef st)
                       ≠ toCanonicalPriority (calculateLocalPriority
                           (deadline todo) (estimatedTime todo) now))
                     && bool_decide (toCanonicalPriority (calculateLocalPriority
                           (deadline todo) (estimatedTime todo) now) ≠ CRITICAL)))
      by (unfold clearsFired; by rewrite Hc).
    revert Hcl.
    generalize (calculateLocalPriority (deadline todo) (estimatedTime todo) now).
    intros livePriority.
    destruct (toCanonicalPriority (prevPriorityRef st)) eqn:Hprev,
             (toCanonicalPriority livePriority) eqn:Hlive;
      intros Hcl; eval_tier_tests; cbn [andb negb fst snd] in *;
      first
        [ by (apply tick_cleared; [done|done|(by left) || (by right)])
        | by apply tick_transition
        | by apply tick_thresholds
        | by (apply tick_thresholds; [done|apply out_none]) ].
Qed.

Lemma countKey_app k evs1 evs2 :
  countKey k (evs1 ++ evs2) = (countKey k evs1 + countKey k evs2)%nat.
Proof. unfold countKey. by rewrite filter_app, length_app. Qed.

Lemma countKey_cons k e evs :
  countKey k (e :: evs)
  = ((if decide (e = ThresholdFired k) then 1 else 0) + countKey k evs)%nat.
Proof. unfold countKey. rewrite filter_cons. by case_decide. Qed.

Lemma countKey_nil k : countKey k [] = 0%nat.
Proof. done. Qed.

(** A tick that does not empty the set keeps every fired key, reports a
    key only if it was not fired before, and never reports it twice. *)
Lemma tick_keys todo now diff st k :
  clearsFired todo now st = false →
  let r := evaluateSchedule todo now diff st in
  (k ∈ triggeredThresholdsRef st → k ∈ triggeredThresholdsRef (fst r))
  ∧ (k ∈ triggeredThresholdsRef st → countKey k (snd r) = 0%nat)
  ∧ (countKey k (snd r) ≤ 1)%nat
  ∧ (countKey k (snd r) = 1%nat → k ∈ triggeredThresholdsRef (fst r)).
Proof.
  intros Hcl r. subst r.
  destruct (evaluateSchedule_outcome todo now diff st)
    as [st' evs Hcl' _ _|st' _ HT|st' evs _ Hout]; [congruence| |].
  - rewrite HT, countKey_cons, countKey_nil.
    case_decide; [discriminate|]. cbn. repeat split; [done|lia|lia].
  - destruct Hout as [|k' Hk'|k' _ Hk' Hne Hd _];
      rewrite ?countKey_cons, ?countKey_nil;
      repeat case_decide; simplify_eq; cbn;
      repeat split; intros; try lia; set_solver.
Qed.

Lemma fired_key_stays_silent todo ticks : ∀ st k,
  neverClears todo ticks st = true →
  k ∈ triggeredThresholdsRef st →
  countKey k (snd (runTicks todo ticks st)) = 0%nat.
Proof.
  induction ticks as [|[now diff] rest IH]; intros st k Hnc Hin; [done|].
  cbn [runTicks neverClears snd] in *.
  apply andb_true_iff in Hnc as [Hcl Hrest].
  apply negb_true_iff in Hcl.
  destruct (tick_keys todo now diff st k Hcl) as (Hkeep & Hzero & _ & _).
  rewrite countKey_app, (Hzero Hin), (IH _ k Hrest (Hkeep Hin)). done.
Qed.

(** While the set of fired keys is never emptied, no key is reported twice. *)
Lemma no_clear_at_most_once todo ticks st k :
  neverClears todo ticks st = true →
  (countKey k (snd (runTicks todo ticks st)) ≤ 1)%nat.
Proof.
  revert st. induction ticks as [|[now diff] rest IH]; intros st Hnc.
  - cbn. lia.
  - cbn [runTicks neverClears snd] in *.
    apply andb_true_iff in Hnc as [Hcl Hrest].
    apply negb_true_iff in Hcl.
    destruct (tick_keys todo now diff st k Hcl) as (_ & _ & Hle & Hone).
    rewrite countKey_app.
    destruct (decide (countKey k (snd (evaluateSchedule todo now diff st)) = 1%nat))
      as [E|E].
    + rewrite (fired_key_stays_silent todo rest _ k Hrest (Hone E)). lia.
    + specialize (IH _ Hrest). lia.
Qed.

(** After a tick on an open task the remembered tier is the live one. *)
Lemma tick_remembers_live_tier todo now diff st :
  isCompleted todo = false →
  toCanonicalPriority (prevPriorityRef (fst (evaluateSchedule todo now diff st)))
  = toCanonicalPriority
      (calculateLocalPriority (deadline todo) (estimatedTime todo) now).
Proof.
  intros Hc. unfold evaluateSchedule. rewrite Hc.
  pose proof (evaluateThresholds_outcome diff st) as [_ Hprev].
  generalize (calculateLocalPriority (deadline todo) (estimatedTime todo) now).
  intros livePriority.
  destruct (toCanonicalPriority (prevPriorityRef st)) eqn:Hp,
           (toCanonicalPriority livePriority) eqn:Hl;
    eval_tier_tests;
    cbn [andb negb fst snd app setPrevRemaining setPrevPriority setTriggered
         setShouldShowNag triggerNagEvent requestNagRefresh prevPriorityRef];
    rewrite ?Hprev; congruence.
Qed.

(** Outside CRITICAL no threshold is evaluated: a tick that finds the task
    in another tier reports no key. *)
Lemma tick_outside_critical_fires_no_key todo now diff st k :
  toCanonicalPriority (prevPriorityRef st) ≠ CRITICAL →
  countKey k (snd (evaluateSchedule todo now diff st)) = 0%nat.
Proof.
  intros Hp. unfold evaluateSchedule.
  destruct (isCompleted todo); [done|].
  generalize (calculateLocalPriority (deadline todo) (estimatedTime todo) now).
  intros livePriority.
  destruct (toCanonicalPriority (prevPriorityRef st)) eqn:Hprev,
           (toCanonicalPriority livePriority) eqn:Hl;
    try done; eval_tier_tests; by cbn.
Qed.

Lemma lifecycle_in_critical_never_clears todo ticks : ∀ st,
  toCanonicalPriority (prevPriorityRef st) = CRITICAL →
  staysInLifecycle todo ticks st = true → neverClears todo ticks st = true.
Proof.
  induction ticks as [|[now diff] rest IH]; intros st Hp Hl; [done|].
  cbn [staysInLifecycle neverClears] in *.
  apply andb_true_iff in Hl as [Hl Hrest].
  apply andb_true_iff in Hl as [Hc Hleave].
  apply negb_true_iff in Hc, Hleave.
  unfold leavesCritical in Hleave. rewrite Hp in Hleave.
  rewrite bool_decide_eq_true_2 in Hleave by done. cbn in Hleave.
  apply bool_decide_eq_false in Hleave.
  assert (Hlive : toCanonicalPriority
                    (calculateLocalPriority (deadline todo) (estimatedTime todo) now)
                  = CRITICAL).
  { destruct (decide (toCanonicalPriority
                        (calculateLocalPriority (deadline todo) (estimatedTime todo) now)
                      = CRITICAL)) as [E|E]; [done|by destruct Hleave]. }
  apply andb_true_iff. split.
  - unfold clearsFired. rewrite Hc, Hp, Hlive. by eval_tier_tests.
  - apply IH; [|done]. by rewrite tick_remembers_live_tier.
Qed.

(** C1.  Over a whole sequence of ticks of one task instance -- the task is
    not completed and no tick leaves CRITICAL, so that the fired keys are
    not forgotten -- every threshold key, and so each of the six
    pre-deadline keys, [deadline-hit] and the three post-deadline keys, is
    reported by at most one alert event, whatever the clock reads and the
    gaps between the ticks are. *)
Theorem threshold_key_fires_at_most_once todo ticks st k :
  staysInLifecycle todo ticks st = true →
  (countKey k (snd (runTicks todo ticks st)) ≤ 1)%nat.
Proof.
  revert st. induction ticks as [|[now diff] rest IH]; intros st Hl.
  - cbn. lia.
  - destruct (decide (toCanonicalPriority (prevPriorityRef st) = CRITICAL))
      as [Hp|Hp].
    + by apply no_clear_at_most_once, lifecycle_in_critical_never_clears.
    + cbn [runTicks staysInLifecycle snd] in *.
      apply andb_true_iff in Hl as [_ Hrest].
      rewrite countKey_app, tick_outside_critical_fires_no_key by done.
      by apply IH.
Qed.

(** Time only brings the deadline nearer: the later, the fewer hours. *)
Lemma remainingHours_antitone d now now' :
  now ≤ now' → (remainingHours d now' <= remainingHours d now)%Q.
Proof.
  intros H. unfold remainingHours, Qdiv.
  apply Qmult_le_compat_r; [rewrite <- Zle_Qle; lia|]. by vm_compute.
Qed.

Lemma critical_stays_critical dl e now now' :
  now ≤ now' →
  toCanonicalPriority (calculateLocalPriority dl e now) = CRITICAL →
  toCanonicalPriority (calculateLocalPriority dl e now') = CRITICAL.
Proof.
  intros Hle. destruct dl as [d|]; [|done]. unfold calculateLocalPriority.
  cbn zeta. pose proof (remainingHours_antitone d now now' Hle) as Hrh.
  destruct (Qle_bool (remainingHours d now) 0) eqn:E0.
  - intros _. apply Qle_bool_iff in E0.
    assert (E : Qle_bool (remainingHours d now') 0 = true)
      by (apply Qle_bool_iff; by apply Qle_trans with (remainingHours d now)).
    by rewrite E.
  - destruct (Qle_bool (remainingHours d now) (inject_Z 6)) eqn:E6.
    + intros _. apply Qle_bool_iff in E6.
      assert (E : Qle_bool (remainingHours d now') (inject_Z 6) = true)
        by (apply Qle_bool_iff; by apply Qle_trans with (remainingHours d now)).
      rewrite E. by destruct (Qle_bool (remainingHours d now') 0).
    + by destruct (Qle_bool (remainingHours d now) (inject_Z 24)).
Qed.

(** With a clock that does not go back, an open task never leaves
    CRITICAL: every such run is a lifecycle in the sense of C1. *)
Lemma advancing_clock_stays_in_lifecycle todo ticks : ∀ st t0,
  isCompleted todo = false →
  toCanonicalPriority (prevPriorityRef st)
  = toCanonicalPriority
      (calculateLocalPriority (deadline todo) (estimatedTime todo) t0) →
  clockAdvances t0 ticks = true →
  staysInLifecycle todo ticks st = true.
Proof.
  induction ticks as [|[now diff] rest IH]; intros st t0 Hc Hp Hclock; [done|].
  cbn [staysInLifecycle clockAdvances] in *.
  apply andb_true_iff in Hclock as [Ht Hrest]. apply Z.leb_le in Ht.
  rewrite Hc. cbn [negb andb].
  apply andb_true_iff. split.
  - apply negb_true_iff. unfold leavesCritical.
    destruct (decide (toCanonicalPriority (prevPriorityRef st) = CRITICAL))
      as [E|E].
    + rewrite (bool_decide_eq_false_2 (_ ≠ CRITICAL)); [by rewrite andb_false_r|].
      intros Hn. apply Hn.
      apply (critical_stays_critical _ _ t0 now Ht). by rewrite <- Hp.
    + by rewrite (bool_decide_eq_false_2 _ E).
  - apply (IH _ now); [done| |done]. by apply tick_remembers_live_tier.
Qed.

Lemma completed_run_silent todo ticks : ∀ st,
  isCompleted todo = true → snd (runTicks todo ticks st) = [].
Proof.
  induction ticks as [|[now diff] rest IH]; intros st Hc; [done|].
  cbn [runTicks snd]. rewrite (IH _ Hc), app_nil_r.
  unfold evaluateSchedule. by rewrite Hc.
Qed.

(** C7.  A tick on a completed task reports no alert event; it leaves all
    refs as they were except that the set of fired keys is emptied and the
    previous remaining time becomes the current [diff].  Hence no sequence
    of ticks on a task that stays completed reports an event. *)
Theorem completed_task_tick_is_silent todo now diff st :
  isCompleted todo = true →
  evaluateSchedule todo now diff st
  = ({| prevPriorityRef := prevPriorityRef st;
        prevRemainingRef := Some diff;
        triggeredThresholdsRef := ∅;
        shouldShowNag := shouldShowNag st;
        nagRefreshKey := nagRefreshKey st;
        pendingSpeechKeyRef := pendingSpeechKeyRef st |}, [])
  ∧ ∀ ticks st0, snd (runTicks todo ticks st0) = [].
Proof.
  intros Hc. split.
  - unfold evaluateSchedule. by rewrite Hc.
  - intros ticks st0. by apply completed_run_silent.
Qed.

Lemma scanPre_find prevDiff diff T ths :
  scanPre prevDiff diff T ths
  = List.find (preMatches prevDiff diff T) ths.
Proof. induction ths as [|t rest IH]; [done|]. cbn. by rewrite IH. Qed.

Lemma scanPost_find prevElapsed elapsed T ths :
  scanPost prevElapsed elapsed T ths
  = List.find (postMatches prevElapsed elapsed T) ths.
Proof. induction ths as [|t rest IH]; [done|]. cbn. by rewrite IH. Qed.

(** The first match of a list: nothing before it matches. *)
Lemma find_first {A} (f : A → bool) (l : list A) (x : A) :
  List.find f l = Some x →
  ∃ l1 l2, l = l1 ++ x :: l2 ∧ f x = true ∧ Forall (λ y, f y = false) l1.
Proof.
  induction l as [|y l IH]; [done|]. cbn. destruct (f y) eqn:E.
  - intros [= ->]. exists [], l. by repeat split.
  - intros H. destruct (IH H) as (l1 & l2 & -> & Hx & Hl1).
    exists (y :: l1), l2. repeat split; [done|]. by constructor.
Qed.

Lemma ascending_head x l :
  ascending (x :: l) = true → Forall (λ t, ms x < ms t) l.
Proof.
  revert x. induction l as [|y l IH]; intros x H; [constructor|].
  cbn [ascending] in H. apply andb_true_iff in H as [Hxy Hl].
  apply Z.ltb_lt in Hxy. constructor; [done|].
  eapply Forall_impl; [apply (IH y Hl)|]. cbn. intros t Ht. lia.
Qed.

Lemma ascending_split l1 x l2 :
  ascending (l1 ++ x :: l2) = true → Forall (λ t, ms x < ms t) l2.
Proof.
  induction l1 as [|y l1 IH]; cbn [app]; [apply ascending_head|].
  intros H. apply IH. destruct (l1 ++ x :: l2) eqn:E; [done|].
  cbn [ascending] in H. by apply andb_true_iff in H as [_ H].
Qed.

(** In an ascending list the first match is the match nearest to the
    deadline. *)
Lemma find_least (f : Threshold → bool) (l : list Threshold) (x : Threshold) :
  ascending l = true → List.find f l = Some x →
  x ∈ l ∧ f x = true ∧ ∀ t, t ∈ l → f t = true → ms x ≤ ms t.
Proof.
  intros Hasc Hfind.
  destruct (find_first f l x Hfind) as (l1 & l2 & -> & Hx & Hl1).
  split_and!; [apply elem_of_app; right; left|done|].
  intros t Ht Hft. apply elem_of_app in Ht as [Ht|Ht].
  - rewrite Forall_forall in Hl1. rewrite (Hl1 t Ht) in Hft. discriminate.
  - apply elem_of_cons in Ht as [->|Ht]; [lia|].
    pose proof (ascending_split l1 x l2 Hasc) as Hl2.
    rewrite Forall_forall in Hl2. specialize (Hl2 t Ht). lia.
Qed.

(** The events of one evaluation of the thresholds. *)
Lemma evaluateThresholds_events diff st :
  let prevDiff := prevRemainingRef st in
  let T := triggeredThresholdsRef st in
  snd (evaluateThresholds diff (st, []))
  = if diff >=? 0 then
      match List.find (preMatches prevDiff diff T) PRE_DEADLINE_THRESHOLDS_ASC with
      | Some th => [ThresholdFired (key th)]
      | None => []
      end
      ++ (if match prevDiff with None => true | Some p => p >? 0 end
             && (diff <=? 0) && negb (has T "deadline-hit")
          then [ThresholdFired "deadline-hit"] else [])
    else
      match List.find (postMatches (match prevDiff with
                                    | None => 0
                                    | Some p => Z.max 0 (- p)
                                    end) (Z.abs diff) T)
              POST_DEADLINE_THRESHOLDS_ASC with
      | Some th => [ThresholdFired (key th)]
      | None => []
      end.
Proof.
  cbn zeta. unfold evaluateThresholds. cbn [fst snd].
  rewrite scanPre_find, scanPost_find.
  destruct (diff >=? 0).
  - destruct (List.find _ PRE_DEADLINE_THRESHOLDS_ASC) as [th|] eqn:Hf.
    + assert (Hk : key th ≠ "deadline-hit").
      { apply pre_keys_not_deadline_hit. apply list_elem_of_fmap_2.
        apply find_some in Hf as [Hin _]. by apply list_elem_of_In. }
      assert (Hhas : has ({[key th]} ∪ triggeredThresholdsRef st) "deadline-hit"
                     = has (triggeredThresholdsRef st) "deadline-hit").
      { unfold has. apply bool_decide_ext.
        rewrite elem_of_union, elem_of_singleton.
        split; [intros [E|E]; [by destruct Hk|done]|by right]. }
      cbn [fire triggerNagEvent fst snd setTriggered requestNagRefresh
           triggeredThresholdsRef app].
      rewrite Hhas. by destruct (_ && _).
    + cbn [app]. by destruct (_ && _).
  - by destruct (List.find _ POST_DEADLINE_THRESHOLDS_ASC).
Qed.

(** A tick that fires a key has evaluated the thresholds: the task is
    open, its tier was and is CRITICAL, and the events are those of the
    evaluation. *)
Lemma tick_fires_key todo now diff st k :
  ThresholdFired k ∈ snd (evaluateSchedule todo now diff st) →
  snd (evaluateSchedule todo now diff st) = snd (evaluateThresholds diff (st, [])).
Proof.
  unfold evaluateSchedule.
  destruct (isCompleted todo) eqn:Hc; cbn [snd].
  { intros H. by apply elem_of_nil in H. }
  generalize (calculateLocalPriority (deadline todo) (estimatedTime todo) now).
  intros livePriority.
  destruct (toCanonicalPriority (prevPriorityRef st)) eqn:Hprev,
           (toCanonicalPriority livePriority) eqn:Hlive;
    eval_tier_tests; cbn [andb negb fst snd triggerNagEvent app];
    intros H; try done;
    try (by apply elem_of_nil in H);
    try (apply list_elem_of_singleton in H; discriminate).
Qed.

(** ... and conversely the thresholds are evaluated on every tick of an
    open task whose tier was and is CRITICAL. *)
Lemma tick_evaluates_thresholds todo now diff st :
  isCompleted todo = false →
  toCanonicalPriority (prevPriorityRef st) = CRITICAL →
  toCanonicalPriority
    (calculateLocalPriority (deadline todo) (estimatedTime todo) now) = CRITICAL →
  snd (evaluateSchedule todo now diff st) = snd (evaluateThresholds diff (st, [])).
Proof.
  intros Hc Hprev Hlive. unfold evaluateSchedule. rewrite Hc.
  cbn zeta. rewrite Hprev, Hlive. eval_tier_tests. by cbn.
Qed.

(** C4, as the code has it.  A tick reports at most two events, and at
    most one unless [diff] is exactly 0; two events are a pre-deadline key
    followed by [deadline-hit], and two keys of one tick differ only in
    that way.  When the tick reports a tier transition it reports nothing
    else and adds no key to the fired set.  The key a tick fires before
    the deadline is the one of the unfired threshold that matches and is
    nearest to the deadline -- the first match of the ascending list --
    however many thresholds the gap since the last tick skipped; after the
    deadline it is the first match of the ascending post-deadline list.
    And a tick of an open task whose tier was and is CRITICAL does fire a
    key of the list whenever one of its thresholds matches. *)
Theorem tick_reports_one_event_unless_deadline_instant todo now diff st :
  let r := evaluateSchedule todo now diff st in
  let prevDiff := prevRemainingRef st in
  let T := triggeredThresholdsRef st in
  let prevElapsed :=
    match prevDiff with None => 0 | Some p => Z.max 0 (- p) end in
  (length (snd r) ≤ 2)%nat
  ∧ (diff ≠ 0 → (length (snd r) ≤ 1)%nat)
  ∧ (length (snd r) = 2%nat →
     ∃ k, k ∈ map key PRE_DEADLINE_THRESHOLDS_ASC
          ∧ snd r = [ThresholdFired k; ThresholdFired "deadline-hit"])
  ∧ (TierTransition ∈ snd r →
     snd r = [TierTransition]
     ∧ triggeredThresholdsRef (fst r) ⊆ triggeredThresholdsRef st)
  ∧ (∀ k k', ThresholdFired k ∈ snd r → ThresholdFired k' ∈ snd r →
       k = k' ∨ k = "deadline-hit" ∨ k' = "deadline-hit")
  ∧ (∀ k, ThresholdFired k ∈ snd r → k ≠ "deadline-hit" → 0 ≤ diff →
       ∃ th, th ∈ PRE_DEADLINE_THRESHOLDS_ASC ∧ k = key th
             ∧ preMatches prevDiff diff T th = true
             ∧ ∀ t, t ∈ PRE_DEADLINE_THRESHOLDS_ASC →
                    preMatches prevDiff diff T t = true → ms th ≤ ms t)
  ∧ (∀ k, ThresholdFired k ∈ snd r → diff < 0 →
       ∃ th, th ∈ POST_DEADLINE_THRESHOLDS_ASC ∧ k = key th
             ∧ postMatches prevElapsed (Z.abs diff) T th = true
             ∧ ∀ t, t ∈ POST_DEADLINE_THRESHOLDS_ASC →
                    postMatches prevElapsed (Z.abs diff) T t = true →
                    ms th ≤ ms t)
  ∧ (isCompleted todo = false →
     toCanonicalPriority (prevPriorityRef st) = CRITICAL →
     toCanonicalPriority
       (calculateLocalPriority (deadline todo) (estimatedTime todo) now)
     = CRITICAL →
     (∀ th, 0 ≤ diff → th ∈ PRE_DEADLINE_THRESHOLDS_ASC →
            preMatches prevDiff diff T th = true →
            ∃ k, k ∈ map key PRE_DEADLINE_THRESHOLDS_ASC
                 ∧ ThresholdFired k ∈ snd r)
     ∧ (∀ th, diff < 0 → th ∈ POST_DEADLINE_THRESHOLDS_ASC →
              postMatches prevElapsed (Z.abs diff) T th = true →
              ∃ k, k ∈ map key POST_DEADLINE_THRESHOLDS_ASC
                   ∧ ThresholdFired k ∈ snd r)).
Proof.
  intros r prevDiff T prevElapsed. subst r.
  assert (Hshape :
    let evs := snd (evaluateSchedule todo now diff st) in
    (length evs ≤ 2)%nat ∧ (diff ≠ 0 → (length evs ≤ 1)%nat)
    ∧ (length evs = 2%nat →
       ∃ k, k ∈ map key PRE_DEADLINE_THRESHOLDS_ASC
            ∧ evs = [ThresholdFired k; ThresholdFired "deadline-hit"])
    ∧ (TierTransition ∈ evs →
       evs = [TierTransition]
       ∧ triggeredThresholdsRef (fst (evaluateSchedule todo now diff st))
         ⊆ triggeredThresholdsRef st)
    ∧ (∀ k k', ThresholdFired k ∈ evs → ThresholdFired k' ∈ evs →
         k = k' ∨ k = "deadline-hit" ∨ k' = "deadline-hit")).
  { cbn zeta.
    destruct (evaluateSchedule_outcome todo now diff st)
      as [st' evs _ HT [->| ->]|st' _ HT|st' evs _ Hout].
    - split_and!; cbn; [lia|lia|discriminate| |].
      + intros Hin. by apply elem_of_nil in Hin.
      + intros k k' Hin. by apply elem_of_nil in Hin.
    - split_and!; cbn; [lia|lia|discriminate| |].
      + intros _. split; [done|]. rewrite HT. apply empty_subseteq.
      + intros k k' Hin. apply list_elem_of_singleton in Hin. discriminate.
    - split_and!; cbn; [lia|lia|discriminate| |].
      + intros _. split; [done|]. by rewrite HT.
      + intros k k' Hin. apply list_elem_of_singleton in Hin. discriminate.
    - destruct Hout as [|k' Hk'|k' Hz Hk' Hne Hd Hkin]; cbn.
      + split_and!; cbn; [lia|lia|discriminate| |].
        * intros Hin. by apply elem_of_nil in Hin.
        * intros k1 k2 Hin. by apply elem_of_nil in Hin.
      + split_and!; cbn; [lia|lia|discriminate| |].
        * intros Hin. apply list_elem_of_singleton in Hin. discriminate.
        * intros k1 k2 H1 H2. apply list_elem_of_singleton in H1, H2.
          left. congruence.
      + split_and!; cbn; [lia|done| | |].
        * intros _. by exists k'.
        * intros Hin. apply elem_of_cons in Hin as [Hin|Hin]; [discriminate|].
          apply list_elem_of_singleton in Hin. discriminate.
        * intros k1 k2 H1 H2.
          apply elem_of_cons in H1 as [H1|H1];
            [|apply list_elem_of_singleton in H1; right; left; congruence].
          apply elem_of_cons in H2 as [H2|H2];
            [|apply list_elem_of_singleton in H2; right; right; congruence].
          left. congruence. }
  destruct Hshape as (H1 & H2 & H3 & H4 & H5).
  split_and!; [done|done|done|done|done| | |].
  - intros k Hin Hne Hdiff.
    rewrite (tick_fires_key todo now diff st k Hin) in Hin.
    rewrite evaluateThresholds_events in Hin. cbn zeta in Hin.
    rewrite (proj2 (Z.geb_le diff 0)) in Hin by lia.
    apply elem_of_app in Hin as [Hin|Hin].
    + destruct (List.find _ _) as [th|] eqn:Hf;
        [|by apply elem_of_nil in Hin].
      apply list_elem_of_singleton in Hin. injection Hin as ->.
      destruct (find_least _ PRE_DEADLINE_THRESHOLDS_ASC _ eq_refl Hf)
        as (Hth & Hm & Hleast).
      by exists th.
    + destruct (_ && _); [|by apply elem_of_nil in Hin].
      apply list_elem_of_singleton in Hin. congruence.
  - intros k Hin Hdiff.
    rewrite (tick_fires_key todo now diff st k Hin) in Hin.
    rewrite evaluateThresholds_events in Hin. cbn zeta in Hin.
    assert (Hs : (diff >=? 0) = false) by (rewrite Z.geb_leb; apply Z.leb_gt; lia).
    rewrite Hs in Hin.
    destruct (List.find _ _) as [th|] eqn:Hf;
      [|by apply elem_of_nil in Hin].
    apply list_elem_of_singleton in Hin. injection Hin as ->.
    destruct (find_least _ POST_DEADLINE_THRESHOLDS_ASC _ eq_refl Hf)
      as (Hth & Hm & Hleast).
    by exists th.
  - intros Hc Hprev Hlive.
    rewrite (tick_evaluates_thresholds todo now diff st Hc Hprev Hlive).
    rewrite evaluateThresholds_events. cbn zeta.
    split.
    + intros th Hdiff Hth Hm.
      rewrite (proj2 (Z.geb_le diff 0)) by lia.
      destruct (List.find _ _) as [th'|] eqn:Hf.
      * exists (key th'). split.
        -- apply list_elem_of_fmap_2. apply find_some in Hf as [Hin _].
           by apply list_elem_of_In.
        -- apply elem_of_app. left. left.
      * exfalso. apply list_elem_of_In in Hth.
        pose proof (find_none _ _ Hf th Hth) as Hn. cbn in Hn.
        fold prevDiff T in Hn. congruence.
    + intros th Hdiff Hth Hm.
      assert (Hs : (diff >=? 0) = false) by (rewrite Z.geb_leb; apply Z.leb_gt; lia).
      rewrite Hs.
      destruct (List.find _ _) as [th'|] eqn:Hf.
      * exists (key th'). split.
        -- apply list_elem_of_fmap_2. apply find_some in Hf as [Hin _].
           by apply list_elem_of_In.
        -- left.
      * exfalso. apply list_elem_of_In in Hth.
        pose proof (find_none _ _ Hf th Hth) as Hn. cbn in Hn.
        fold prevDiff T prevElapsed in Hn. congruence.
Qed.

End Scheduler.

Section SchedulerRuns.
Import Card Scenario.

Lemma threshold_key_fires_at_most_once_witness :
  staysInLifecycle longTodo longTicks longMounted = true
  ∧ (countKey "pre-30m" (snd (runTicks longTodo longTicks longMounted)) ≤ 1)%nat.
Proof.
  split; [vm_compute; reflexivity|].
  apply (threshold_key_fires_at_most_once longTodo longTicks longMounted "pre-30m").
  vm_compute; reflexivity.
Defined.

(** The run of [longTicks] does fire keys: the bound of C1 is not met by
    silence. *)
Example longTicks_events :
  snd (runTicks longTodo longTicks longMounted)
  = [TierTransition; ThresholdFired "pre-5h"; ThresholdFired "pre-30m";
     ThresholdFired "deadline-hit"; ThresholdFired "post-1h";
     ThresholdFired "post-6h"].
Proof. vm_compute. reflexivity. Qed.

Lemma completed_task_tick_is_silent_witness :
  isCompleted doneTodo = true
  ∧ snd (runTicks doneTodo longTicks longMounted) = [].
Proof.
  split; [reflexivity|].
  apply (completed_task_tick_is_silent doneTodo 0 0 longMounted). reflexivity.
Defined.

(** C4 as stated fails: [lateTodo] is mounted 33 min 20 s before its
    deadline, and the next tick comes at the deadline to the millisecond.
    That tick reports two events. *)
Lemma deadline_instant_tick_reports_two_events :
  snd (calc lateTodo due (fst (calc lateTodo (due - 2000000) lateMounted)))
  = [ThresholdFired "pre-30m"; ThresholdFired "deadline-hit"]
  ∧ ¬ (length (snd (calc lateTodo due
                      (fst (calc lateTodo (due - 2000000) lateMounted)))) ≤ 1)%nat.
Proof.
  assert (E : snd (calc lateTodo due (fst (calc lateTodo (due - 2000000) lateMounted)))
              = [ThresholdFired "pre-30m"; ThresholdFired "deadline-hit"])
    by (vm_compute; reflexivity).
  split; [exact E|]. rewrite E. cbn. lia.
Qed.

End SchedulerRuns.

Section Classifier.

Lemma Qle_bool_false (x y : Q) : Qle_bool x y = false ↔ (y < x)%Q.
Proof.
  split.
  - intros E. apply Qnot_le_lt. intros H. apply Qle_bool_iff in H. congruence.
  - intros H. destruct (Qle_bool x y) eqn:E; [|done].
    apply Qle_bool_iff in E. exfalso. by apply (Qlt_not_le y x).
Qed.

Lemma Qltb_true (x y : Q) : Qltb x y = true ↔ (x < y)%Q.
Proof. unfold Qltb. rewrite negb_true_iff. apply Qle_bool_false. Qed.

Lemma Qltb_false (x y : Q) : Qltb x y = false ↔ (y <= x)%Q.
Proof. unfold Qltb. rewrite negb_false_iff. apply Qle_bool_iff. Qed.

(** The two classifiers of the running program agree, legacy alias apart. *)
Lemma classifiers_agree dl e now :
  toCanonicalPriority (App.calculatePriority dl e now)
  = toCanonicalPriority (Card.calculateLocalPriority dl e now).
Proof.
  unfold App.calculatePriority, Card.calculateLocalPriority,
    App.CRITICAL_THRESHOLD_HOURS, App.WARNING_THRESHOLD_HOURS.
  destruct dl as [d|]; [|done]. cbn zeta.
  by repeat destruct (Qle_bool _ _).
Qed.

(** The estimate is not read. *)
Lemma calculateLocalPriority_estimate_irrelevant dl e e' now :
  Card.calculateLocalPriority dl e now = Card.calculateLocalPriority dl e' now.
Proof. done. Qed.

(** C2, as the code has it.  With the deadline ahead, the classifiers of
    the running program ([calculatePriority] of App.tsx and
    [calculateLocalPriority] of TodoItemCard.tsx) do not read the estimate:
    whatever the estimate is, present or not, they give the same tier, and
    the tier is CRITICAL up to six hours of remaining time, WARNING above
    six and up to twenty-four, SAFE above. *)
Theorem classifier_thresholds_ignore_estimate d (e : option Q) now :
  (0 < remainingHours d now)%Q →
  let rh := remainingHours d now in
  let tier := toCanonicalPriority (Card.calculateLocalPriority (Some d) e now) in
  toCanonicalPriority (App.calculatePriority (Some d) e now) = tier
  ∧ (∀ e', toCanonicalPriority (Card.calculateLocalPriority (Some d) e' now) = tier
           ∧ toCanonicalPriority (App.calculatePriority (Some d) e' now) = tier)
  ∧ ((rh <= inject_Z 6)%Q → tier = CRITICAL)
  ∧ ((inject_Z 6 < rh)%Q → (rh <= inject_Z 24)%Q → tier = WARNING)
  ∧ ((inject_Z 24 < rh)%Q → tier = SAFE).
Proof.
  intros Hpos. cbn zeta.
  split; [apply classifiers_agree|].
  split; [intros e'; split; [done|by rewrite classifiers_agree]|].
  unfold Card.calculateLocalPriority. cbn zeta.
  set (rh := remainingHours d now) in *.
  pose proof Hpos as Hpos'. apply Qle_bool_false in Hpos'. rewrite Hpos'.
  split_and!.
  - intros H. apply Qle_bool_iff in H. by rewrite H.
  - intros H1 H2. apply Qle_bool_false in H1. apply Qle_bool_iff in H2.
    by rewrite H1, H2.
  - intros H. assert (H6 : (inject_Z 6 < rh)%Q).
    { apply Qlt_trans with (inject_Z 24); [done|done]. }
    apply Qle_bool_false in H6. apply Qle_bool_false in H. by rewrite H6, H.
Qed.

Lemma classifier_thresholds_ignore_estimate_witness :
  (0 < remainingHours (3 * HOUR_MS) 0)%Q
  ∧ toCanonicalPriority
      (Card.calculateLocalPriority (Some (3 * HOUR_MS)) (Some 1%Q) 0) = CRITICAL.
Proof.
  split; [reflexivity|].
  apply (classifier_thresholds_ignore_estimate (3 * HOUR_MS) (Some 1%Q) 0);
    [reflexivity|]. vm_compute. discriminate.
Defined.

(** C2 as stated fails on the running program: three hours before the
    deadline with an estimate of one hour the remaining time is at least
    twice the estimate, and both classifiers answer CRITICAL, not SAFE. *)
Lemma estimate_of_one_hour_three_hours_left :
  (0 < remainingHours (3 * HOUR_MS) 0)%Q
  ∧ (1 * inject_Z 2 <= remainingHours (3 * HOUR_MS) 0)%Q
  ∧ toCanonicalPriority
      (Card.calculateLocalPriority (Some (3 * HOUR_MS)) (Some 1%Q) 0) = CRITICAL
  ∧ toCanonicalPriority
      (App.calculatePriority (Some (3 * HOUR_MS)) (Some 1%Q) 0) = CRITICAL
  ∧ toCanonicalPriority
      (Card.calculateLocalPriority (Some (3 * HOUR_MS)) (Some 1%Q) 0) ≠ SAFE.
Proof.
  split_and!; try reflexivity.
  - vm_compute. discriminate.
  - vm_compute. discriminate.
Qed.

End Classifier.

Section Dispatcher.
Import Card Scenario.

Lemma withinWindow_true (created : option Z) (now : Z) :
  withinWindow created now = true
  ↔ ∃ t, created = Some t ∧ t ≠ 0 ∧ now - t < INITIAL_EVENT_SKIP_WINDOW_MS.
Proof.
  unfold withinWindow. destruct created as [t|].
  - rewrite andb_true_iff, negb_true_iff, Z.eqb_neq, Z.ltb_lt. split.
    + intros [? ?]. by exists t.
    + by intros (? & [= <-] & ? & ?).
  - split; [done|]. by intros (? & ? & _).
Qed.

(** The classifier of the card answers with the tiers themselves. *)
Lemma calculateLocalPriority_rank dl e now :
  calculateLocalPriority dl e now
  = toLegacyPriority (toCanonicalPriority (calculateLocalPriority dl e now)).
Proof.
  unfold calculateLocalPriority. destruct dl as [d|]; [|done]. cbn zeta.
  by repeat destruct (Qle_bool _ _).
Qed.

(** C3, as the code has it.  The first alert event of a task instance
    that reaches the dispatcher -- the message of the current refresh key
    is loaded, the style did not change, nothing was consumed yet -- is
    consumed in any case, and it is suppressed if and only if the task was
    created less than 60 s before now and its tier when the card was set
    up was not SAFE.  The tier at the moment of the dispatch plays no
    part.  Otherwise the event is dispatched: a notification when
    notifications are on, a line for the speech queue when speech is on. *)
Theorem first_alert_suppressed_iff_new_and_initially_unsafe
    todo (now t0 : Z) sel (msg : string) (notificationsEnabled speechEnabled : bool)
    (c : SchedulerState * DispatcherState) :
  shouldShowNag (fst c) = true →
  isCompleted todo = false →
  msg ≠ "" →
  prevStyleRef (snd c) = sel →
  pendingSpeechKeyRef (fst c) = Some (nagRefreshKey (fst c)) →
  lastLoadedKeyRef (snd c) = Some (nagRefreshKey (fst c)) →
  lastSpeechKeyRef (snd c) ≠ Z.of_nat (nagRefreshKey (fst c)) →
  hasSkippedInitialEventRef (snd c) = false →
  initialPriorityRef (snd c)
  = calculateLocalPriority (deadline todo) (estimatedTime todo) t0 →
  let r := dispatchEffect todo now sel (Some msg)
             notificationsEnabled speechEnabled c in
  (snd r = SkippedInitial
   ↔ (∃ t, createdAt todo = Some t ∧ t ≠ 0
           ∧ now - t < INITIAL_EVENT_SKIP_WINDOW_MS)
     ∧ toCanonicalPriority (initialPriorityRef (snd c)) ≠ SAFE)
  ∧ (snd r ≠ SkippedInitial →
     snd r = Dispatched
               ((if notificationsEnabled then [Notify msg] else [])
                ++ (if speechEnabled then [OnSpeak msg sel] else [])))
  ∧ hasSkippedInitialEventRef (snd (fst r)) = true
  ∧ pendingSpeechKeyRef (fst (fst r)) = None
  ∧ lastSpeechKeyRef (snd (fst r)) = Z.of_nat (nagRefreshKey (fst c)).
Proof.
  intros Hshow Hdone Hmsg Hstyle Hpend Hload Hspeech Hskip Hinit.
  assert (Hsafe : initialPriorityRef (snd c) ≠ toLegacyPriority SAFE
                  ↔ toCanonicalPriority (initialPriorityRef (snd c)) ≠ SAFE).
  { rewrite Hinit, (calculateLocalPriority_rank _ _ t0).
    by destruct (toCanonicalPriority _). }
  destruct c as [ss [hs ip ps ls ll]]. cbn in *. subst ps hs ll.
  unfold dispatchEffect, shouldSkipInitial. cbn.
  rewrite Hshow, Hdone, (bool_decide_eq_false_2 _ Hmsg). cbn.
  rewrite (bool_decide_eq_false_2 (sel ≠ sel)) by (intros H; by apply H).
  rewrite Hpend, !bool_decide_eq_true_2 by done. cbn.
  rewrite andb_true_r.
  destruct (withinWindow (createdAt todo) now) eqn:Hw; cbn;
    [case_bool_decide as Hip; cbn|];
    (split_and!; [|try done; intros H; by destruct H|done..]).
  - apply withinWindow_true in Hw. split; [|done].
    intros _. split; [done|]. by apply Hsafe.
  - split; [done|]. intros [_ Hn]. apply Hsafe in Hn. by destruct Hn.
  - split; [done|]. intros [Hex _]. apply withinWindow_true in Hex. congruence.
Qed.

Lemma first_alert_suppressed_iff_new_and_initially_unsafe_witness :
  shouldShowNag (fst freshAfterTick) = true
  ∧ hasSkippedInitialEventRef
      (snd (fst (dispatchEffect freshTodo (freshCreated + 10500) App.Harsh
                   (Some "hurry") true true freshAfterTick))) = true.
Proof.
  split; [vm_compute; reflexivity|].
  apply (first_alert_suppressed_iff_new_and_initially_unsafe
           freshTodo (freshCreated + 10500) freshCreated App.Harsh "hurry"
           true true freshAfterTick);
    vm_compute; (reflexivity || discriminate).
Defined.

(** C3 as stated fails: [freshTodo] was created ten seconds ago in
    WARNING, the tick has seen its tier become CRITICAL and reported the
    transition, and the dispatcher swallows that first alert although the
    tier is no longer the one at creation.  The draft of
    tmp_TodoItemCard.tsx, which compares the two tiers, would not skip. *)
Lemma first_alert_after_tier_change_is_suppressed :
  toCanonicalPriority (initialPriorityRef (snd freshAfterTick)) = WARNING
  ∧ toCanonicalPriority
      (calculateLocalPriority (deadline freshTodo) (estimatedTime freshTodo)
         (freshCreated + 10500))
    = CRITICAL
  ∧ withinWindow (createdAt freshTodo) (freshCreated + 10500) = true
  ∧ snd (dispatchEffect freshTodo (freshCreated + 10500) App.Harsh
           (Some "hurry") true true freshAfterTick) = SkippedInitial
  ∧ ¬ (snd (dispatchEffect freshTodo (freshCreated + 10500) App.Harsh
              (Some "hurry") true true freshAfterTick) = SkippedInitial
       → toCanonicalPriority
           (calculateLocalPriority (deadline freshTodo) (estimatedTime freshTodo)
              (freshCreated + 10500))
         = toCanonicalPriority (initialPriorityRef (snd freshAfterTick)))
  ∧ Draft.shouldSkipInitial (createdAt freshTodo) (freshCreated + 10500)
      RankWarning RankCritical
    = false.
Proof.
  split_and!; try (vm_compute; reflexivity).
  intros H. assert (E : CRITICAL = WARNING); [|discriminate E].
  apply H. vm_compute. reflexivity.
Qed.

End Dispatcher.

Section Boundary.
Import App.

Context {Timestamp : Type}.
Variable numberOfTrimmed : string → JsNumber.
Variable dateOfString : string → JsDate.
Variable toDate : Timestamp → JsDate.

(** What the normalisers do turn into "absent": a number that is NaN or
    infinite, a string that does not read as a finite number, any value
    that is neither; an invalid [Date], an empty or unparseable string. *)
Lemma boundary_rejects_malformed :
  normalizeEstimatedTime numberOfTrimmed (VNumber NaN) = None
  ∧ (∀ neg, normalizeEstimatedTime numberOfTrimmed (VNumber (Infinity neg)) = None)
  ∧ (∀ s, isFinite (numberOfTrimmed s) = false →
          normalizeEstimatedTime numberOfTrimmed (VString s) = None)
  ∧ normalizeEstimatedTime numberOfTrimmed VOther = None
  ∧ toDateSafe dateOfString toDate (DDate InvalidDate) = None
  ∧ toDateSafe dateOfString toDate DNull = None
  ∧ (∀ s, dateOfString s = InvalidDate →
          toDateSafe dateOfString toDate (DString s) = None)
  ∧ (∀ v, isFinite v = true →
          normalizeEstimatedTime numberOfTrimmed (VNumber v) = Some v).
Proof.
  split_and!; try done.
  - intros s H. cbn. by rewrite H.
  - intros s H. destruct s; cbn; [done|]. by rewrite H.
  - intros v H. cbn. by rewrite H.
Qed.

(** C9 at a negative estimate: the number -5 passes the boundary as it
    is. *)
Theorem negative_estimate_passes_the_boundary :
  normalizeEstimatedTime numberOfTrimmed (VNumber (Finite (-5)))
  = Some (Finite (-5)).
Proof. reflexivity. Qed.

End Boundary.

Section SpeechQueue.
Import App.

Implicit Types (st : SpeechState) (f g : Flight) (job j : SpeechQueueItem).

(** Stuck invocations stay stuck while no element they wait for sounds
    again. *)
Lemma stuck_preserved st st' (l : list Flight) :
  (∀ a, a ∈ sounding st' → a ∈ sounding st ∨ (length (played st) ≤ a)%nat) →
  (length (played st) ≤ length (played st'))%nat →
  Forall (stuckFlight st) l → Forall (stuckFlight st') l.
Proof.
  intros Hso Hpl H. eapply Forall_impl; [exact H|].
  intros [j|j a]; cbn; [done|].
  intros [Hns Hlt]. split; [|lia].
  intros Hin. destruct (Hso a Hin) as [?|?]; [done|lia].
Qed.

Lemma serial_with st stuck : SerialWith stuck st → Serial st.
Proof. intros H. by exists stuck. Qed.

Lemma startAudio_serial stuck job st :
  Quiet st → flights st = stuck → isSpeakingRef st = true →
  SerialWith stuck (startAudio job st).
Proof.
  intros [Hstuck Hso] Hfl Hsp.
  destruct st as [e q s a c fl so n p se]; cbn in *. subst.
  exists [Playing job (length p)]. cbn. split_and!; try done.
  - eapply stuck_preserved; [| |exact Hstuck]; cbn.
    + intros b Hb. apply list_elem_of_singleton in Hb. right. lia.
    + rewrite length_app. lia.
  - rewrite length_app. cbn. lia.
Qed.

Lemma beginAttempt_serial stuck job st :
  Quiet st → flights st = stuck → isSpeakingRef st = true →
  SerialWith stuck (beginAttempt job st).
Proof.
  intros HQ Hfl Hsp. unfold beginAttempt.
  assert (HF : SerialWith stuck (setFlights (flights st ++ [Fetching job]) st)).
  { destruct HQ as [Hstuck Hso].
    destruct st as [e q s a c fl so n p se]; cbn in *. subst.
    exists [Fetching job]. by split_and!. }
  destruct (speechCacheRef st !! cacheKey job) as [url|]; [|done].
  case_bool_decide; [done|]. by apply startAudio_serial.
Qed.

Lemma finally_serial stuck st :
  Quiet st → flights st = stuck → SerialWith stuck (finally_ st).
Proof.
  intros [Hstuck Hso] Hfl.
  destruct st as [e q s a c fl so n p se]; cbn in *. subst.
  unfold finally_; cbn. destruct q as [|job rest]; cbn.
  - exists []. rewrite app_nil_r. by split_and!.
  - apply beginAttempt_serial; [|done|done]. by split.
Qed.

Lemma flush_serial stuck st :
  SerialWith stuck st → SerialWith stuck (flushSpeechQueue true st).
Proof.
  intros HS. unfold flushSpeechQueue. cbn [negb orb].
  destruct (isSpeakingRef st) eqn:Hsp; [done|].
  destruct (speechQueueRef st) as [|job rest] eqn:Hq; [done|].
  destruct HS as (alive & Hfl & Hstuck & Hal).
  destruct alive as [|[j|j a] [|]]; try done;
    destruct_and!; congruence.
Qed.

Lemma handleSpeak_plain_serial stuck sel msg sty st :
  SerialWith stuck st → SerialWith stuck (fst (handleSpeak sel msg sty false st)).
Proof.
  intros HS. unfold handleSpeak.
  destruct (negb (speechEnabled st) || bool_decide (msg = "")) eqn:Hg; [done|].
  apply orb_false_iff in Hg as [Hen _]. apply negb_false_iff in Hen.
  rewrite Hen. cbn [fst].
  set (job := {| jobId := nextJob st; message := msg;
                 style := default sel sty |}).
  destruct HS as (alive & Hfl & Hstuck & Hal).
  destruct st as [e q s a c fl so n p se]; cbn in *. subst.
  unfold flushSpeechQueue; cbn.
  destruct alive as [|f [|]]; [| |by destruct f].
  - destruct Hal as (-> & -> & ->). cbn.
    apply beginAttempt_serial; [|cbn; apply app_nil_r|done]. split; cbn; [|done].
    by rewrite app_nil_r.
  - assert (s = true) as -> by (destruct f; by destruct Hal).
    cbn. exists [f]. split_and!; try done.
Qed.

Lemma fetchingOf_Some st (id : nat) f :
  fetchingOf id st = Some f →
  f ∈ flights st ∧ ∃ j, f = Fetching j ∧ jobId j = id.
Proof.
  unfold fetchingOf. intros H. apply find_some in H as [Hin Ht].
  split; [by apply list_elem_of_In|].
  destruct f as [j|j a]; [|done]. exists j. split; [done|].
  by apply bool_decide_eq_true in Ht.
Qed.

Lemma waitingOn_Some st audio f :
  waitingOn audio st = Some f →
  f ∈ flights st ∧ ∃ j, f = Playing j audio.
Proof.
  unfold waitingOn. intros H. apply find_some in H as [Hin Ht].
  split; [by apply list_elem_of_In|].
  destruct f as [j|j a]; [done|]. exists j.
  apply bool_decide_eq_true in Ht. by subst.
Qed.

Lemma playingOf_Some st audio f :
  playingOf audio st = Some f →
  audio ∈ sounding st ∧ f ∈ flights st ∧ ∃ j, f = Playing j audio.
Proof.
  unfold playingOf. case_bool_decide as Hso; [|done].
  intros H. split; [done|]. by apply waitingOn_Some.
Qed.


Lemma filter_drop_last st (stuck : list Flight) f :
  Forall (stuckFlight st) stuck → ¬ stuckFlight st f →
  filter (λ g, g ≠ f) (stuck ++ [f]) = stuck.
Proof.
  intros Hstuck Hf. rewrite filter_app.
  rewrite (filter_cons_False _ f []) by (intros H; by apply H).
  rewrite filter_nil, app_nil_r.
  induction Hstuck as [|g l Hg Hl IH]; [done|].
  rewrite filter_cons_True by (intros ->; done). by rewrite IH.
Qed.

(** In a serial queue an invocation that waits for the endpoint is the
    only one under way. *)
Lemma serial_fetching stuck st j :
  SerialWith stuck st → Fetching j ∈ flights st →
  flights st = stuck ++ [Fetching j]
  ∧ Forall (stuckFlight st) stuck
  ∧ isSpeakingRef st = true ∧ sounding st = [].
Proof.
  intros (alive & Hfl & Hstuck & Hal) Hin.
  rewrite Hfl in Hin. apply elem_of_app in Hin as [Hin|Hin].
  - rewrite Forall_forall in Hstuck. by destruct (Hstuck _ Hin).
  - destruct alive as [|f [|]]; [by apply elem_of_nil in Hin| |by destruct f].
    apply list_elem_of_singleton in Hin. subst f.
    by destruct Hal.
Qed.

(** ... and so is the invocation that waits for a sounding element. *)
Lemma serial_playing stuck st j a :
  SerialWith stuck st → Playing j a ∈ flights st → a ∈ sounding st →
  flights st = stuck ++ [Playing j a]
  ∧ Forall (stuckFlight st) stuck
  ∧ isSpeakingRef st = true ∧ sounding st = [a]
  ∧ (a < length (played st))%nat.
Proof.
  intros (alive & Hfl & Hstuck & Hal) Hin Hso.
  rewrite Hfl in Hin. apply elem_of_app in Hin as [Hin|Hin].
  - rewrite Forall_forall in Hstuck. by destruct (Hstuck _ Hin).
  - destruct alive as [|f [|]]; [by apply elem_of_nil in Hin| |by destruct f].
    apply list_elem_of_singleton in Hin. subst f.
    by destruct Hal as (? & ? & ?).
Qed.

(** A failure is reported to the invocation that waits for the element.
    Unless the element is one of the paused ones, it is the element that
    sounds. *)
Lemma waitingOn_sounding stuck st a :
  SerialWith stuck st → (∀ j, Playing j a ∉ stuck) →
  waitingOn a st = playingOf a st.
Proof.
  intros HS Hfree. unfold playingOf. case_bool_decide as Hso; [done|].
  destruct (waitingOn a st) as [f|] eqn:Hf; [|done]. exfalso.
  apply waitingOn_Some in Hf as (Hin & j & ->).
  destruct HS as (alive & Hfl & Hstuck & Hal).
  rewrite Hfl in Hin. apply elem_of_app in Hin as [Hin|Hin].
  - by apply (Hfree j).
  - destruct alive as [|f [|]]; [by apply elem_of_nil in Hin| |by destruct f].
    apply list_elem_of_singleton in Hin. subst f.
    destruct Hal as (_ & Hso' & _). apply Hso. rewrite Hso'. left.
Qed.

(** The playback of the invocation under way comes to an end, one way or
    the other: the queue then is quiet. *)
Lemma filter_self (a : nat) : filter (λ b, b ≠ a) [a] = [].
Proof. by rewrite filter_cons_False by (intros H; by apply H). Qed.

Lemma settle_playing_quiet stuck st j a how (ref : option nat) :
  SerialWith stuck st → Playing j a ∈ flights st → a ∈ sounding st →
  let st' := settle (Playing j a) how (setAudioRef ref (silence a st)) in
  Quiet st' ∧ flights st' = stuck.
Proof.
  intros HS Hin Hso.
  destruct (serial_playing stuck st j a HS Hin Hso)
    as (Hfl & Hstuck & Hsp & Hso' & _).
  destruct st as [e q s au c fl so n p se]; cbn -[filter] in *. subst.
  unfold settle, silence; cbn -[filter].
  rewrite filter_self.
  rewrite (filter_drop_last _ stuck (Playing j a) Hstuck)
    by (cbn; intros [Hn _]; apply Hn; left).
  split; [|done]. split; cbn; [|done].
  eapply stuck_preserved; [| |exact Hstuck]; cbn; [|done].
  intros b Hb. by apply elem_of_nil in Hb.
Qed.

Lemma settle_fetching_quiet stuck st j how :
  SerialWith stuck st → Fetching j ∈ flights st →
  Quiet (settle (Fetching j) how st)
  ∧ flights (settle (Fetching j) how st) = stuck.
Proof.
  intros HS Hin.
  destruct (serial_fetching stuck st j HS Hin) as (Hfl & Hstuck & Hsp & Hso').
  destruct st as [e q s au c fl so n p se]; cbn -[filter] in *. subst.
  unfold settle; cbn -[filter].
  rewrite (filter_drop_last _ stuck (Fetching j) Hstuck) by (cbn; tauto).
  split; [|done]. split; [|done].
  eapply stuck_preserved; [| |exact Hstuck]; cbn; [by left|lia].
Qed.

(** A turn of the event loop without interruption keeps the queue serial,
    with the same invocations stuck, unless it reports the failure of a
    paused element. *)
Lemma step_plain_serial stuck st ev :
  plain ev = true →
  (∀ j a, Playing j a ∈ stuck → failureOf ev ≠ Some a) →
  SerialWith stuck st → SerialWith stuck (step st ev).
Proof.
  intros Hplain Hev HS.
  assert (Hw : ∀ a, failureOf ev = Some a → waitingOn a st = playingOf a st).
  { intros a Ha. apply (waitingOn_sounding stuck); [done|].
    intros j Hj. by apply (Hev j a). }
  destruct ev as [sel msg sty intr|job r|a|a|a|b]; cbn in *.
  - apply negb_true_iff in Hplain. subst. by apply handleSpeak_plain_serial.
  - destruct (fetchingOf job st) as [f|] eqn:Hf; [|done].
    apply fetchingOf_Some in Hf as (Hin & j & -> & Hj).
    destruct r as [|format audioBase64].
    + destruct (settle_fetching_quiet stuck st j Rejected HS Hin) as [HQ Hfl].
      by apply finally_serial.
    + cbn [flightJob].
      destruct (serial_fetching stuck st j HS Hin) as (Hfl & Hstuck & Hsp & Hso).
      apply startAudio_serial.
      * destruct st as [e q s au c fl so n p se]; cbn -[filter] in *. subst.
        rewrite (filter_drop_last _ stuck (Fetching j) Hstuck) by (cbn; tauto).
        split; [|done].
        eapply stuck_preserved; [| |exact Hstuck]; cbn; [by left|lia].
      * destruct st as [e q s au c fl so n p se]; cbn -[filter] in *. subst.
        by rewrite (filter_drop_last _ stuck (Fetching j) Hstuck) by (cbn; tauto).
      * by destruct st.
  - destruct (playingOf a st) as [f|] eqn:Hf; [|done].
    apply playingOf_Some in Hf as (Hso & Hin & j & ->).
    destruct (settle_playing_quiet stuck st j a Resolved None HS Hin Hso)
      as [HQ Hfl].
    by apply finally_serial.
  - rewrite (Hw a eq_refl).
    destruct (playingOf a st) as [f|] eqn:Hf; [|done].
    apply playingOf_Some in Hf as (Hso & Hin & j & ->).
    destruct (settle_playing_quiet stuck st j a Rejected None HS Hin Hso)
      as [HQ Hfl].
    by apply finally_serial.
  - rewrite (Hw a eq_refl).
    destruct (playingOf a st) as [f|] eqn:Hf; [|done].
    apply playingOf_Some in Hf as (Hso & Hin & j & ->).
    destruct (settle_playing_quiet stuck st j a Rejected (audioRef st) HS Hin Hso)
      as [HQ Hfl].
    apply finally_serial; by destruct st.
  - done.
Qed.

Lemma idle_serial enabled : SerialWith [] (idle enabled).
Proof. exists []. by split_and!. Qed.

Lemma run_plain_serial stuck evs : ∀ st,
  forallb plain evs = true →
  (∀ ev j a, ev ∈ evs → Playing j a ∈ stuck → failureOf ev ≠ Some a) →
  SerialWith stuck st → SerialWith stuck (run st evs).
Proof.
  induction evs as [|ev evs IH]; intros st Hp Hev HS; [done|].
  cbn in *. apply andb_true_iff in Hp as [Hp Hevs].
  apply IH; [done| |].
  - intros ev' j a Hin. apply Hev. by right.
  - apply step_plain_serial; [done| |done].
    intros j a. apply Hev. left.
Qed.

(** In a queue that nothing has interrupted no invocation is stuck. *)
Lemma tight_serial st : Tight st → SerialWith [] st.
Proof.
  intros ((stuck & alive & Hfl & Hstuck & Hal) & Hns & _ & _).
  assert (stuck = []) as ->; [|by exists alive].
  destruct stuck as [|[j|j a] l]; [done| |].
  - by apply Forall_cons in Hstuck as [[] _].
  - apply Forall_cons in Hstuck as [[Hn _] _]. exfalso. apply Hn.
    eapply proj1, (Hns j). rewrite Hfl. left.
Qed.

Lemma tight_flights st :
  Tight st →
  (flights st = [] ∧ isSpeakingRef st = false ∧ speechQueueRef st = []
   ∧ sounding st = [])
  ∨ (∃ j, flights st = [Fetching j] ∧ isSpeakingRef st = true
          ∧ sounding st = [])
  ∨ (∃ j a, flights st = [Playing j a] ∧ isSpeakingRef st = true
            ∧ sounding st = [a]).
Proof.
  intros HT. destruct (tight_serial st HT) as (alive & Hfl & _ & Hal).
  cbn in Hfl. rewrite Hfl.
  destruct alive as [|[j|j a] [|]]; try done.
  - by left.
  - right; left. exists j. by destruct Hal.
  - right; right. exists j, a. by destruct Hal as (? & ? & ?).
Qed.

(** ... so a failure can only be the one of the element that sounds. *)
Lemma tight_waitingOn st a : Tight st → waitingOn a st = playingOf a st.
Proof.
  intros HT. apply (waitingOn_sounding []); [by apply tight_serial|].
  intros j Hj. by apply elem_of_nil in Hj.
Qed.

Lemma filter_self_flight f : filter (λ g, g ≠ f) [f] = [].
Proof. by rewrite filter_cons_False by (intros H; by apply H). Qed.

Lemma seq_snoc (n : nat) : seq 0 (S n) = seq 0 n ++ [n].
Proof. by rewrite seq_S. Qed.

(** The three facts [Tight] adds to [Serial], after the attempt on the
    head of the queue has begun. *)
Lemma beginAttempt_order job st (order : list nat) :
  flights st = [] → sounding st = [] →
  map fst (settled st) ++ jobId job :: map jobId (speechQueueRef st) = order →
  played st `sublist_of` map fst (settled st) →
  let st' := beginAttempt job st in
  (∀ j a, Playing j a ∈ flights st' → a ∈ sounding st' ∧ audioRef st' = Some a)
  ∧ jobOrder st' = order
  ∧ played st' `sublist_of` begun st'
  ∧ nextJob st' = nextJob st.
Proof.
  intros Hfl Hso Hord Hsub.
  destruct st as [e q s au c fl so n p se]; cbn in *. subst fl so.
  set (P := λ st', (∀ j a, Playing j a ∈ flights st' →
                            a ∈ sounding st' ∧ audioRef st' = Some a)
                   ∧ jobOrder st' = order
                   ∧ played st' `sublist_of` begun st'
                   ∧ nextJob st' = n).
  change (P (beginAttempt job (mkSpeech e q s au c [] [] n p se))).
  assert (HF : P (mkSpeech e q s au c [Fetching job] [] n p se)).
  { unfold P, jobOrder, begun; cbn. split_and!; try done.
    - intros j a Hin. apply list_elem_of_singleton in Hin. discriminate.
    - by rewrite app_nil_r. }
  unfold beginAttempt; cbn -[P].
  destruct (c !! cacheKey job) as [url|]; [case_bool_decide|];
    cbn -[P]; [exact HF| |exact HF].
  unfold P, jobOrder, begun; cbn. split_and!; try done.
  - intros j a Hin. apply list_elem_of_singleton in Hin.
    injection Hin as -> ->. split; [left|done].
  - apply sublist_app; [done|reflexivity].
Qed.

Lemma finally_order st (order : list nat) :
  flights st = [] → sounding st = [] →
  map fst (settled st) ++ map jobId (speechQueueRef st) = order →
  played st `sublist_of` map fst (settled st) →
  let st' := finally_ st in
  (∀ j a, Playing j a ∈ flights st' → a ∈ sounding st' ∧ audioRef st' = Some a)
  ∧ jobOrder st' = order
  ∧ played st' `sublist_of` begun st'
  ∧ nextJob st' = nextJob st.
Proof.
  intros Hfl Hso Hord Hsub.
  destruct st as [e q s au c fl so n p se]; cbn in *. subst fl so.
  unfold finally_; cbn. destruct q as [|job rest]; cbn.
  - unfold jobOrder, begun; cbn. split_and!; try done.
    + intros j a Hin. by apply elem_of_nil in Hin.
    + by rewrite app_nil_r.
  - by apply (beginAttempt_order job
                (mkSpeech e rest true au c [] [] n p se) order).
Qed.

Lemma beginAttempt_ordered job st :
  flights st = [] → sounding st = [] →
  map fst (settled st) ++ jobId job :: map jobId (speechQueueRef st)
  = seq 0 (nextJob st) →
  played st `sublist_of` map fst (settled st) →
  Ordered (beginAttempt job st).
Proof.
  intros Hfl Hso Hord Hsub.
  destruct (beginAttempt_order job st _ Hfl Hso Hord Hsub) as (H1 & H2 & H3 & H4).
  split_and!; [done| |done]. by rewrite H2, H4.
Qed.

Lemma finally_ordered st :
  flights st = [] → sounding st = [] →
  map fst (settled st) ++ map jobId (speechQueueRef st) = seq 0 (nextJob st) →
  played st `sublist_of` map fst (settled st) →
  Ordered (finally_ st).
Proof.
  intros Hfl Hso Hord Hsub.
  destruct (finally_order st _ Hfl Hso Hord Hsub) as (H1 & H2 & H3 & H4).
  split_and!; [done| |done]. by rewrite H2, H4.
Qed.

(** The end of the playback under way, in a tight queue. *)
Lemma playback_end_ordered st j a how (ref : option nat) :
  flights st = [Playing j a] → sounding st = [a] → Ordered st →
  Ordered (finally_ (settle (Playing j a) how (setAudioRef ref (silence a st)))).
Proof.
  intros Hfl Hso (Hns & Hord & Hsub).
  destruct st as [e q s au c fl so n p se].
  unfold jobOrder, begun in *. cbn -[filter] in *. subst fl so.
  unfold settle, silence. cbn -[filter].
  rewrite filter_self, filter_self_flight.
  apply finally_ordered; cbn; try done.
  - by rewrite map_app, <- app_assoc.
  - by rewrite map_app.
Qed.

Lemma step_plain_ordered st ev :
  plain ev = true → Tight st → Ordered (step st ev).
Proof.
  intros Hplain HT. pose proof (tight_flights st HT) as Hshape.
  pose proof (λ a, tight_waitingOn st a HT) as Hw.
  destruct HT as (_ & HO). pose proof HO as (Hns & Hord & Hsub).
  destruct ev as [sel msg sty intr|id r|a|a|a|b]; cbn -[filter] in *;
    rewrite ?Hw.
  - apply negb_true_iff in Hplain. subst intr. unfold handleSpeak.
    destruct (negb (speechEnabled st) || bool_decide (msg = "")) eqn:Hg;
      [done|].
    apply orb_false_iff in Hg as [Hen _]. apply negb_false_iff in Hen.
    rewrite Hen. cbn [fst].
    destruct st as [e q s au c fl so n p se].
    unfold jobOrder, begun in *. cbn -[seq] in *.
    destruct Hshape as [(-> & -> & -> & ->)|[(j0 & -> & -> & ->)|(j0 & a0 & -> & -> & ->)]];
      unfold flushSpeechQueue; cbn -[seq].
    + apply beginAttempt_ordered; cbn -[seq]; try done.
      * rewrite seq_snoc. rewrite app_nil_r in Hord. by rewrite Hord.
      * by rewrite app_nil_r in Hsub.
    + unfold Ordered, jobOrder, begun; cbn -[seq]. split_and!; try done.
      rewrite seq_snoc, <- Hord, map_app. cbn.
      by rewrite <- !app_assoc.
    + unfold Ordered, jobOrder, begun; cbn -[seq]. split_and!; try done.
      rewrite seq_snoc, <- Hord, map_app. cbn.
      by rewrite <- !app_assoc.
  - destruct (fetchingOf id st) as [f|] eqn:Hf; [|done].
    apply fetchingOf_Some in Hf as (Hin & j & -> & Hj).
    destruct Hshape as [(Hfl & _)|[(j0 & Hfl & Hsp & Hso)|(j0 & a0 & Hfl & _)]];
      rewrite Hfl in Hin.
    + by apply elem_of_nil in Hin.
    + apply list_elem_of_singleton in Hin. injection Hin as ->.
      destruct st as [e q s au c fl so n p se].
      unfold jobOrder, begun in *. cbn -[filter] in *. subst fl so s.
      destruct r as [|format audioBase64]; cbn -[filter].
      * unfold settle. cbn -[filter]. rewrite filter_self_flight.
        apply finally_ordered; cbn; try done.
        -- by rewrite map_app, <- app_assoc.
        -- rewrite map_app. rewrite app_nil_r in Hsub.
           by apply sublist_inserts_r.
      * rewrite filter_self_flight.
        unfold Ordered, jobOrder, begun; cbn. split_and!; try done.
        -- intros j a Hin. apply list_elem_of_singleton in Hin.
           injection Hin as -> ->. split; [|done].
           apply list_elem_of_singleton. done.
        -- rewrite app_nil_r in Hsub. apply sublist_app; [done|reflexivity].
    + apply list_elem_of_singleton in Hin. discriminate.
  - destruct (playingOf a st) as [f|] eqn:Hf; [|done].
    apply playingOf_Some in Hf as (Hso & Hin & j & ->).
    destruct Hshape as [(Hfl & _)|[(j0 & Hfl & _)|(j0 & a0 & Hfl & Hsp & Hso')]];
      rewrite Hfl in Hin.
    + by apply elem_of_nil in Hin.
    + apply list_elem_of_singleton in Hin. discriminate.
    + apply list_elem_of_singleton in Hin. injection Hin as -> ->.
      by apply playback_end_ordered.
  - destruct (playingOf a st) as [f|] eqn:Hf; [|done].
    apply playingOf_Some in Hf as (Hso & Hin & j & ->).
    destruct Hshape as [(Hfl & _)|[(j0 & Hfl & _)|(j0 & a0 & Hfl & Hsp & Hso')]];
      rewrite Hfl in Hin.
    + by apply elem_of_nil in Hin.
    + apply list_elem_of_singleton in Hin. discriminate.
    + apply list_elem_of_singleton in Hin. injection Hin as -> ->.
      by apply playback_end_ordered.
  - destruct (playingOf a st) as [f|] eqn:Hf; [|done].
    apply playingOf_Some in Hf as (Hso & Hin & j & ->).
    destruct Hshape as [(Hfl & _)|[(j0 & Hfl & _)|(j0 & a0 & Hfl & Hsp & Hso')]];
      rewrite Hfl in Hin.
    + by apply elem_of_nil in Hin.
    + apply list_elem_of_singleton in Hin. discriminate.
    + apply list_elem_of_singleton in Hin. injection Hin as -> ->.
      pose proof (playback_end_ordered st j0 a0 Rejected (audioRef st) Hfl Hso' HO) as H.
      by destruct st.
  - done.
Qed.

Lemma step_plain_tight st ev : plain ev = true → Tight st → Tight (step st ev).
Proof.
  intros Hp HT. split; [|by apply step_plain_ordered].
  apply (serial_with _ []). apply step_plain_serial; [done| |by apply tight_serial].
  intros j a Hj. by apply elem_of_nil in Hj.
Qed.

Lemma idle_tight enabled : Tight (idle enabled).
Proof.
  split; [apply (serial_with _ []), idle_serial|].
  unfold Ordered, jobOrder, begun; cbn.
  split_and!; [|done|done]. intros j a Hin. by apply elem_of_nil in Hin.
Qed.

Lemma run_plain_tight evs : ∀ st,
  forallb plain evs = true → Tight st → Tight (run st evs).
Proof.
  induction evs as [|ev evs IH]; intros st Hp HT; [done|].
  cbn in *. apply andb_true_iff in Hp as [Hev Hevs].
  apply IH; [done|]. by apply step_plain_tight.
Qed.

Lemma seq_prefix (l1 l2 : list nat) (x n : nat) :
  l1 ++ x :: l2 = seq 0 n → l1 = seq 0 x.
Proof.
  intros H.
  assert (Hx : seq 0 n !! length l1 = Some x)
    by (rewrite <- H; by apply list_lookup_middle).
  apply lookup_seq in Hx as [Hx Hlt]. cbn in Hx. subst x.
  assert (Ht : l1 = take (length l1) (seq 0 n))
    by (rewrite <- H; symmetry; apply take_app_length).
  rewrite take_seq in Ht. etrans; [exact Ht|]. f_equal. lia.
Qed.

Lemma begun_sublist_jobOrder st : begun st `sublist_of` jobOrder st.
Proof.
  unfold begun, jobOrder. apply sublist_app; [reflexivity|].
  apply sublist_inserts_r.
  induction (flights st) as [|[j|j a] l IH]; cbn; [done| |].
  - by apply sublist_cons.
  - by apply sublist_skip.
Qed.

(** *** Serving the queue *)

Lemma run_two st (e1 e2 : Event) (evs : list Event) :
  run st (e1 :: e2 :: evs) = run (run st [e1; e2]) evs.
Proof. done. Qed.

(** A call of [handleSpeak] on an idle queue takes the new job at once. *)
Lemma speak_idle sel msg sty au c n p se :
  msg ≠ "" →
  step (mkSpeech true [] false au c [] [] n p se) (Speak sel msg sty false)
  = beginAttempt {| jobId := n; message := msg; style := default sel sty |}
      (mkSpeech true [] true au c [] [] (S n) p se).
Proof.
  intros Hmsg. cbn [step]. unfold handleSpeak.
  cbn [speechEnabled negb orb]. rewrite (bool_decide_eq_false_2 _ Hmsg).
  done.
Qed.

(** A call while a job is under way only enqueues. *)
Lemma speak_busy sel msg sty job0 st :
  msg ≠ "" → speechEnabled st = true → isSpeakingRef st = true →
  step (beginAttempt job0 st) (Speak sel msg sty false)
  = beginAttempt job0
      (setNextJob (S (nextJob st))
         (setQueue (speechQueueRef st
                    ++ [{| jobId := nextJob st; message := msg;
                           style := default sel sty |}]) st)).
Proof.
  intros Hmsg Hen Hsp. cbn [step]. unfold handleSpeak.
  destruct st as [e q s au c fl so n p se]; cbn in Hen, Hsp. subst e s.
  unfold beginAttempt.
  cbn [speechCacheRef setNextJob setQueue speechQueueRef nextJob].
  destruct (c !! cacheKey job0) as [url|]; [case_bool_decide|];
    cbn -[bool_decide]; rewrite (bool_decide_eq_false_2 _ Hmsg); done.
Qed.

(** The job under way is served: when the endpoint has answered with a
    clip and the clip has ended, the promise of the job is resolved and
    the head of the queue is taken. *)
Lemma job_served job rest st (i a : nat) format audioBase64 :
  flights st = [] → sounding st = [] →
  i = jobId job → a = length (played st) →
  ∃ st', flights st' = [] ∧ sounding st' = []
         ∧ played st' = played st ++ [jobId job]
         ∧ settled st' = settled st ++ [(jobId job, Resolved)]
         ∧ nextJob st' = nextJob st
         ∧ speechEnabled st' = speechEnabled st
         ∧ speechQueueRef st' = [] ∧ isSpeakingRef st' = false
         ∧ run (beginAttempt job (setSpeaking true (setQueue rest st)))
             [FetchDone i (FetchOk format audioBase64); AudioEnded a]
           = match rest with
             | [] => st'
             | next :: rest' =>
                 beginAttempt next (setSpeaking true (setQueue rest' st'))
             end.
Proof.
  intros Hfl Hso -> ->.
  destruct st as [e q s au c fl so n p se]; cbn in Hfl, Hso. subst fl so.
  cbn [played setQueue setSpeaking].
  assert (Hend : ∀ c',
    step (mkSpeech e rest true (Some (length p)) c' [Playing job (length p)]
            [length p] n (p ++ [jobId job]) se) (AudioEnded (length p))
    = finally_ (mkSpeech e rest true None c' [] [] n (p ++ [jobId job])
                  (se ++ [(jobId job, Resolved)]))).
  { intros c'. cbn [step]. unfold playingOf, waitingOn.
    cbn [sounding flights List.find].
    rewrite (bool_decide_eq_true_2 (length p ∈ [length p])) by left.
    rewrite (bool_decide_eq_true_2 (length p = length p)) by done.
    unfold settle, silence. cbn -[filter finally_].
    by rewrite filter_self, filter_self_flight. }
  assert (Hfin : ∀ c',
    finally_ (mkSpeech e rest true None c' [] [] n (p ++ [jobId job])
                (se ++ [(jobId job, Resolved)]))
    = match rest with
      | [] => mkSpeech e [] false None c' [] [] n (p ++ [jobId job])
                (se ++ [(jobId job, Resolved)])
      | next :: rest' =>
          beginAttempt next
            (setSpeaking true
               (setQueue rest'
                  (mkSpeech e [] false None c' [] [] n (p ++ [jobId job])
                     (se ++ [(jobId job, Resolved)]))))
      end).
  { intros c'. unfold finally_. by destruct rest. }
  assert (Hfetch : ∀ format audioBase64,
    run (mkSpeech e rest true au c [Fetching job] [] n p se)
      [FetchDone (jobId job) (FetchOk format audioBase64);
       AudioEnded (length p)]
    = finally_ (mkSpeech e rest true None
                  (<[cacheKey job := "data:audio/" +:+ default "mp3" format
                                     +:+ ";base64," +:+ audioBase64]> c)
                  [] [] n (p ++ [jobId job]) (se ++ [(jobId job, Resolved)]))).
  { intros fmt b. unfold run. cbn [foldl]. rewrite <- Hend. f_equal.
    cbn [step]. unfold fetchingOf. cbn [flights List.find].
    rewrite (bool_decide_eq_true_2 (jobId job = jobId job)) by done.
    cbn -[filter]. by rewrite filter_self_flight. }
  unfold beginAttempt. cbn [speechCacheRef].
  destruct (c !! cacheKey job) as [url|]; [case_bool_decide|].
  - eexists (mkSpeech e [] false None _ [] [] n (p ++ [jobId job])
               (se ++ [(jobId job, Resolved)])).
    split_and!; try done. cbn [setFlights flights app].
    by rewrite Hfetch, Hfin.
  - eexists (mkSpeech e [] false None c [] [] n (p ++ [jobId job])
               (se ++ [(jobId job, Resolved)])).
    split_and!; try done. unfold run. cbn [foldl].
    rewrite <- Hfin, <- Hend. f_equal.
  - eexists (mkSpeech e [] false None _ [] [] n (p ++ [jobId job])
               (se ++ [(jobId job, Resolved)])).
    split_and!; try done. cbn [setFlights flights app].
    by rewrite Hfetch, Hfin.
Qed.

Lemma beginAttempt_enabled job st :
  speechEnabled (beginAttempt job st) = speechEnabled st.
Proof.
  unfold beginAttempt.
  destruct (speechCacheRef st !! cacheKey job) as [url|];
    [case_bool_decide|]; by destruct st.
Qed.

Lemma flush_enabled b st :
  speechEnabled (flushSpeechQueue b st) = speechEnabled st.
Proof.
  unfold flushSpeechQueue. destruct (negb b || isSpeakingRef st); [done|].
  destruct (speechQueueRef st); [done|].
  rewrite beginAttempt_enabled. by destruct st.
Qed.

Lemma finally_enabled st : speechEnabled (finally_ st) = speechEnabled st.
Proof.
  unfold finally_. destruct (speechQueueRef (setSpeaking false st)).
  - by destruct st.
  - rewrite flush_enabled. by destruct st.
Qed.

Lemma step_plain_enabled st ev :
  plain ev = true → speechEnabled (step st ev) = speechEnabled st.
Proof.
  intros Hp. destruct ev as [sel msg sty intr|id r|a|a|a|b]; cbn -[filter] in *.
  - unfold handleSpeak.
    destruct (negb (speechEnabled st) || bool_decide (msg = "")); [done|].
    cbn [fst]. rewrite flush_enabled.
    by destruct st as [e q s [au|] c fl so n p se], intr.
  - destruct (fetchingOf id st) as [f|]; [|done].
    destruct r; [rewrite finally_enabled|]; by destruct st.
  - destruct (playingOf a st); [|done]. rewrite finally_enabled. by destruct st.
  - destruct (waitingOn a st); [|done]. rewrite finally_enabled. by destruct st.
  - destruct (waitingOn a st); [|done]. rewrite finally_enabled. by destruct st.
  - done.
Qed.

Lemma run_plain_enabled evs : ∀ st,
  forallb plain evs = true → speechEnabled (run st evs) = speechEnabled st.
Proof.
  induction evs as [|ev evs IH]; intros st Hp; [done|].
  cbn in *. apply andb_true_iff in Hp as [Hev Hevs].
  by rewrite IH, step_plain_enabled.
Qed.

Lemma run_cons st (ev : Event) (evs : list Event) :
  run st (ev :: evs) = run (step st ev) evs.
Proof. done. Qed.

(** The answer of the endpoint makes the clip of the job under way play;
    the jobs behind it keep waiting. *)
Lemma job_answered job rest st (i : nat) format audioBase64 :
  flights st = [] → sounding st = [] → i = jobId job →
  let st' := step (beginAttempt job (setSpeaking true (setQueue rest st)))
               (FetchDone i (FetchOk format audioBase64)) in
  flights st' = [Playing job (length (played st))]
  ∧ sounding st' = [length (played st)]
  ∧ speechQueueRef st' = rest
  ∧ played st' = played st ++ [jobId job]
  ∧ settled st' = settled st.
Proof.
  intros Hfl Hso ->.
  destruct st as [e q s au c fl so n p se]; cbn in Hfl, Hso. subst fl so.
  cbn [played setQueue setSpeaking settled].
  assert (Hfetch :
    let st' := step (mkSpeech e rest true au c [Fetching job] [] n p se)
                 (FetchDone (jobId job) (FetchOk format audioBase64)) in
    flights st' = [Playing job (length p)] ∧ sounding st' = [length p]
    ∧ speechQueueRef st' = rest ∧ played st' = p ++ [jobId job]
    ∧ settled st' = se).
  { cbn [step]. unfold fetchingOf. cbn [flights List.find].
    rewrite (bool_decide_eq_true_2 (jobId job = jobId job)) by done.
    cbn -[filter]. by rewrite filter_self_flight. }
  unfold beginAttempt. cbn [speechCacheRef].
  destruct (c !! cacheKey job) as [url|]; [case_bool_decide|];
    [exact Hfetch| |exact Hfetch].
  cbn [step]. unfold fetchingOf. by cbn.
Qed.

(** C5, as the code has it.  From an idle queue, after any sequence of
    enqueues without the interrupt flag, answers of the synthesis endpoint
    and playback events, and with the speech setting left alone: at most
    one invocation of [flushSpeechQueue] is under way and at most one
    audio element sounds; while none is under way the queue is empty; the
    jobs settled, under way and waiting are, in this order, the jobs in
    the order of their arrival, so the job under way was taken from the
    queue only after every earlier job had settled; and the clips are
    played in the order of arrival.  Three jobs enqueued while the queue
    is idle are served one after the other: the first is under way at once
    and the other two wait, also while its clip plays; and once the
    endpoint has answered each with a clip and each clip has ended, the
    three clips have been played in the order of the calls and the three
    promises are resolved in that order. *)
Theorem speech_queue_plays_one_at_a_time_in_order (evs : list Event) :
  forallb plain evs = true →
  let st := run (idle true) evs in
  (length (flights st) ≤ 1)%nat
  ∧ (length (sounding st) ≤ 1)%nat
  ∧ (flights st = [] → isSpeakingRef st = false ∧ speechQueueRef st = [])
  ∧ jobOrder st = seq 0 (nextJob st)
  ∧ (∀ f i, f ∈ flights st → (i < jobId (flightJob f))%nat →
       i ∈ map fst (settled st))
  ∧ played st `sublist_of` seq 0 (nextJob st)
  ∧ (flights st = [] →
     ∀ sel1 sel2 sel3 (m1 m2 m3 : string) (s1 s2 s3 : option NagStyle)
       format1 audio1 format2 audio2 format3 audio3,
       m1 ≠ "" → m2 ≠ "" → m3 ≠ "" →
       let n := nextJob st in
       let a := length (played st) in
       let j1 := {| jobId := n; message := m1; style := default sel1 s1 |} in
       let j2 := {| jobId := S n; message := m2; style := default sel2 s2 |} in
       let j3 := {| jobId := S (S n); message := m3;
                    style := default sel3 s3 |} in
       let calls := [Speak sel1 m1 s1 false; Speak sel2 m2 s2 false;
                     Speak sel3 m3 s3 false] in
       let st3 := run st calls in
       let st4 := step st3 (FetchDone n (FetchOk format1 audio1)) in
       let st' := run st3 [FetchDone n (FetchOk format1 audio1);
                           AudioEnded a;
                           FetchDone (S n) (FetchOk format2 audio2);
                           AudioEnded (S a);
                           FetchDone (S (S n)) (FetchOk format3 audio3);
                           AudioEnded (S (S a))] in
       speechQueueRef st3 = [j2; j3]
       ∧ (flights st3 = [Fetching j1] ∨ flights st3 = [Playing j1 a])
       ∧ flights st4 = [Playing j1 a] ∧ sounding st4 = [a]
       ∧ speechQueueRef st4 = [j2; j3]
       ∧ played st4 = played st ++ [n]
       ∧ settled st4 = settled st
       ∧ played st' = played st ++ [n; S n; S (S n)]
       ∧ settled st'
         = settled st ++ [(n, Resolved); (S n, Resolved); (S (S n), Resolved)]
       ∧ flights st' = [] ∧ sounding st' = []
       ∧ speechQueueRef st' = [] ∧ isSpeakingRef st' = false).
Proof.
  intros Hp st.
  assert (HT : Tight st) by (apply run_plain_tight; [done|apply idle_tight]).
  assert (Hen : speechEnabled st = true)
    by (unfold st; by rewrite run_plain_enabled).
  pose proof (tight_flights st HT) as Hshape.
  destruct HT as (_ & _ & Hord & Hsub).
  assert (Hsettled : ∀ f i, f ∈ flights st → (i < jobId (flightJob f))%nat →
                            i ∈ map fst (settled st)).
  { intros f i Hin Hlt. unfold jobOrder in Hord.
    destruct Hshape as [(Hfl & _)|[(j0 & Hfl & _)|(j0 & a0 & Hfl & _)]];
      rewrite Hfl in Hin, Hord.
    - by apply elem_of_nil in Hin.
    - apply list_elem_of_singleton in Hin. subst f. cbn in *.
      apply seq_prefix in Hord. rewrite Hord. apply elem_of_seq. lia.
    - apply list_elem_of_singleton in Hin. subst f. cbn in *.
      apply seq_prefix in Hord. rewrite Hord. apply elem_of_seq. lia. }
  assert (Hplayed : played st `sublist_of` seq 0 (nextJob st)).
  { rewrite <- Hord. etrans; [exact Hsub|apply begun_sublist_jobOrder]. }
  assert (Hserve : flights st = [] →
    ∀ sel1 sel2 sel3 (m1 m2 m3 : string) (s1 s2 s3 : option NagStyle)
      format1 audio1 format2 audio2 format3 audio3,
      m1 ≠ "" → m2 ≠ "" → m3 ≠ "" →
      let n := nextJob st in
      let a := length (played st) in
      let j1 := {| jobId := n; message := m1; style := default sel1 s1 |} in
      let j2 := {| jobId := S n; message := m2; style := default sel2 s2 |} in
      let j3 := {| jobId := S (S n); message := m3;
                   style := default sel3 s3 |} in
      let calls := [Speak sel1 m1 s1 false; Speak sel2 m2 s2 false;
                    Speak sel3 m3 s3 false] in
      let st3 := run st calls in
      let st4 := step st3 (FetchDone n (FetchOk format1 audio1)) in
      let st' := run st3 [FetchDone n (FetchOk format1 audio1);
                          AudioEnded a;
                          FetchDone (S n) (FetchOk format2 audio2);
                          AudioEnded (S a);
                          FetchDone (S (S n)) (FetchOk format3 audio3);
                          AudioEnded (S (S a))] in
      speechQueueRef st3 = [j2; j3]
      ∧ (flights st3 = [Fetching j1] ∨ flights st3 = [Playing j1 a])
      ∧ flights st4 = [Playing j1 a] ∧ sounding st4 = [a]
      ∧ speechQueueRef st4 = [j2; j3]
      ∧ played st4 = played st ++ [n]
      ∧ settled st4 = settled st
      ∧ played st' = played st ++ [n; S n; S (S n)]
      ∧ settled st'
        = settled st ++ [(n, Resolved); (S n, Resolved); (S (S n), Resolved)]
      ∧ flights st' = [] ∧ sounding st' = []
      ∧ speechQueueRef st' = [] ∧ isSpeakingRef st' = false).
  { intros Hfl sel1 sel2 sel3 m1 m2 m3 s1 s2 s3
      format1 audio1 format2 audio2 format3 audio3 Hm1 Hm2 Hm3.
    destruct Hshape as [(_ & Hsp & Hq & Hso)|[(j0 & Hfl' & _)|(j0 & a0 & Hfl' & _)]];
      [|congruence|congruence].
    clear Hord Hsub Hsettled Hplayed Hp. clearbody st.
    destruct st as [e q s au c fl so n p se]; cbn in Hen, Hfl, Hsp, Hq, Hso.
    subst e q s fl so.
    intros n0 a j1 j2 j3 calls st3 st4 st'.
    set (st0 := mkSpeech true [] false au c [] [] (S (S (S n))) p se).
    assert (Hst3 : st3 = beginAttempt j1 (setSpeaking true (setQueue [j2; j3] st0))).
    { subst st3 calls. rewrite run_cons, speak_idle by done.
      rewrite run_cons, speak_busy by done.
      rewrite run_cons, speak_busy by done. reflexivity. }
    subst st4 st'. clearbody st3. subst st3.
    destruct (job_answered j1 [j2; j3] st0 n format1 audio1 eq_refl eq_refl eq_refl)
      as (A1 & A2 & A3 & A4 & A5).
    destruct (job_served j1 [j2; j3] st0 n (length p) format1 audio1
                eq_refl eq_refl eq_refl eq_refl)
      as (st1 & F1 & S1 & P1 & R1 & N1 & E1 & _ & _ & Heq1).
    destruct (job_served j2 [j3] st1 (S n) (S (length p)) format2 audio2
                F1 S1 eq_refl)
      as (st2 & F2 & S2 & P2 & R2 & N2 & E2 & _ & _ & Heq2).
    { rewrite P1, length_app. cbn. lia. }
    destruct (job_served j3 [] st2 (S (S n)) (S (S (length p))) format3 audio3
                F2 S2 eq_refl)
      as (st5 & F3 & S3 & P3 & R3 & N3 & E3 & Q3 & K3 & Heq3).
    { rewrite P2, P1, !length_app. cbn. lia. }
    assert (Hst' :
      run (beginAttempt j1 (setSpeaking true (setQueue [j2; j3] st0)))
        [FetchDone n0 (FetchOk format1 audio1); AudioEnded a;
         FetchDone (S n0) (FetchOk format2 audio2); AudioEnded (S a);
         FetchDone (S (S n0)) (FetchOk format3 audio3);
         AudioEnded (S (S a))] = st5).
    { subst n0 a. rewrite run_two.
      etrans; [apply (f_equal (λ s, run s _)), Heq1|].
      rewrite run_two.
      etrans; [apply (f_equal (λ s, run s _)), Heq2|]. exact Heq3. }
    rewrite Hst'. clear Hst' Heq1 Heq2 Heq3.
    split; [|split; [|split_and!]].
    - unfold beginAttempt.
      by destruct (speechCacheRef _ !! _) as [url|]; [case_bool_decide|].
    - unfold beginAttempt. cbn [speechCacheRef st0 setSpeaking setQueue].
      destruct (c !! cacheKey j1) as [url|]; [case_bool_decide|];
        [by left|by right|by left].
    - exact A1.
    - exact A2.
    - exact A3.
    - exact A4.
    - exact A5.
    - rewrite P3, P2, P1. cbn [played st0 jobId j1 j2 j3].
      by rewrite <- !app_assoc.
    - rewrite R3, R2, R1. cbn [settled st0 jobId j1 j2 j3].
      by rewrite <- !app_assoc.
    - exact F3.
    - exact S3.
    - exact Q3.
    - exact K3. }
  split_and!; [..|exact Hserve]; clear Hserve; try done;
    destruct Hshape as [(Hfl & Hsp & Hq & Hso)|[(j0 & Hfl & Hsp & Hso)|(j0 & a0 & Hfl & Hsp & Hso)]];
    rewrite ?Hfl, ?Hso; cbn; try done; lia.
Qed.


(** C10.  A call of [handleSpeak] while speech is disabled, or with an
    empty message, returns a promise that is already resolved and leaves
    the whole state of the queue -- the queue, the cache, the speaking
    flag, the audio element, the invocations under way -- as it was. *)
Theorem handleSpeak_disabled_or_empty_is_noop
    st sel (msg : string) (sty : option NagStyle) (interrupt : bool) :
  speechEnabled st = false ∨ msg = "" →
  handleSpeak sel msg sty interrupt st = (st, ResolvedAtOnce)
  ∧ step st (Speak sel msg sty interrupt) = st.
Proof.
  intros H.
  assert (E : handleSpeak sel msg sty interrupt st = (st, ResolvedAtOnce)).
  { unfold handleSpeak. destruct H as [-> | ->]; [done|].
    by rewrite orb_true_r. }
  split; [done|]. cbn. by rewrite E.
Qed.

(** *** History and dropped jobs, under any event *)

#[local] Instance Extends_refl : Reflexive Extends.
Proof.
  intros st. split_and!; [exists []|exists []|lia]; by rewrite app_nil_r.
Qed.

#[local] Instance Extends_trans : Transitive Extends.
Proof.
  intros s1 s2 s3 ((l1 & H1) & (m1 & G1) & N1) ((l2 & H2) & (m2 & G2) & N2).
  split_and!; [exists (l1 ++ l2)|exists (m1 ++ m2)|lia].
  - by rewrite H2, H1, app_assoc.
  - by rewrite G2, G1, app_assoc.
Qed.

Lemma extends_same st st' :
  played st' = played st → settled st' = settled st →
  nextJob st' = nextJob st → Extends st st'.
Proof.
  intros Hp Hs Hn. split_and!; [exists []|exists []|lia];
    by rewrite app_nil_r.
Qed.

Lemma beginAttempt_extends job st : Extends st (beginAttempt job st).
Proof.
  unfold beginAttempt.
  destruct (speechCacheRef st !! cacheKey job) as [url|];
    [case_bool_decide|]; try (apply extends_same; by destruct st).
  destruct st as [e q s au c fl so n p se].
  split_and!; cbn; [by exists [jobId job]|exists []; by rewrite app_nil_r|lia].
Qed.

Lemma flush_extends b st : Extends st (flushSpeechQueue b st).
Proof.
  unfold flushSpeechQueue. destruct (negb b || isSpeakingRef st); [reflexivity|].
  destruct (speechQueueRef st) as [|job rest] eqn:Hq; [reflexivity|].
  etrans; [|apply beginAttempt_extends]. apply extends_same; by destruct st.
Qed.

Lemma finally_extends st : Extends st (finally_ st).
Proof.
  unfold finally_.
  destruct (speechQueueRef (setSpeaking false st)) eqn:Hq.
  - apply extends_same; by destruct st.
  - etrans; [|apply flush_extends]. apply extends_same; by destruct st.
Qed.

Lemma settle_extends f how st : Extends st (settle f how st).
Proof.
  destruct st as [e q s au c fl so n p se]. unfold settle; cbn -[filter].
  split_and!; cbn; [exists []; by rewrite app_nil_r|by eexists|lia].
Qed.

Lemma handleSpeak_extends sel msg sty intr st :
  Extends st (fst (handleSpeak sel msg sty intr st)).
Proof.
  unfold handleSpeak.
  destruct (negb (speechEnabled st) || bool_decide (msg = "")); [reflexivity|].
  cbn [fst]. etrans; [|apply flush_extends].
  destruct st as [e q s au c fl so n p se], intr; cbn -[filter];
    [destruct au; cbn -[filter]|];
    (split_and!; cbn; [exists []; by rewrite app_nil_r
                      |exists []; by rewrite app_nil_r|lia]).
Qed.

Lemma step_extends st ev : Extends st (step st ev).
Proof.
  destruct ev as [sel msg sty intr|id r|a|a|a|b]; cbn -[filter].
  - apply handleSpeak_extends.
  - destruct (fetchingOf id st) as [f|]; [|reflexivity].
    destruct r as [|format audioBase64].
    + etrans; [apply (settle_extends f Rejected)|apply finally_extends].
    + destruct st as [e q s au c fl so n p se]; cbn -[filter].
      split_and!; cbn; [by eexists|exists []; by rewrite app_nil_r|lia].
  - destruct (playingOf a st) as [f|]; [|reflexivity].
    etrans; [|apply finally_extends]. etrans; [|apply settle_extends].
    apply extends_same; by destruct st.
  - destruct (waitingOn a st) as [f|]; [|reflexivity].
    etrans; [|apply finally_extends]. etrans; [|apply settle_extends].
    apply extends_same; by destruct st.
  - destruct (waitingOn a st) as [f|]; [|reflexivity].
    etrans; [|apply finally_extends]. etrans; [|apply settle_extends].
    apply extends_same; by destruct st.
  - case_bool_decide; [reflexivity|]. destruct b.
    + etrans; [|apply flush_extends]. apply extends_same; by destruct st.
    + apply extends_same; by destruct st as [e q s [au|] c fl so n p se].
Qed.

Lemma run_extends evs : ∀ st, Extends st (run st evs).
Proof.
  induction evs as [|ev evs IH]; intros st; [reflexivity|].
  cbn. etrans; [apply (step_extends st ev)|apply IH].
Qed.

Lemma startAudio_dropped i job st :
  Dropped i st → jobId job ≠ i → Dropped i (startAudio job st).
Proof.
  intros (H1 & H2 & H3 & H4) Hne.
  destruct st as [e q s au c fl so n p se]; cbn in *.
  split_and!; cbn; try done.
  intros f Hf. apply elem_of_app in Hf as [Hf|Hf]; [by apply H2|].
  apply list_elem_of_singleton in Hf. by subst f.
Qed.

Lemma beginAttempt_dropped i job st :
  Dropped i st → jobId job ≠ i → Dropped i (beginAttempt job st).
Proof.
  intros HD Hne. unfold beginAttempt.
  assert (HF : Dropped i (setFlights (flights st ++ [Fetching job]) st)).
  { destruct HD as (H1 & H2 & H3 & H4).
    destruct st as [e q s au c fl so n p se]; cbn in *.
    split_and!; cbn; try done.
    intros f Hf. apply elem_of_app in Hf as [Hf|Hf]; [by apply H2|].
    apply list_elem_of_singleton in Hf. by subst f. }
  destruct (speechCacheRef st !! cacheKey job) as [url|]; [|done].
  case_bool_decide; [done|]. by apply startAudio_dropped.
Qed.

Lemma flush_dropped i b st : Dropped i st → Dropped i (flushSpeechQueue b st).
Proof.
  intros HD. unfold flushSpeechQueue.
  destruct (negb b || isSpeakingRef st); [done|].
  destruct (speechQueueRef st) as [|job rest] eqn:Hq; [done|].
  destruct HD as (H1 & H2 & H3 & H4).
  apply beginAttempt_dropped.
  - destruct st as [e q s au c fl so n p se]; cbn in *. subst q.
    split_and!; cbn; try done. intros j Hj. apply H3. by right.
  - apply H3. rewrite Hq. left.
Qed.

Lemma finally_dropped i st : Dropped i st → Dropped i (finally_ st).
Proof.
  intros HD. unfold finally_.
  assert (HD' : Dropped i (setSpeaking false st)) by (by destruct st).
  destruct (speechQueueRef (setSpeaking false st)); [done|].
  by apply flush_dropped.
Qed.

Lemma settle_dropped i f how st :
  Dropped i st → f ∈ flights st → Dropped i (settle f how st).
Proof.
  intros (H1 & H2 & H3 & H4) Hf.
  destruct st as [e q s au c fl so n p se]; unfold settle; cbn -[filter] in *.
  split_and!; cbn -[filter]; try done.
  - intros how' Hin. apply elem_of_app in Hin as [Hin|Hin]; [by eapply H1|].
    apply list_elem_of_singleton in Hin. injection Hin as Hi _.
    by apply (H2 f).
  - intros g Hg. apply list_elem_of_filter in Hg as [_ Hg]. by apply H2.
Qed.

Lemma handleSpeak_dropped i sel msg sty intr st :
  Dropped i st → Dropped i (fst (handleSpeak sel msg sty intr st)).
Proof.
  intros HD. unfold handleSpeak.
  destruct (negb (speechEnabled st) || bool_decide (msg = "")); [done|].
  cbn [fst]. apply flush_dropped.
  destruct HD as (H1 & H2 & H3 & H4).
  destruct st as [e q s au c fl so n p se], intr; cbn -[filter] in *;
    [destruct au; cbn -[filter]|];
    (split_and!; cbn -[filter]; [done|done| |lia]).
  - intros j Hj. apply list_elem_of_singleton in Hj. subst j. cbn. lia.
  - intros j Hj. apply list_elem_of_singleton in Hj. subst j. cbn. lia.
  - intros j Hj. apply elem_of_app in Hj as [Hj|Hj]; [by apply H3|].
    apply list_elem_of_singleton in Hj. subst j. cbn. lia.
Qed.

(** A dropped job stays dropped, whatever happens: in particular its
    promise never settles. *)
Lemma step_dropped i st ev : Dropped i st → Dropped i (step st ev).
Proof.
  intros HD. destruct ev as [sel msg sty intr|id r|a|a|a|b]; cbn -[filter].
  - by apply handleSpeak_dropped.
  - destruct (fetchingOf id st) as [f|] eqn:Hf; [|done].
    apply fetchingOf_Some in Hf as (Hin & j & -> & Hj).
    destruct r as [|format audioBase64].
    + by apply finally_dropped, settle_dropped.
    + cbn [flightJob]. apply startAudio_dropped.
      * destruct HD as (H1 & H2 & H3 & H4).
        destruct st as [e q s au c fl so n p se]; cbn -[filter] in *.
        split_and!; cbn -[filter]; try done.
        intros g Hg. apply list_elem_of_filter in Hg as [_ Hg]. by apply H2.
      * destruct HD as (_ & H2 & _). by apply (H2 (Fetching j)).
  - destruct (playingOf a st) as [f|] eqn:Hf; [|done].
    apply playingOf_Some in Hf as (Hso & Hin & j & ->).
    apply finally_dropped, settle_dropped; by destruct st.
  - destruct (waitingOn a st) as [f|] eqn:Hf; [|done].
    apply waitingOn_Some in Hf as (Hin & j & ->).
    apply finally_dropped, settle_dropped; by destruct st.
  - destruct (waitingOn a st) as [f|] eqn:Hf; [|done].
    apply waitingOn_Some in Hf as (Hin & j & ->).
    apply finally_dropped, settle_dropped; by destruct st.
  - case_bool_decide; [done|]. destruct b.
    + apply flush_dropped. by destruct st.
    + destruct HD as (H1 & H2 & H3 & H4).
      destruct st as [e q s [au|] c fl so n p se]; cbn -[filter] in *;
        (split_and!; cbn -[filter]; [done|done| |done]);
        intros j Hj; by apply elem_of_nil in Hj.
Qed.

Lemma run_dropped i evs : ∀ st, Dropped i st → Dropped i (run st evs).
Proof.
  induction evs as [|ev evs IH]; intros st HD; [done|].
  cbn. by apply IH, step_dropped.
Qed.

(** *** After an interrupt *)











End SpeechQueue.

Section SpeechRuns.
Import App Scenario.

(** The three lines are played one after the other, each promise resolves,
    and the queue is idle again. *)
Example three_jobs_play_in_order :
  let st := run (idle true) threeJobsPlayed in
  played st = [0; 1; 2]%nat
  ∧ settled st = [(0, Resolved); (1, Resolved); (2, Resolved)]%nat
  ∧ flights st = [] ∧ sounding st = [] ∧ isSpeakingRef st = false.
Proof. cbn zeta. split_and!; vm_compute; reflexivity. Qed.

(** While the first clip plays, the other two jobs wait. *)
Example first_clip_playing :
  let st := run (idle true) firstPlaying in
  flights st = [Playing (job 0 "one") 0]
  ∧ sounding st = [0%nat]
  ∧ speechQueueRef st = [job 1 "two"; job 2 "three"].
Proof. cbn zeta. split_and!; vm_compute; reflexivity. Qed.

Lemma speech_queue_plays_one_at_a_time_in_order_witness :
  forallb plain [] = true
  ∧ played (run (idle true) threeJobsPlayed) = [0; 1; 2]%nat.
Proof.
  split; [reflexivity|].
  pose proof (speech_queue_plays_one_at_a_time_in_order [] eq_refl) as H.
  cbv zeta in H. destruct H as (_ & _ & _ & _ & _ & _ & H).
  specialize (H eq_refl Harsh Harsh Harsh "one" "two" "three" None None None
                None "QUJD" None "QUJD" None "QUJD").
  cbv zeta in H.
  destruct H as (_ & _ & _ & _ & _ & _ & _ & H & _); [discriminate..|].
  vm_compute in H. vm_compute. exact H.
Defined.

(** C5 as stated fails: the bound does not hold at every reachable state.
    Speech is switched off and on again while the first line is being
    synthesised, and a second line is enqueued.  Two invocations are then
    under way, and when both answers have arrived two clips sound at the
    same time. *)
Lemma speech_switched_off_and_on_lets_two_clips_sound :
  let st := run (idle true)
              [say "one"; SetSpeechEnabled false; SetSpeechEnabled true;
               say "two"] in
  let st' := run st [FetchDone 0 clip; FetchDone 1 clip] in
  flights st = [Fetching (job 0 "one"); Fetching (job 1 "two")]
  ∧ flights st' = [Playing (job 0 "one") 0; Playing (job 1 "two") 1]
  ∧ sounding st' = [0; 1]%nat
  ∧ ¬ (length (flights st) ≤ 1)%nat
  ∧ ¬ (length (sounding st') ≤ 1)%nat.
Proof.
  cbn zeta.
  assert (E1 : flights (run (idle true)
                          [say "one"; SetSpeechEnabled false;
                           SetSpeechEnabled true; say "two"])
               = [Fetching (job 0 "one"); Fetching (job 1 "two")])
    by (vm_compute; reflexivity).
  assert (E2 : sounding (run (run (idle true)
                                [say "one"; SetSpeechEnabled false;
                                 SetSpeechEnabled true; say "two"])
                           [FetchDone 0 clip; FetchDone 1 clip])
               = [0; 1]%nat)
    by (vm_compute; reflexivity).
  split_and!; [exact E1|vm_compute; reflexivity|exact E2| |].
  - rewrite E1. cbn. lia.
  - rewrite E2. cbn. lia.
Qed.


(** After the interrupt of the example the new job waits for the endpoint
    and the old clip is silent; its answer makes the new clip play. *)
Example interrupt_then_answer :
  let st' := fst (handleSpeak Harsh "now" None true (run (idle true) firstPlaying)) in
  flights st' = [Playing (job 0 "one") 0; Fetching (job 3 "now")]
  ∧ sounding st' = []
  ∧ played (run st' [FetchDone 3 clip; AudioEnded 1]) = [0; 3]%nat
  ∧ settled (run st' [FetchDone 3 clip; AudioEnded 1]) = [(3%nat, Resolved)].
Proof. cbn zeta. split_and!; vm_compute; reflexivity. Qed.



Lemma handleSpeak_disabled_or_empty_is_noop_witness :
  speechEnabled (idle false) = false
  ∧ handleSpeak Harsh "late" None true (idle false)
    = (idle false, ResolvedAtOnce).
Proof.
  split; [reflexivity|].
  apply (handleSpeak_disabled_or_empty_is_noop (idle false) Harsh "late" None true).
  by left.
Defined.

End SpeechRuns.

(** * Further properties *)

Section CardTicks.
Import Card CardLife.

Implicit Types (st : SchedulerState) (k : string) (T : gset string).

(** Decide the closed tier comparisons left after a case analysis. *)
Ltac eval_tiers :=
  repeat match goal with
    | |- context [bool_decide ?P] =>
        let b := eval vm_compute in (bool_decide P) in
        change (bool_decide P) with b
    | H : context [bool_decide ?P] |- _ =>
        let b := eval vm_compute in (bool_decide P) in
        change (bool_decide P) with b in H
    end.

Lemma scanPre_in_place diff T ths : scanPre (Some diff) diff T ths = None.
Proof.
  induction ths as [|th rest IH]; [done|]. cbn [scanPre].
  unfold preMatches.
  destruct (diff >? ms th) eqn:E1, (diff <=? ms th) eqn:E2; cbn; try done.
  apply Z.gtb_lt in E1. apply Z.leb_le in E2. lia.
Qed.

Lemma scanPost_in_place diff T ths :
  diff < 0 → scanPost (Z.max 0 (- diff)) (Z.abs diff) T ths = None.
Proof.
  intros Hneg. induction ths as [|th rest IH]; [done|]. cbn [scanPost].
  unfold postMatches.
  destruct (Z.max 0 (- diff) <? ms th) eqn:E1,
           (Z.abs diff >=? ms th) eqn:E2; cbn; try done.
  apply Z.ltb_lt in E1. apply Z.geb_le in E2. lia.
Qed.

Lemma evaluateThresholds_in_place diff st evs :
  prevRemainingRef st = Some diff →
  evaluateThresholds diff (st, evs) = (st, evs).
Proof.
  intros Hp. unfold evaluateThresholds. cbn [fst snd]. rewrite Hp.
  destruct (diff >=? 0) eqn:Hs.
  - rewrite scanPre_in_place.
    destruct (diff >? 0) eqn:E1, (diff <=? 0) eqn:E2; cbn; try done.
    apply Z.gtb_lt in E1. apply Z.leb_le in E2. lia.
  - rewrite scanPost_in_place; [done|].
    destruct (Z.geb_spec diff 0); [done|lia].
Qed.

(** A tick that finds the refs as a tick or the reset effect at the same
    clock read leaves them is silent and changes nothing. *)
Lemma tick_in_place todo now diff st :
  prevRemainingRef st = Some diff →
  (if isCompleted todo then triggeredThresholdsRef st = ∅
   else toCanonicalPriority (prevPriorityRef st)
        = toCanonicalPriority
            (calculateLocalPriority (deadline todo) (estimatedTime todo) now)) →
  evaluateSchedule todo now diff st = (st, []).
Proof.
  intros Hp Hinv. unfold evaluateSchedule.
  destruct (isCompleted todo) eqn:Hc.
  - destruct st; cbn in *. by subst.
  - revert Hinv.
    generalize (calculateLocalPriority (deadline todo) (estimatedTime todo) now).
    intros livePriority Hinv.
    destruct (toCanonicalPriority (prevPriorityRef st)) eqn:Hprev,
             (toCanonicalPriority livePriority) eqn:Hl;
      try discriminate; eval_tiers; cbn [andb negb fst snd];
      rewrite ?evaluateThresholds_in_place by done;
      destruct st; cbn in *; by subst.
Qed.

Lemma tick_leaves_diff todo now diff st :
  prevRemainingRef (fst (evaluateSchedule todo now diff st)) = Some diff.
Proof.
  unfold evaluateSchedule. destruct (isCompleted todo); [done|].
  by destruct (bool_decide (_ ≠ CRITICAL)).
Qed.

Lemma completed_tick_empties todo now diff st :
  isCompleted todo = true →
  triggeredThresholdsRef (fst (evaluateSchedule todo now diff st)) = ∅.
Proof. intros Hc. unfold evaluateSchedule. by rewrite Hc. Qed.

(** X1.  A tick whose clock read is that of the tick before it, or that of
    the reset effect which ran just before it (as on mount and whenever the
    deadline, the estimate or the completion changes), reports no alert
    event and leaves every ref as it was. *)
Theorem tick_at_unchanged_clock_is_silent todo now st
    (c : SchedulerState * DispatcherState) :
  calc todo now (fst (calc todo now st)) = (fst (calc todo now st), [])
  ∧ calc todo now (fst (resetForTask todo now c))
    = (fst (resetForTask todo now c), []).
Proof.
  unfold calc. destruct (deadline todo) as [d|] eqn:Hd.
  - split.
    + apply tick_in_place; [apply tick_leaves_diff|].
      destruct (isCompleted todo) eqn:Hc.
      * by apply completed_tick_empties.
      * by apply tick_remembers_live_tier.
    + apply tick_in_place.
      * unfold resetForTask. cbn. by rewrite Hd.
      * unfold resetForTask. cbn. rewrite Hd.
        by destruct (isCompleted todo).
  - split; [done|]. unfold resetForTask. cbn. by rewrite Hd.
Qed.

Lemma passed_shrinks p diff k :
  diff ≤ p → passed p k = true → passed diff k = true.
Proof.
  intros Hle. unfold passed. rewrite !orb_true_iff, !existsb_exists.
  intros [[(th & Hin & E)|E]|(th & Hin & E)].
  - left; left. exists th. split; [done|].
    apply andb_true_iff in E as [E1 E2]. apply Z.leb_le in E2.
    rewrite E1. cbn. apply Z.leb_le. lia.
  - left; right. apply andb_true_iff in E as [E1 E2]. apply Z.leb_le in E2.
    rewrite E1. cbn. apply Z.leb_le. lia.
  - right. exists th. split; [done|].
    apply andb_true_iff in E as [E1 E2]. apply Z.leb_le in E2.
    rewrite E1. cbn. apply Z.leb_le. lia.
Qed.

Ltac threshold_cases H :=
  repeat (apply elem_of_cons in H as [->|H]); [..|by apply elem_of_nil in H].

Ltac passed_false :=
  unfold passed, PRE_DEADLINE_THRESHOLDS_ASC, POST_DEADLINE_THRESHOLDS_ASC;
  cbn [existsb key ms]; eval_tiers; cbn [andb orb];
  rewrite ?orb_false_r; apply Z.leb_gt;
  unfold HOUR_MS, HALF_HOUR_MS in *; lia.

Lemma pre_key_not_passed p th :
  th ∈ PRE_DEADLINE_THRESHOLDS_ASC → ms th < p → passed p (key th) = false.
Proof.
  intros Hin Hp. unfold PRE_DEADLINE_THRESHOLDS_ASC in Hin.
  threshold_cases Hin; cbn [key ms] in *; passed_false.
Qed.

Lemma deadline_hit_not_passed p : 0 < p → passed p "deadline-hit" = false.
Proof. intros Hp. passed_false. Qed.

Lemma post_key_not_passed p th :
  th ∈ POST_DEADLINE_THRESHOLDS_ASC → - p < ms th → passed p (key th) = false.
Proof.
  intros Hin Hp. unfold POST_DEADLINE_THRESHOLDS_ASC in Hin.
  threshold_cases Hin; cbn [key ms] in *; passed_false.
Qed.

Lemma countKey_other k k' :
  k' ≠ k → countKey k [ThresholdFired k'] = 0%nat.
Proof.
  intros Hne. rewrite countKey_cons, countKey_nil.
  case_decide; [congruence|done].
Qed.

Lemma fire_counts k k' (c : SchedulerState * list AlertEvent) :
  k' ≠ k → countKey k (snd (fire k' c)) = countKey k (snd c).
Proof.
  intros Hne. unfold fire, triggerNagEvent. cbn [snd].
  rewrite countKey_app, countKey_other by done. lia.
Qed.

Lemma fire_prevRemaining k (c : SchedulerState * list AlertEvent) :
  prevRemainingRef (fst (fire k c)) = prevRemainingRef (fst c).
Proof. done. Qed.

(** The thresholds fire a key only when the remaining time crosses its
    point between the previous tick and this one. *)
Lemma evaluateThresholds_crossing diff st p k :
  prevRemainingRef st = Some p → passed p k = true →
  countKey k (snd (evaluateThresholds diff (st, []))) = 0%nat.
Proof.
  intros Hp Hk. unfold evaluateThresholds. cbn [fst snd]. rewrite Hp.
  destruct (diff >=? 0).
  - set (c1 := match scanPre _ _ _ _ with Some _ => _ | None => _ end).
    assert (H1 : countKey k (snd c1) = 0%nat).
    { subst c1. destruct (scanPre _ _ _ _) as [th|] eqn:Hscan; [|done].
      pose proof (scanPre_Some _ _ _ _ _ Hscan) as (Hin & _ & _).
      rewrite scanPre_find in Hscan.
      apply find_first in Hscan as (_ & _ & _ & Hm & _).
      unfold preMatches in Hm.
      apply andb_true_iff in Hm as [Hm _]. apply andb_true_iff in Hm as [Hm _].
      apply Z.gtb_lt in Hm.
      rewrite fire_counts; [done|]. intros <-.
      by rewrite pre_key_not_passed in Hk. }
    destruct (_ && _) eqn:E; [|done].
    apply andb_true_iff in E as [E _]. apply andb_true_iff in E as [E _].
    apply Z.gtb_lt in E.
    rewrite fire_counts; [done|]. intros <-.
    by rewrite deadline_hit_not_passed in Hk.
  - destruct (scanPost _ _ _ _) as [th|] eqn:Hscan; [|done].
    pose proof (scanPost_Some _ _ _ _ _ Hscan) as (Hin & _).
    rewrite scanPost_find in Hscan.
    apply find_first in Hscan as (_ & _ & _ & Hm & _).
    unfold postMatches in Hm.
    apply andb_true_iff in Hm as [Hm _]. apply andb_true_iff in Hm as [Hm _].
    apply Z.ltb_lt in Hm.
    rewrite fire_counts; [done|]. intros <-.
    rewrite post_key_not_passed in Hk; [done|done|lia].
Qed.

Lemma tick_crossing todo now diff st p k :
  prevRemainingRef st = Some p → passed p k = true →
  countKey k (snd (evaluateSchedule todo now diff st)) = 0%nat.
Proof.
  intros Hp Hk. unfold evaluateSchedule.
  destruct (isCompleted todo); [done|].
  pose proof (evaluateThresholds_crossing diff st p k Hp Hk) as Hthr.
  generalize (calculateLocalPriority (deadline todo) (estimatedTime todo) now).
  intros livePriority.
  destruct (toCanonicalPriority (prevPriorityRef st)) eqn:Hprev,
           (toCanonicalPriority livePriority) eqn:Hl;
    eval_tiers; cbn [andb negb fst snd]; try done.
Qed.

(** X2.  A threshold that the remaining time has already reached or
    passed at the last tick never fires afterwards, as long as the
    remaining time does not grow again: the pre-deadline keys that a long
    gap between two ticks skipped are lost, and so are [deadline-hit] and
    the post-deadline keys once their points lie behind. *)
Theorem passed_threshold_never_fires todo ticks : ∀ st p k,
  prevRemainingRef st = Some p → passed p k = true →
  remainingShrinks p ticks = true →
  countKey k (snd (runTicks todo ticks st)) = 0%nat.
Proof.
  induction ticks as [|[now diff] rest IH]; intros st p k Hp Hk Hs; [done|].
  cbn [runTicks remainingShrinks snd] in *.
  apply andb_true_iff in Hs as [Hle Hs]. apply Z.leb_le in Hle.
  rewrite countKey_app, (tick_crossing _ _ _ _ p) by done.
  rewrite (IH _ diff k); [done|apply tick_leaves_diff| |done].
  by apply (passed_shrinks p).
Qed.

Lemma thresholds_report_keys diff st :
  TierTransition ∉ snd (evaluateThresholds diff (st, [])).
Proof.
  destruct (evaluateThresholds_outcome diff st) as [Hout _].
  cbn zeta in Hout. intros Hin.
  destruct Hout as [|k' _|k' _ _ _ _ _].
  - by apply elem_of_nil in Hin.
  - apply list_elem_of_singleton in Hin. discriminate.
  - apply elem_of_cons in Hin as [Hin|Hin]; [discriminate|].
    apply list_elem_of_singleton in Hin. discriminate.
Qed.

Lemma weight_of_tier (p : PriorityRank) :
  AppList.prioritySortWeight p
  = AppList.priorityOrderWeight (toCanonicalPriority p).
Proof. by destruct p. Qed.

(** X3.  A tick raises the tier-transition alert exactly when the task is
    open and the tier it computes is more urgent than the tier remembered
    from the tick before: every escalation (to 경고 or to 충격) alerts, and
    neither a de-escalation nor an unchanged tier ever does. *)
Theorem tier_alert_iff_escalation todo now diff st :
  TierTransition ∈ snd (evaluateSchedule todo now diff st)
  ↔ isCompleted todo = false
    ∧ AppList.prioritySortWeight
        (calculateLocalPriority (deadline todo) (estimatedTime todo) now)
      < AppList.prioritySortWeight (prevPriorityRef st).
Proof.
  unfold evaluateSchedule. rewrite !weight_of_tier.
  destruct (isCompleted todo).
  { cbn. split; [intros H; by apply elem_of_nil in H|by intros [? _]]. }
  pose proof (thresholds_report_keys diff st) as Hthr.
  generalize (calculateLocalPriority (deadline todo) (estimatedTime todo) now).
  intros livePriority.
  destruct (toCanonicalPriority (prevPriorityRef st)) eqn:Hprev,
           (toCanonicalPriority livePriority) eqn:Hl;
    eval_tiers; cbn [andb negb fst snd app triggerNagEvent
                     AppList.priorityOrderWeight];
    (split; [intros Hin|intros [_ Hlt]]);
    try lia; try (by apply elem_of_nil in Hin);
    try (split; [done|lia]); try (by apply list_elem_of_singleton);
    try done.
Qed.

End CardTicks.

Section CardRuns.
Import Card CardLife.

Implicit Types (st : SchedulerState) (ds : DispatcherState)
  (c : SchedulerState * DispatcherState).

Ltac eval_closed_tiers :=
  repeat match goal with
    | |- context [bool_decide (?x = ?y)] =>
        is_constructor x; is_constructor y;
        let b := eval vm_compute in (bool_decide (x = y)) in
        change (bool_decide (x = y)) with b
    | |- context [bool_decide (?x ≠ ?y)] =>
        is_constructor x; is_constructor y;
        let b := eval vm_compute in (bool_decide (x ≠ y)) in
        change (bool_decide (x ≠ y)) with b
    end.

Lemma thresholds_keep_nag diff st :
  let r := evaluateThresholds diff (st, []) in
  shouldShowNag (fst r) = shouldShowNag st.
Proof.
  unfold evaluateThresholds. cbn [fst snd].
  destruct (diff >=? 0).
  - destruct (scanPre _ _ _ _); by destruct (_ && _).
  - by destruct (scanPost _ _ _ _).
Qed.

Lemma tick_keeps_nagShown todo now diff st :
  nagShownAsTier todo st →
  nagShownAsTier todo (fst (evaluateSchedule todo now diff st)).
Proof.
  unfold nagShownAsTier, evaluateSchedule. intros Hinv.
  destruct (isCompleted todo) eqn:Hc; [done|].
  pose proof (evaluateThresholds_outcome diff st) as [_ Hprev].
  pose proof (thresholds_keep_nag diff st) as Hnag.
  cbn zeta in Hprev, Hnag.
  revert Hinv.
  generalize (calculateLocalPriority (deadline todo) (estimatedTime todo) now).
  intros livePriority.
  destruct (toCanonicalPriority (prevPriorityRef st)) eqn:Hp,
           (toCanonicalPriority livePriority) eqn:Hl;
    intros Hinv; eval_closed_tiers;
    cbn [andb negb fst snd app setPrevRemaining setPrevPriority setTriggered
         setShouldShowNag triggerNagEvent requestNagRefresh prevPriorityRef
         shouldShowNag];
    rewrite ?Hprev, ?Hnag, ?Hp, ?Hl, ?Hinv; eval_closed_tiers; done.
Qed.

Lemma calc_keeps_nagShown todo now st :
  nagShownAsTier todo st → nagShownAsTier todo (fst (calc todo now st)).
Proof.
  unfold calc. destruct (deadline todo); [apply tick_keeps_nagShown|done].
Qed.

Lemma dispatchEffect_scheduler todo now sel msg n s c :
  let r := dispatchEffect todo now sel msg n s c in
  shouldShowNag (fst (fst r)) = shouldShowNag (fst c)
  ∧ prevPriorityRef (fst (fst r)) = prevPriorityRef (fst c)
  ∧ nagRefreshKey (fst (fst r)) = nagRefreshKey (fst c).
Proof.
  unfold dispatchEffect. cbn zeta.
  destruct (shouldShowNag (fst c)) eqn:Hs; [|done].
  destruct msg as [m|]; [|done].
  destruct (_ || _); [done|].
  repeat (destruct (bool_decide _) || destruct (_ && _)); done.
Qed.

Lemma cardStep_keeps_nagShown todo c ev :
  nagShownAsTier todo (fst c) →
  nagShownAsTier todo (fst (fst (cardStep todo c ev))).
Proof.
  intros Hinv. destruct ev as [now| |now sel msg n s]; cbn [cardStep fst].
  - by apply calc_keeps_nagShown.
  - done.
  - destruct (dispatchEffect_scheduler todo now sel msg n s c) as (H1 & H2 & _).
    unfold nagShownAsTier in *. by rewrite H1, H2.
Qed.

Lemma resetForTask_nagShown todo now c :
  nagShownAsTier todo (fst (resetForTask todo now c)).
Proof. done. Qed.

(** X4.  From the reset effect on, through any ticks, message answers and
    renders, the nag is shown exactly when the task is open and the tier
    the card remembers (the one its last tick or the reset computed) is
    not 안전. *)
Theorem nag_shown_iff_open_and_last_tier_unsafe todo now0 c0 evs :
  let st := fst (fst (cardRun todo evs (resetForTask todo now0 c0))) in
  shouldShowNag st
  = negb (isCompleted todo)
    && bool_decide (toCanonicalPriority (prevPriorityRef st) ≠ SAFE).
Proof.
  cbn zeta.
  pose proof (resetForTask_nagShown todo now0 c0) as Hinv.
  revert Hinv. generalize (resetForTask todo now0 c0). clear c0.
  induction evs as [|ev rest IH]; intros c Hinv; [done|].
  cbn [cardRun fst]. apply IH. by apply cardStep_keeps_nagShown.
Qed.

(** What the thresholds do to the refresh key and the pending key. *)
Lemma thresholds_refresh diff st :
  let r := evaluateThresholds diff (st, []) in
  nagRefreshKey (fst r) = (nagRefreshKey st + length (snd r))%nat
  ∧ pendingSpeechKeyRef (fst r)
    = match snd r with
      | [] => pendingSpeechKeyRef st
      | _ => Some (nagRefreshKey (fst r))
      end.
Proof.
  unfold evaluateThresholds. cbn [fst snd].
  destruct (diff >=? 0).
  - destruct (scanPre _ _ _ _); destruct (_ && _); cbn; split; (lia || done).
  - destruct (scanPost _ _ _ _); cbn; split; (lia || done).
Qed.

(** Each alert event of a tick advances the refresh key by one, and a tick
    with an event leaves the new key pending. *)
Lemma tick_refresh todo now diff st :
  let r := evaluateSchedule todo now diff st in
  nagRefreshKey (fst r) = (nagRefreshKey st + length (snd r))%nat
  ∧ pendingSpeechKeyRef (fst r)
    = match snd r with
      | [] => pendingSpeechKeyRef st
      | _ => Some (nagRefreshKey (fst r))
      end.
Proof.
  unfold evaluateSchedule.
  destruct (isCompleted todo); [cbn; split; [lia|done]|].
  pose proof (thresholds_refresh diff st) as [Hk Hpend]. cbn zeta in Hk, Hpend.
  generalize (calculateLocalPriority (deadline todo) (estimatedTime todo) now).
  intros livePriority.
  destruct (toCanonicalPriority (prevPriorityRef st)) eqn:Hp,
           (toCanonicalPriority livePriority) eqn:Hl;
    eval_closed_tiers;
    cbn [andb negb fst snd app length setPrevRemaining setPrevPriority
         setTriggered setShouldShowNag triggerNagEvent requestNagRefresh
         nagRefreshKey pendingSpeechKeyRef];
    split; (lia || done).
Qed.

Lemma calc_refresh todo now st :
  let r := calc todo now st in
  nagRefreshKey (fst r) = (nagRefreshKey st + length (snd r))%nat
  ∧ pendingSpeechKeyRef (fst r)
    = match snd r with
      | [] => pendingSpeechKeyRef st
      | _ => Some (nagRefreshKey (fst r))
      end.
Proof.
  unfold calc. destruct (deadline todo); [apply tick_refresh|].
  cbn. split; [lia|done].
Qed.

(** What one run of the effect does to the refs, by its outcome. *)
Lemma dispatchEffect_outcome todo now sel msg n s c :
  let r := dispatchEffect todo now sel msg n s c in
  match snd r with
  | NotDue =>
      fst (fst r) = fst c
      ∧ hasSkippedInitialEventRef (snd (fst r)) = hasSkippedInitialEventRef (snd c)
      ∧ lastSpeechKeyRef (snd (fst r)) = lastSpeechKeyRef (snd c)
  | StyleChanged =>
      pendingSpeechKeyRef (fst (fst r)) = None
      ∧ hasSkippedInitialEventRef (snd (fst r)) = hasSkippedInitialEventRef (snd c)
      ∧ lastSpeechKeyRef (snd (fst r)) = Z.of_nat (nagRefreshKey (fst c))
  | SkippedInitial =>
      pendingSpeechKeyRef (fst c) = Some (nagRefreshKey (fst c))
      ∧ pendingSpeechKeyRef (fst (fst r)) = None
      ∧ hasSkippedInitialEventRef (snd c) = false
      ∧ hasSkippedInitialEventRef (snd (fst r)) = true
      ∧ lastSpeechKeyRef (snd (fst r)) = Z.of_nat (nagRefreshKey (fst c))
  | Dispatched _ =>
      pendingSpeechKeyRef (fst c) = Some (nagRefreshKey (fst c))
      ∧ pendingSpeechKeyRef (fst (fst r)) = None
      ∧ hasSkippedInitialEventRef (snd (fst r)) = true
      ∧ lastSpeechKeyRef (snd (fst r)) = Z.of_nat (nagRefreshKey (fst c))
  end.
Proof.
  unfold dispatchEffect. cbn zeta. destruct c as [ss [h i p l ld]].
  cbn [fst snd].
  destruct (shouldShowNag ss) eqn:Hs; [|done].
  destruct msg as [m|]; [|done].
  destruct (_ || _); [done|].
  destruct (bool_decide (_ ≠ sel)); [done|].
  cbn [setPrevStyle lastLoadedKeyRef lastSpeechKeyRef hasSkippedInitialEventRef].
  destruct (bool_decide (pendingSpeechKeyRef ss = _)) eqn:E1; [|done].
  apply bool_decide_eq_true in E1.
  destruct (_ && _) eqn:E2; [|done].
  destruct h; cbn [negb andb].
  - done.
  - by destruct (shouldSkipInitial _ _ _).
Qed.

Lemma cardStep_accounting todo c ev :
  let r := cardStep todo c ev in
  ((if handlesAlert (snd r) then 1 else 0) + pendingAlerts (fst r)
   ≤ (if raisesAlert (snd r) then 1 else 0) + pendingAlerts c)%nat.
Proof.
  destruct ev as [now| |now sel msg n s]; cbn [cardStep fst snd handlesAlert].
  - destruct (calc_refresh todo now (fst c)) as [_ Hpend].
    unfold pendingAlerts. cbn [fst]. rewrite Hpend.
    destruct (snd (calc todo now (fst c))); cbn; [lia|].
    destruct (pendingSpeechKeyRef (fst c)); lia.
  - unfold pendingAlerts. cbn. lia.
  - pose proof (dispatchEffect_outcome todo now sel msg n s c) as H.
    cbn zeta in H. unfold pendingAlerts.
    destruct (snd (dispatchEffect _ _ _ _ _ _ _)); cbn.
    + destruct H as (-> & _). lia.
    + destruct H as (-> & _). lia.
    + destruct H as (-> & -> & _). lia.
    + destruct H as (-> & -> & _). lia.
Qed.

Lemma count_cons (f : CardOutput → bool) o outs :
  count f (o :: outs) = ((if f o then 1 else 0) + count f outs)%nat.
Proof. unfold count. cbn. by destruct (f o). Qed.

Lemma cardRun_accounting todo evs : ∀ c,
  (count handlesAlert (snd (cardRun todo evs c))
   + pendingAlerts (fst (cardRun todo evs c))
   ≤ count raisesAlert (snd (cardRun todo evs c)) + pendingAlerts c)%nat.
Proof.
  induction evs as [|ev rest IH]; intros c; [cbn; lia|].
  cbn [cardRun fst snd]. rewrite !count_cons.
  pose proof (cardStep_accounting todo c ev) as Hstep. cbn zeta in Hstep.
  specialize (IH (fst (cardStep todo c ev))). lia.
Qed.

(** X5.  Between two resets the effect takes an alert -- dispatches it or
    suppresses it as the initial one -- at most once for every tick that
    raised one: no alert is notified or spoken twice, and without a tick
    that raises an alert nothing is dispatched at all. *)
Theorem alert_is_taken_at_most_once_per_raising_tick todo evs c :
  pendingSpeechKeyRef (fst c) = None →
  (count handlesAlert (snd (cardRun todo evs c))
   ≤ count raisesAlert (snd (cardRun todo evs c)))%nat.
Proof.
  intros Hp. pose proof (cardRun_accounting todo evs c) as H.
  unfold pendingAlerts at 2 in H. rewrite Hp in H. lia.
Qed.

Lemma cardStep_skipped todo c ev :
  let r := cardStep todo c ev in
  (hasSkippedInitialEventRef (snd c) = true →
   hasSkippedInitialEventRef (snd (fst r)) = true ∧ isSkip (snd r) = false)
  ∧ (handlesAlert (snd r) = true →
     hasSkippedInitialEventRef (snd (fst r)) = true).
Proof.
  destruct ev as [now| |now sel msg n s];
    cbn [cardStep fst snd handlesAlert isSkip].
  - split; [by intros ->|done].
  - split; [|done]. intros H. split; [|done]. by destruct c as [ss []].
  - pose proof (dispatchEffect_outcome todo now sel msg n s c) as H.
    cbn zeta in H.
    destruct (snd (dispatchEffect _ _ _ _ _ _ _)); cbn.
    + destruct H as (_ & -> & _). split; [done|done].
    + destruct H as (_ & -> & _). split; [done|done].
    + destruct H as (_ & _ & Hf & Ht & _). split; [by rewrite Hf|done].
    + destruct H as (_ & _ & Ht & _). split; [done|done].
Qed.

Lemma skipped_run_never_skips todo evs : ∀ c,
  hasSkippedInitialEventRef (snd c) = true →
  forallb (λ o, negb (isSkip o)) (snd (cardRun todo evs c)) = true.
Proof.
  induction evs as [|ev rest IH]; intros c Hs; [done|].
  cbn [cardRun snd forallb].
  destruct (cardStep_skipped todo c ev) as [H _].
  destruct (H Hs) as [Hs' ->]. cbn. by apply IH.
Qed.

(** X6.  Between two resets at most one alert is suppressed as the initial
    one, and only the first alert the effect takes can be: once an alert
    was dispatched or suppressed, no later one is suppressed. *)
Theorem only_the_first_taken_alert_can_be_suppressed todo evs c :
  skipOnlyFirst (snd (cardRun todo evs c)) = true
  ∧ (count isSkip (snd (cardRun todo evs c)) ≤ 1)%nat.
Proof.
  revert c. induction evs as [|ev rest IH]; intros c; [cbn; split; [done|lia]|].
  cbn [cardRun snd skipOnlyFirst]. rewrite count_cons.
  destruct (cardStep_skipped todo c ev) as [_ H].
  destruct (handlesAlert (snd (cardStep todo c ev))) eqn:Hh.
  - pose proof (skipped_run_never_skips todo rest _ (H eq_refl)) as Hno.
    split; [done|].
    assert (Hz : count isSkip (snd (cardRun todo rest (fst (cardStep todo c ev))))
                 = 0%nat).
    { revert Hno. generalize (snd (cardRun todo rest (fst (cardStep todo c ev)))).
      intros l. induction l as [|o l IHl]; [done|]. cbn [forallb].
      intros Hall. apply andb_true_iff in Hall as [Ho Hall].
      rewrite count_cons, (IHl Hall). apply negb_true_iff in Ho. by rewrite Ho. }
    rewrite Hz. destruct (isSkip _); lia.
  - destruct (IH (fst (cardStep todo c ev))) as [IH1 IH2].
    split; [done|].
    assert (Hs : isSkip (snd (cardStep todo c ev)) = false).
    { destruct (snd (cardStep todo c ev)) as [|[]]; try done. }
    rewrite Hs. lia.
Qed.

(** A tick that sees the tier 안전 reports nothing. *)
Lemma tick_in_safe_is_silent todo now diff st :
  toCanonicalPriority
    (calculateLocalPriority (deadline todo) (estimatedTime todo) now) = SAFE →
  snd (evaluateSchedule todo now diff st) = [].
Proof.
  unfold evaluateSchedule. destruct (isCompleted todo); [done|].
  generalize (calculateLocalPriority (deadline todo) (estimatedTime todo) now).
  intros livePriority Hl. rewrite Hl.
  destruct (toCanonicalPriority (prevPriorityRef st)); eval_closed_tiers; done.
Qed.

Lemma cardStep_keysInOrder todo c ev :
  keysInOrder c → keysInOrder (fst (cardStep todo c ev)).
Proof.
  unfold keysInOrder. intros Hinv.
  destruct ev as [now| |now sel msg n s]; cbn [cardStep fst snd].
  - destruct (calc_refresh todo now (fst c)) as [-> _]. lia.
  - by destruct c as [ss []].
  - destruct (dispatchEffect_scheduler todo now sel msg n s c) as (_ & _ & Hk).
    pose proof (dispatchEffect_outcome todo now sel msg n s c) as H.
    cbn zeta in H, Hk. rewrite Hk.
    destruct (snd (dispatchEffect _ _ _ _ _ _ _)).
    + destruct H as (_ & _ & ->). done.
    + destruct H as (_ & _ & ->). lia.
    + destruct H as (_ & _ & _ & _ & ->). lia.
    + destruct H as (_ & _ & _ & ->). lia.
Qed.

Lemma resetForTask_keysInOrder todo now c : keysInOrder (resetForTask todo now c).
Proof. destruct c as [ss []]. unfold keysInOrder. cbn. lia. Qed.

Lemma cardRun_invariants todo evs : ∀ c,
  nagShownAsTier todo (fst c) → keysInOrder c →
  nagShownAsTier todo (fst (fst (cardRun todo evs c)))
  ∧ keysInOrder (fst (cardRun todo evs c)).
Proof.
  induction evs as [|ev rest IH]; intros c H1 H2; [done|].
  cbn [cardRun fst]. apply IH.
  - by apply cardStep_keeps_nagShown.
  - by apply cardStep_keysInOrder.
Qed.

(** X7.  An alert raised by a tick on an open task is taken as soon as its
    message has loaded: when the effect then runs with an unchanged style
    and a non-empty message, it either suppresses the alert as the initial
    one or dispatches it -- a notification if notifications are on, a
    speech request if speech is on -- and in both cases the alert is no
    longer pending. *)
Theorem raised_alert_is_taken_when_its_message_loads
    todo now0 c0 evs now now' msg (notif speech : bool) :
  isCompleted todo = false → msg ≠ "" →
  let c := fst (cardRun todo evs (resetForTask todo now0 c0)) in
  let t := calc todo now (fst c) in
  snd t ≠ [] →
  let r := dispatchEffect todo now' (prevStyleRef (snd c)) (Some msg)
             notif speech (messageLoaded (fst t, snd c)) in
  (snd r = SkippedInitial
   ∨ snd r = Dispatched
               ((if notif then [Notify msg] else [])
                ++ (if speech then [OnSpeak msg (prevStyleRef (snd c))] else [])))
  ∧ pendingSpeechKeyRef (fst (fst r)) = None
  ∧ lastSpeechKeyRef (snd (fst r)) = Z.of_nat (nagRefreshKey (fst t)).
Proof.
  intros Hopen Hmsg c t Hev r.
  destruct (cardRun_invariants todo evs (resetForTask todo now0 c0))
    as [Hnag Hkeys]; [done|apply resetForTask_keysInOrder|].
  fold c in Hnag, Hkeys.
  assert (Hnag' : nagShownAsTier todo (fst t))
    by (by apply calc_keeps_nagShown).
  destruct (calc_refresh todo now (fst c)) as [Hkey Hpend].
  fold t in Hkey, Hpend.
  assert (Hshow : shouldShowNag (fst t) = true).
  { unfold nagShownAsTier in Hnag'. rewrite Hnag', Hopen. cbn.
    apply bool_decide_eq_true. subst t. unfold calc in *.
    destruct (deadline todo) as [d|] eqn:Hd; [|done].
    rewrite tick_remembers_live_tier by done. intros Hsafe.
    apply Hev. by apply tick_in_safe_is_silent. }
  assert (Hpending : pendingSpeechKeyRef (fst t) = Some (nagRefreshKey (fst t)))
    by (rewrite Hpend; by destruct (snd t)).
  assert (Hlast : lastSpeechKeyRef (snd c) ≠ Z.of_nat (nagRefreshKey (fst t))).
  { unfold keysInOrder in Hkeys. rewrite Hkey.
    destruct (snd t); [done|]. cbn [length]. lia. }
  subst r. clearbody t c. clear Hnag Hnag' Hkeys Hkey Hpend Hev.
  destruct c as [ss [h i p l ld]], t as [st evs']. cbn [fst snd] in *.
  unfold dispatchEffect, messageLoaded.
  cbn [fst snd setLastLoadedKey prevStyleRef lastLoadedKeyRef lastSpeechKeyRef
       hasSkippedInitialEventRef setPrevStyle].
  rewrite Hshow, Hpending. cbn [default negb orb].
  rewrite (bool_decide_eq_false_2 (msg = "")) by done.
  rewrite Hopen. cbn [orb].
  rewrite (bool_decide_eq_false_2 (p ≠ p)) by (intros H; by apply H).
  rewrite !(bool_decide_eq_true_2 (Some _ = Some _)) by done.
  rewrite (bool_decide_eq_true_2 (l ≠ _)) by done.
  cbn [andb].
  destruct (negb h && _); cbn; rewrite ?andb_true_r.
  - split; [by left|done].
  - split; [by right|done].
Qed.

End CardRuns.

Section NagRules.
Import CardLife.

Lemma append_assoc (a b c : string) : (a +:+ b) +:+ c = a +:+ b +:+ c.
Proof.
  induction a as [|x a IH]; [done|].
  change (String x ((a +:+ b) +:+ c) = String x (a +:+ b +:+ c)).
  by rewrite IH.
Qed.

(** X8.  The text of a duration names it rounded down to whole minutes:
    days, hours below 24 and minutes below 60 that add up to the absolute
    duration to within a minute.  Zero days are left out, zero hours are
    left out unless days are shown, the minutes are always shown, and a
    negative duration gets a leading minus sign. *)
Theorem formatDuration_names_days_hours_minutes (ms : Z) :
  ∃ d h m : Z,
    0 ≤ d ∧ 0 ≤ h < 24 ∧ 0 ≤ m < 60
    ∧ d * Nag.ONE_DAY + h * Nag.ONE_HOUR + m * Nag.ONE_MINUTE ≤ Z.abs ms
      < d * Nag.ONE_DAY + h * Nag.ONE_HOUR + (m + 1) * Nag.ONE_MINUTE
    ∧ Nag.formatDuration ms
      = (if ms <? 0 then "-" else "")
        +:+ (if bool_decide (d ≠ 0) then pretty d +:+ "일 " else "")
        +:+ (if bool_decide (d ≠ 0 ∨ h ≠ 0) then pretty h +:+ "시간 " else "")
        +:+ pretty m +:+ "분".
Proof.
  set (a := Z.abs ms).
  exists (a / Nag.ONE_DAY), ((a mod Nag.ONE_DAY) / Nag.ONE_HOUR),
         ((a mod Nag.ONE_HOUR) / Nag.ONE_MINUTE).
  assert (Ha : 0 ≤ a) by (subst a; lia).
  unfold Nag.ONE_DAY, Nag.ONE_HOUR, Nag.ONE_MINUTE.
  split_and!; try (Z.to_euclidean_division_equations; lia).
  unfold Nag.formatDuration. fold a.
  unfold Nag.ONE_DAY, Nag.ONE_HOUR, Nag.ONE_MINUTE.
  set (d := a / _). set (h := _ / _). set (m := _ / _).
  assert (E : (if ms <? 0 then "-" else "") +:+
              String.concat " "
                ((if bool_decide (d ≠ 0) then [pretty d +:+ "일"] else [])
                 ++ (if bool_decide (h ≠ 0) || bool_decide (d ≠ 0)
                     then [pretty h +:+ "시간"] else [])
                 ++ [pretty m +:+ "분"])
              = (if ms <? 0 then "-" else "")
                +:+ (if bool_decide (d ≠ 0) then pretty d +:+ "일 " else "")
                +:+ (if bool_decide (d ≠ 0 ∨ h ≠ 0) then pretty h +:+ "시간 " else "")
                +:+ pretty m +:+ "분").
  { f_equal.
    destruct (decide (d = 0)) as [Hd|Hd], (decide (h = 0)) as [Hh|Hh].
    - rewrite !(bool_decide_eq_false_2 (_ ≠ 0)) by (intros H; by apply H).
      rewrite (bool_decide_eq_false_2 (_ ∨ _)) by (intros [H|H]; by apply H).
      done.
    - rewrite (bool_decide_eq_false_2 (d ≠ 0)) by (intros H; by apply H).
      rewrite (bool_decide_eq_true_2 (h ≠ 0)) by done.
      rewrite (bool_decide_eq_true_2 (_ ∨ _)) by (by right).
      cbn. rewrite !append_assoc. reflexivity.
    - rewrite (bool_decide_eq_true_2 (d ≠ 0)) by done.
      rewrite (bool_decide_eq_false_2 (h ≠ 0)) by (intros H; by apply H).
      rewrite (bool_decide_eq_true_2 (_ ∨ _)) by (by left).
      cbn. rewrite !append_assoc. reflexivity.
    - rewrite (bool_decide_eq_true_2 (d ≠ 0)) by done.
      rewrite (bool_decide_eq_true_2 (h ≠ 0)) by done.
      rewrite (bool_decide_eq_true_2 (_ ∨ _)) by (by left).
      cbn. rewrite !append_assoc. reflexivity. }
  rewrite <- E. by destruct (ms <? 0).
Qed.

(** The card's tier is 안전 exactly when more than 24 hours are left. *)
Lemma tier_safe_iff d e now :
  toCanonicalPriority (Card.calculateLocalPriority (Some d) e now) = SAFE
  ↔ 24 * HOUR_MS < d - now.
Proof.
  unfold Card.calculateLocalPriority. cbn zeta.
  assert (Hq : ∀ n : Z,
             Qle_bool (remainingHours d now) (inject_Z n) = true
             ↔ d - now ≤ n * HOUR_MS).
  { intros n. rewrite Qle_bool_iff. unfold remainingHours, HOUR_MS.
    rewrite <- (Qmult_le_r _ _ (inject_Z (60 * 60 * 1000))) by (by vm_compute).
    unfold Qdiv. rewrite <- Qmult_assoc.
    rewrite (Qmult_comm (/ _)), Qmult_inv_r by (by vm_compute).
    rewrite Qmult_1_r, <- inject_Z_mult, <- Zle_Qle. lia. }
  destruct (Qle_bool _ 0) eqn:E0.
  { apply (Hq 0) in E0. cbn. split; [done|]. unfold HOUR_MS in *. lia. }
  destruct (Qle_bool _ (inject_Z 6)) eqn:E6.
  { apply (Hq 6) in E6. cbn. split; [done|]. unfold HOUR_MS in *. lia. }
  destruct (Qle_bool _ (inject_Z 24)) eqn:E24.
  { apply (Hq 24) in E24. cbn. split; [done|]. lia. }
  cbn. split; [intros _|done].
  destruct (decide (d - now ≤ 24 * HOUR_MS)) as [H|H]; [|lia].
  apply (Hq 24) in H. congruence.
Qed.

(** X9.  For a task with a deadline the nag rule of the card is CRITICAL
    exactly when the tier the card computes at the same clock read is not
    안전 (the rule's one day is the classifier's 24 hours); for a task
    without a deadline the rule is CRITICAL although the tier is 안전,
    because the payload puts its due date one hour ahead. *)
Theorem nag_rule_critical_iff_tier_not_safe name todo now now' :
  (∀ d, deadline todo = Some d →
     (Nag.determineNagRule (nagPayload name todo now) now' = Nag.CRITICAL
      ↔ toCanonicalPriority
          (Card.calculateLocalPriority (deadline todo) (estimatedTime todo) now')
        ≠ SAFE))
  ∧ (deadline todo = None → now ≤ now' →
     Nag.determineNagRule (nagPayload name todo now) now' = Nag.CRITICAL
     ∧ toCanonicalPriority
         (Card.calculateLocalPriority (deadline todo) (estimatedTime todo) now')
       = SAFE).
Proof.
  split.
  - intros d Hd. rewrite Hd, tier_safe_iff.
    unfold Nag.determineNagRule, nagPayload. cbn [Nag.dueDate Nag.createdAt].
    rewrite Hd. cbn [default from_option id]. unfold Nag.ONE_DAY, Nag.ONE_HOUR, Nag.ONE_MINUTE, HOUR_MS.
    destruct (Z.leb_spec (d - now') (24 * (60 * (60 * 1000)))).
    + split; [lia|done].
    + split; [|lia]. by destruct (_ >=? _).
  - intros Hd Hle. rewrite Hd. split; [|done].
    unfold Nag.determineNagRule, nagPayload. cbn [Nag.dueDate Nag.createdAt].
    rewrite Hd. cbn [default from_option id]. unfold Nag.ONE_DAY, Nag.ONE_HOUR, Nag.ONE_MINUTE.
    destruct (Z.leb_spec (now + 60 * 60 * 1000 - now') (24 * (60 * (60 * 1000))));
      [done|lia].
Qed.

(** X10.  As time passes the nag rule of a task only grows more pressing:
    from NORMAL to PROCRASTINATING to CRITICAL, never back. *)
Theorem nag_rule_never_relaxes (todo : Nag.TodoItem) (now now' : Z) :
  now ≤ now' →
  Nag.pressure (Nag.determineNagRule todo now)
  ≤ Nag.pressure (Nag.determineNagRule todo now').
Proof.
  intros Hle. unfold Nag.determineNagRule. cbn zeta.
  destruct (Z.leb_spec (Nag.dueDate todo - now) Nag.ONE_DAY),
           (Z.leb_spec (Nag.dueDate todo - now') Nag.ONE_DAY),
           (Z.geb_spec (now - Nag.createdAt todo) (2 * Nag.ONE_DAY)),
           (Z.geb_spec (now' - Nag.createdAt todo) (2 * Nag.ONE_DAY));
    cbn; lia.
Qed.

(** X11.  As time passes the tier of a task only grows more urgent: the
    sort weight that App computes for it never increases. *)
Theorem tier_never_relaxes dl e (now now' : Z) :
  now ≤ now' →
  AppList.prioritySortWeight (App.calculatePriority dl e now')
  ≤ AppList.prioritySortWeight (App.calculatePriority dl e now).
Proof.
  intros Hle. destruct dl as [d|]; [|done].
  unfold App.calculatePriority, App.CRITICAL_THRESHOLD_HOURS,
    App.WARNING_THRESHOLD_HOURS. cbn zeta.
  pose proof (remainingHours_antitone d now now' Hle) as Hrh.
  assert (Hmono : ∀ q, Qle_bool (remainingHours d now) q = true →
                       Qle_bool (remainingHours d now') q = true).
  { intros q H. apply Qle_bool_iff. apply Qle_bool_iff in H.
    by apply Qle_trans with (remainingHours d now). }
  destruct (Qle_bool (remainingHours d now) 0) eqn:E0.
  { by rewrite (Hmono _ E0). }
  destruct (Qle_bool (remainingHours d now) (inject_Z 6)) eqn:E6.
  { rewrite (Hmono _ E6).
    destruct (Qle_bool (remainingHours d now') 0); by vm_compute. }
  destruct (Qle_bool (remainingHours d now) (inject_Z 24)) eqn:E24.
  { rewrite (Hmono _ E24).
    destruct (Qle_bool (remainingHours d now') 0),
             (Qle_bool (remainingHours d now') (inject_Z 6)); by vm_compute. }
  destruct (Qle_bool (remainingHours d now') 0),
           (Qle_bool (remainingHours d now') (inject_Z 6)),
           (Qle_bool (remainingHours d now') (inject_Z 24)); by vm_compute.
Qed.

End NagRules.

Section FormProperties.
Import App Forms.

Variable trim : string → string.
Variable dateOfString : string → JsDate.
Variable numberOf : string → JsNumber.

(** X12.  What the edit form lets through to the data store: when
    [handleEditSubmit] accepts the form and [handleUpdateTodo] writes, the
    name is the trimmed input and not empty, the deadline is absent or a
    valid date, and the estimate is absent or a finite number that is not
    negative.  (An estimate of +Infinity passes the form and is stored as
    absent.) *)
Theorem edit_form_stores_only_sane_values (editForm : FormState)
    (updates : Updates) (doc : UpdateDoc) :
  handleEditSubmit trim dateOfString numberOf editForm = Submitted updates →
  handleUpdateTodo trim numberOf true updates = Some doc →
  docName doc = trim (name editForm) ∧ docName doc ≠ ""
  ∧ (docDeadline doc = None
     ∨ ∃ t, docDeadline doc = Some (DateOf t)
            ∧ dateOfString (deadline editForm) = DateOf t)
  ∧ (docEstimatedTime doc = None
     ∨ ∃ q, docEstimatedTime doc = Some (Finite q) ∧ (0 <= q)%Q).
Proof.
  unfold handleEditSubmit, handleUpdateTodo, validOrNull, asValue. cbn zeta.
  case_bool_decide as Hname; [done|].
  destruct (match _ with Some d => isInvalid d | None => false end)
    eqn:Hdate; [done|].
  destruct (match _ with Some n => isNaN n || ltZero n | None => false end)
    eqn:Hest; [done|].
  intros [= <-] [= <-].
  cbn [docName docDeadline docEstimatedTime updatedName updatedDeadline
       updatedEstimatedTime negb].
  split_and!; [done|done| |].
  - case_bool_decide; [by left|]. cbn in *.
    destruct (dateOfString _) as [|t]; [done|]. right. by exists t.
  - destruct (_ <? _)%nat; cbn; [|by left].
    destruct (numberOf _) as [|neg|q]; cbn in *; [by left|by left|].
    right. exists q. split; [done|]. by apply Qltb_false.
Qed.

(** X13.  What the input form of a new task lets through to the data
    store: a form whose name is blank is refused; otherwise the document
    that [handleAddTodo] adds has the trimmed name, a deadline that is
    absent or a valid date, an estimate that is absent or a finite number,
    no completion date, and as its priority the answer of the classifier
    for the stored deadline at that moment. *)
Theorem add_form_stores_only_finite_values (form : FormState)
    (userId : string) (now : Z) :
  userId ≠ "" →
  match handleSubmit trim dateOfString numberOf form now with
  | FormError _ => trim (name form) = ""
  | Submitted payload =>
      ∃ doc, handleAddTodo trim numberOf true (Some userId) now payload
             = Some doc
        ∧ addedName doc = trim (name form) ∧ addedName doc ≠ ""
        ∧ (addedDeadline doc = None ∨ ∃ t, addedDeadline doc = Some (DateOf t))
        ∧ (addedEstimatedTime doc = None
           ∨ ∃ q, addedEstimatedTime doc = Some (Finite q))
        ∧ addedCompletedAt doc = None
        ∧ addedCreatedAt doc = DateOf now
        ∧ addedPriority doc
          = calculatePriority (timeOf (addedDeadline doc))
              (hoursOf (addedEstimatedTime doc)) now
  end.
Proof.
  intros Huser.
  unfold handleSubmit, handleAddTodo, validOrNull, asValue. cbn zeta.
  cbn [newName]. case_bool_decide as Hname; [done|].
  destruct userId as [|c u]; [done|]. cbn [negb].
  eexists. split; [done|].
  cbn [addedName addedDeadline addedEstimatedTime addedPriority addedCreatedAt
       addedCompletedAt newName newDeadline newEstimatedTime newCreatedAt
       default from_option id].
  split_and!; [done|done| | |done|done|done].
  - case_bool_decide; [by left|].
    destruct (dateOfString _) as [|t]; cbn; [by left|]. right. by exists t.
  - case_bool_decide; [by left|].
    destruct (numberOf _) as [|neg|q]; cbn; [by left|by left|].
    right. by exists q.
Qed.

End FormProperties.

Section DeleteButton.
Import Forms.

Lemma clicks_snoc evs ev :
  clicks (evs ++ [ev])
  = (clicks evs + match ev with Click => 1 | _ => 0 end)%nat.
Proof.
  unfold clicks. rewrite List.filter_app, length_app. by destruct ev.
Qed.

(** X14.  Deleting takes two clicks: after any sequence of clicks and
    timer expiries on a card, every call of [deleteTodo] is paid for by two
    clicks of its own, the button is armed exactly while its timer is
    pending, and a click on a button that is not armed never deletes. *)
Theorem delete_takes_two_clicks (evs : list DeleteEvent) :
  let st := foldl deleteStep unarmed evs in
  (2 * deleteCalls st + (if isConfirming st then 1 else 0) ≤ clicks evs)%nat
  ∧ (isConfirming st = true ↔ is_Some (resetTimerRef st))
  ∧ (isConfirming st = false →
     deleteCalls (deleteStep st Click) = deleteCalls st).
Proof.
  cbn zeta. induction evs as [|ev evs IH] using rev_ind.
  - cbn. split_and!; [lia| |done]. split; [done|]. by intros [? ?].
  - rewrite foldl_app, clicks_snoc. cbn [foldl].
    destruct IH as (IH1 & IH2 & _).
    set (st := foldl deleteStep unarmed evs) in *.
    assert (H :
      (2 * deleteCalls (deleteStep st ev)
       + (if isConfirming (deleteStep st ev) then 1 else 0)
       ≤ clicks evs + match ev with Click => 1 | _ => 0 end)%nat
      ∧ (isConfirming (deleteStep st ev) = true
         ↔ is_Some (resetTimerRef (deleteStep st ev)))).
    { destruct ev as [|timer]; cbn [deleteStep]; unfold handleDeleteClick.
      - destruct (isConfirming st); cbn in *; (split; [lia|]).
        + split; [done|]. by intros [? ?].
        + split; [by eexists|done].
      - case_bool_decide; cbn.
        + split; [destruct (isConfirming st); lia|].
          split; [done|]. by intros [? ?].
        + split; [lia|done]. }
    destruct H as [H1 H2]. split_and!; [done|done|].
    intros Hc. unfold deleteStep at 1, handleDeleteClick. by rewrite Hc.
Qed.

End DeleteButton.

Section SpeechCacheProperties.
Import App SpeechCache.

Implicit Types (st : SpeechState) (f g : Flight) (job j : SpeechQueueItem).

Lemma startAudio_cache job st :
  speechCacheRef (startAudio job st) = speechCacheRef st.
Proof. by destruct st. Qed.

Lemma beginAttempt_cache job st :
  speechCacheRef (beginAttempt job st) = speechCacheRef st.
Proof.
  unfold beginAttempt.
  destruct (speechCacheRef st !! cacheKey job) as [url|];
    [case_bool_decide|]; by destruct st.
Qed.

Lemma flush_cache b st :
  speechCacheRef (flushSpeechQueue b st) = speechCacheRef st.
Proof.
  unfold flushSpeechQueue. destruct (_ || _); [done|].
  destruct (speechQueueRef st) as [|job rest]; [done|].
  rewrite beginAttempt_cache. by destruct st.
Qed.

Lemma finally_cache st : speechCacheRef (finally_ st) = speechCacheRef st.
Proof.
  unfold finally_.
  destruct (speechQueueRef (setSpeaking false st)) as [|job rest] eqn:E;
    [by destruct st|].
  rewrite flush_cache. by destruct st.
Qed.

Lemma settle_cache f how st :
  speechCacheRef (settle f how st) = speechCacheRef st.
Proof. by destruct st. Qed.

Lemma pauseCurrent_cache st :
  speechCacheRef (pauseCurrent st) = speechCacheRef st.
Proof. unfold pauseCurrent. destruct (audioRef st); by destruct st. Qed.

Lemma handleSpeak_cache sel msg sty intr st :
  speechCacheRef (fst (handleSpeak sel msg sty intr st)) = speechCacheRef st.
Proof.
  unfold handleSpeak. destruct (_ || _); [done|]. cbn [fst].
  rewrite flush_cache. destruct intr.
  - pose proof (pauseCurrent_cache (setQueue [] st)) as H.
    destruct (pauseCurrent (setQueue [] st)) eqn:E. cbn in *.
    rewrite H. by destruct st.
  - by destruct st.
Qed.

(** The cache only grows: a clip that is cached stays cached. *)
Lemma step_keeps_clip k st ev : hasClip k st → hasClip k (step st ev).
Proof.
  intros (url & Hk & Hne).
  destruct ev as [sel msg sty intr|id r|a|a|a|b]; cbn [step].
  - exists url. by rewrite handleSpeak_cache.
  - destruct (fetchingOf id st) as [f|]; [|by exists url].
    destruct r as [|format audioBase64].
    + exists url. by rewrite finally_cache, settle_cache.
    + unfold hasClip. cbn zeta. rewrite startAudio_cache.
      destruct (decide (k = cacheKey (flightJob f))) as [->|Hk'].
      * eexists. split; [destruct st; cbn; apply lookup_insert_eq|done].
      * exists url. split; [|done]. destruct st; cbn in *.
        by rewrite lookup_insert_ne.
  - destruct (playingOf a st); [|by exists url].
    exists url. rewrite finally_cache, settle_cache. by destruct st.
  - destruct (waitingOn a st); [|by exists url].
    exists url. rewrite finally_cache, settle_cache. by destruct st.
  - destruct (waitingOn a st); [|by exists url].
    exists url. rewrite finally_cache, settle_cache. by destruct st.
  - case_bool_decide; [by exists url|]. destruct b.
    + exists url. rewrite flush_cache. by destruct st.
    + exists url. rewrite pauseCurrent_cache. by destruct st.
Qed.

Lemma run_keeps_clip k evs : ∀ st, hasClip k st → hasClip k (run st evs).
Proof.
  induction evs as [|ev evs IH]; intros st H; [done|].
  cbn. apply IH. by apply step_keeps_clip.
Qed.

(** The answer of the endpoint puts the clip of its job into the cache. *)
Lemma answer_caches_clip st id f format audioBase64 :
  fetchingOf id st = Some f →
  hasClip (cacheKey (flightJob f))
    (step st (FetchDone id (FetchOk format audioBase64))).
Proof.
  intros Hf. cbn [step]. rewrite Hf. unfold hasClip. cbn zeta.
  rewrite startAudio_cache.
  eexists. split; [destruct st; cbn; apply lookup_insert_eq|done].
Qed.

(** X15.  A line is synthesised once: after the endpoint has answered for
    a job, and whatever has happened since, a call of [handleSpeak] for
    the same text in the same style on an idle queue sends no request --
    the clip is taken from the cache and played at once. *)
Theorem synthesised_line_is_spoken_from_cache
    st (n0 : nat) f format audioBase64 (evs : list Event) sel :
  fetchingOf n0 st = Some f →
  let line := flightJob f in
  let st' := run (step st (FetchDone n0 (FetchOk format audioBase64))) evs in
  speechEnabled st' = true → isSpeakingRef st' = false →
  speechQueueRef st' = [] → message line ≠ "" →
  let r := handleSpeak sel (message line) (Some (style line)) false st' in
  flights (fst r)
  = flights st'
    ++ [Playing {| jobId := nextJob st'; message := message line;
                   style := style line |} (length (played st'))]
  ∧ played (fst r) = played st' ++ [nextJob st']
  ∧ speechCacheRef (fst r) = speechCacheRef st'.
Proof.
  intros Hf line st' Hen Hsp Hq Hmsg r.
  assert (Hclip : hasClip (cacheKey line) st')
    by (by apply run_keeps_clip, answer_caches_clip).
  destruct Hclip as (url & Hk & Hne).
  subst r. unfold handleSpeak.
  rewrite Hen, (bool_decide_eq_false_2 _ Hmsg). cbn [negb orb fst default from_option id].
  clearbody st' line. clear Hf.
  destruct st' as [e q s au c fl so n p se]; cbn in *. subst.
  unfold flushSpeechQueue; cbn. unfold beginAttempt; cbn.
  change (cacheKey {| jobId := n; message := message line; style := style line |})
    with (cacheKey line).
  rewrite Hk, (bool_decide_eq_false_2 _ Hne). done.
Qed.

End SpeechCacheProperties.

Section SpeechInterruptions.
Import App.

Implicit Types (st : SpeechState) (f g : Flight) (job j : SpeechQueueItem).

(** In a queue that ran without interruption the ids of the jobs are
    distinct and below the counter. *)
Lemma tight_ids st :
  Tight st →
  NoDup (jobOrder st) ∧ ∀ i, i ∈ jobOrder st → (i < nextJob st)%nat.
Proof.
  intros (_ & _ & Hord & _). rewrite Hord. split; [apply NoDup_seq|].
  intros i Hi. apply elem_of_seq in Hi. lia.
Qed.

(** A job that waits in such a queue is dropped when the queue is
    emptied. *)
Lemma waiting_job_dropped st st' j :
  Tight st → j ∈ speechQueueRef st →
  settled st' = settled st → flights st' = flights st →
  speechQueueRef st' = [] → nextJob st' = nextJob st →
  Dropped (jobId j) st'.
Proof.
  intros HT Hj Hse Hfl Hq Hn.
  destruct (tight_ids st HT) as [Hnd Hlt].
  unfold jobOrder in Hnd, Hlt.
  apply NoDup_app in Hnd as (_ & Hd1 & Hnd).
  apply NoDup_app in Hnd as (_ & Hd2 & _).
  assert (Hin : jobId j ∈ map jobId (speechQueueRef st))
    by (by apply list_elem_of_fmap_2).
  unfold Dropped. rewrite Hse, Hfl, Hq, Hn. split_and!.
  - intros how Hs. apply (Hd1 (jobId j)).
    + change (jobId j) with (fst (jobId j, how)). by apply list_elem_of_fmap_2.
    + apply elem_of_app. by right.
  - intros f Hf Heq. apply (Hd2 (jobId j)); [|done].
    rewrite <- Heq. by apply (list_elem_of_fmap_2 (λ f, jobId (flightJob f))).
  - intros j' Hj'. by apply elem_of_nil in Hj'.
  - apply Hlt. rewrite !elem_of_app. by right; right.
Qed.

(** X16.  Switching speech off while the queue runs empties the queue and
    silences the clip that plays; the jobs that waited are dropped for
    good -- whatever happens afterwards their promises never settle.  But
    a request to the endpoint that is under way is not cancelled: when its
    answer arrives the clip is played although speech is off. *)
Theorem switching_speech_off_drops_waiting_jobs_not_the_request
    (evs : list Event) :
  forallb plain evs = true →
  let st := run (idle true) evs in
  let st' := step st (SetSpeechEnabled false) in
  speechEnabled st' = false ∧ speechQueueRef st' = []
  ∧ isSpeakingRef st' = false ∧ sounding st' = []
  ∧ (∀ j evs' how,
       j ∈ speechQueueRef st → (jobId j, how) ∉ settled (run st' evs'))
  ∧ (∀ j format audioBase64,
       flights st = [Fetching j] →
       let st'' := step st' (FetchDone (jobId j) (FetchOk format audioBase64)) in
       speechEnabled st'' = false
       ∧ sounding st'' = [length (played st)]
       ∧ played st'' = played st ++ [jobId j]).
Proof.
  intros Hp st st'.
  assert (HT : Tight st) by (apply run_plain_tight; [done|apply idle_tight]).
  assert (Hen : speechEnabled st = true)
    by (unfold st; by rewrite run_plain_enabled).
  pose proof (tight_flights st HT) as Hshape.
  assert (Hst' : st' = pauseCurrent (setSpeaking false (setQueue [] (setEnabled false st)))).
  { subst st'. cbn [step]. rewrite Hen.
    by rewrite (bool_decide_eq_false_2 (false = true)). }
  assert (Hau : ∀ j a, flights st = [Playing j a] → audioRef st = Some a).
  { intros j a Hfl. destruct HT as (_ & Hns & _).
    destruct (Hns j a) as [_ ?]; [rewrite Hfl; left|done]. }
  assert (Hbasic : speechEnabled st' = false ∧ speechQueueRef st' = []
                   ∧ isSpeakingRef st' = false ∧ sounding st' = []
                   ∧ settled st' = settled st ∧ flights st' = flights st
                   ∧ nextJob st' = nextJob st ∧ played st' = played st
                   ∧ speechCacheRef st' = speechCacheRef st).
  { rewrite Hst'. clear Hst'.
    destruct Hshape as [(Hfl & _ & _ & Hso)|[(j & Hfl & _ & Hso)|(j & a & Hfl & _ & Hso)]].
    - destruct st as [e q s au c fl so n p se]; cbn -[filter] in *. subst.
      unfold pauseCurrent; cbn. by destruct au.
    - destruct st as [e q s au c fl so n p se]; cbn -[filter] in *. subst.
      unfold pauseCurrent; cbn. by destruct au.
    - pose proof (Hau j a Hfl) as Ha.
      destruct st as [e q s au c fl so n p se]; cbn -[filter] in *. subst.
      unfold pauseCurrent; cbn -[filter]. by rewrite filter_self. }
  destruct Hbasic as (H1 & H2 & H3 & H4 & H5 & H6 & H7 & H8 & H9).
  split_and!; try done.
  - intros j evs' how Hj.
    eapply (run_dropped (jobId j) evs' st').
    by apply (waiting_job_dropped st).
  - intros j format audioBase64 Hfl. cbn zeta.
    rewrite Hfl in H6. clear Hst'.
    destruct st' as [e q s au c fl so n p se]; cbn -[filter] in *. subst.
    unfold fetchingOf; cbn -[filter].
    rewrite bool_decide_eq_true_2 by done. cbn -[filter].
    done.
Qed.

(** X17.  An interrupt that arrives while the clip of a job is still being
    synthesised does not cancel that request: the new job is taken at
    once, and when the answers have arrived both clips sound at the same
    time. *)
Theorem interrupt_during_synthesis_lets_two_clips_sound
    (evs : list Event) sel (msg : string) (sty : option NagStyle)
    (j1 : SpeechQueueItem) format1 audio1 format4 audio4 :
  forallb plain evs = true →
  flights (run (idle true) evs) = [Fetching j1] →
  msg ≠ "" →
  let st := run (idle true) evs in
  let j4 := {| jobId := nextJob st; message := msg;
               style := default sel sty |} in
  let st1 := fst (handleSpeak sel msg sty true st) in
  let st2 := run st1 [FetchDone (jobId j1) (FetchOk format1 audio1);
                      FetchDone (jobId j4) (FetchOk format4 audio4)] in
  speechQueueRef st1 = []
  ∧ (flights st1 = [Fetching j1; Fetching j4]
     ∨ flights st1 = [Fetching j1; Playing j4 (length (played st))])
  ∧ sounding st2 = [length (played st); S (length (played st))]
  ∧ (played st2 = played st ++ [jobId j1; jobId j4]
     ∨ played st2 = played st ++ [jobId j4; jobId j1]).
Proof.
  intros Hp Hfl Hmsg st j4 st1 st2.
  assert (HT : Tight st) by (apply run_plain_tight; [done|apply idle_tight]).
  assert (Hen : speechEnabled st = true)
    by (unfold st; by rewrite run_plain_enabled).
  fold st in Hfl.
  destruct (tight_ids st HT) as [_ Hlt].
  assert (Hid : (jobId j1 < nextJob st)%nat).
  { apply Hlt. unfold jobOrder. rewrite Hfl. cbn. set_solver. }
  destruct (tight_flights st HT)
    as [(Hfl' & _)|[(j & _ & _ & Hso)|(j & a & Hfl' & _)]]; [congruence| |congruence].
  assert (Hpause : pauseCurrent (setQueue [] st) = setQueue [] st).
  { unfold pauseCurrent. destruct st as [e q s au c fl so n p se]; cbn in *.
    subst. by destruct au. }
  subst st2 st1 j4. unfold handleSpeak.
  rewrite Hen, (bool_decide_eq_false_2 _ Hmsg). cbn [negb orb fst].
  rewrite Hpause. clear Hpause Hp HT Hlt.
  destruct st as [e q s au c fl so n p se]; cbn -[run] in *. subst.
  set (j4 := {| jobId := n; message := msg; style := default sel sty |}).
  assert (Hne : Fetching j4 ≠ Fetching j1).
  { intros [= E]. apply (f_equal jobId) in E. cbn in E. lia. }
  assert (Hj4 : jobId j4 = n) by done.
  clearbody j4.
  match goal with |- context [run ?s _] => set (st1 := s) end.
  assert (Hst1 :
    st1 = mkSpeech true [] true au c [Fetching j1; Fetching j4] [] (S n) p se
    ∨ st1 = mkSpeech true [] true (Some (length p)) c
              [Fetching j1; Playing j4 (length p)] [length p] (S n)
              (p ++ [jobId j4]) se).
  { subst st1. unfold flushSpeechQueue; cbn -[bool_decide].
    unfold beginAttempt; cbn -[bool_decide].
    destruct (c !! cacheKey j4) as [url|]; [case_bool_decide|];
      [by left|by right|by left]. }
  clearbody st1.
  destruct Hst1 as [-> | ->]; cbn -[filter bool_decide];
    unfold fetchingOf; cbn -[filter bool_decide];
    rewrite (bool_decide_eq_true_2 (jobId j1 = jobId j1)) by done;
    cbn -[filter bool_decide];
    rewrite (filter_cons_False _ (Fetching j1)) by (intros H; by apply H).
  - rewrite (filter_cons_True _ (Fetching j4)) by done.
    rewrite filter_nil. cbn -[filter bool_decide].
    rewrite Hj4, (bool_decide_eq_true_2 (n = n)) by done.
    cbn -[filter bool_decide]. rewrite length_app, <- app_assoc. cbn.
    rewrite ?Hj4.
    split_and!; [done|left; reflexivity|f_equal; f_equal; lia|left; reflexivity].
  - rewrite (filter_cons_True _ (Playing j4 _)) by done.
    rewrite filter_nil. cbn. rewrite ?Hj4, length_app, <- app_assoc. cbn.
    rewrite ?Hj4.
    split_and!; [done|right; reflexivity|f_equal; f_equal; lia|right; reflexivity].
Qed.

End SpeechInterruptions.

Section ListOrder.
Import AppList.

Variable localeCompare : string → string → Z.

Hypothesis localeCompare_antisym : ∀ x y,
  Z.sgn (localeCompare y x) = - Z.sgn (localeCompare x y).
Hypothesis localeCompare_trans : ∀ x y z,
  localeCompare x y ≤ 0 → localeCompare y z ≤ 0 → localeCompare x z ≤ 0.

Lemma snapshotOrder_antisym a b :
  Z.sgn (snapshotOrder localeCompare b a)
  = - Z.sgn (snapshotOrder localeCompare a b).
Proof.
  unfold snapshotOrder. cbn zeta.
  generalize (AppList.prioritySortWeight (priority a)),
    (AppList.prioritySortWeight (priority b)). intros wa wb.
  pose proof (localeCompare_antisym (name a) (name b)).
  destruct (completedAt a), (completedAt b); cbn [truthy andb negb];
    try done;
    destruct (Z.eqb_spec (wa - wb) 0), (Z.eqb_spec (wb - wa) 0);
    cbn [negb]; try lia;
    destruct (deadline a), (deadline b); try done; lia.
Qed.

Lemma snapshotOrder_trans a b c :
  snapshotOrder localeCompare a b ≤ 0 →
  snapshotOrder localeCompare b c ≤ 0 →
  snapshotOrder localeCompare a c ≤ 0.
Proof.
  unfold snapshotOrder. cbn zeta.
  generalize (AppList.prioritySortWeight (priority a)),
    (AppList.prioritySortWeight (priority b)),
    (AppList.prioritySortWeight (priority c)). intros wa wb wc.
  pose proof (localeCompare_trans (name a) (name b) (name c)).
  destruct (completedAt a), (completedAt b), (completedAt c);
    cbn [truthy andb negb]; try lia;
    destruct (Z.eqb_spec (wa - wb) 0), (Z.eqb_spec (wb - wc) 0),
             (Z.eqb_spec (wa - wc) 0);
    cbn [negb]; try lia;
    destruct (deadline a), (deadline b), (deadline c); try lia; done.
Qed.

(** X18.  The order of the task list is a proper order whenever the
    comparison of names is: the comparator of the snapshot listener is
    antisymmetric and transitive, so it is a consistent comparator for
    [Array.prototype.sort]; it puts every open task before every completed
    one, and among tasks of the same completion the more urgent tier
    first; and the comparator of [sortedTodos], which has its own table of
    weights, computes the same number. *)
Theorem list_order_is_consistent (a b c : TodoItem) :
  Z.sgn (snapshotOrder localeCompare b a)
  = - Z.sgn (snapshotOrder localeCompare a b)
  ∧ (snapshotOrder localeCompare a b ≤ 0 →
     snapshotOrder localeCompare b c ≤ 0 →
     snapshotOrder localeCompare a c ≤ 0)
  ∧ (completedAt a = None → completedAt b ≠ None →
     snapshotOrder localeCompare a b < 0)
  ∧ (truthy (completedAt a) = truthy (completedAt b) →
     AppList.prioritySortWeight (priority a)
     < AppList.prioritySortWeight (priority b) →
     snapshotOrder localeCompare a b < 0)
  ∧ sortedTodosOrder localeCompare a b = snapshotOrder localeCompare a b.
Proof.
  split_and!.
  - apply snapshotOrder_antisym.
  - apply snapshotOrder_trans.
  - intros Ha Hb. unfold snapshotOrder. rewrite Ha.
    by destruct (completedAt b).
  - intros Hc Hw. unfold snapshotOrder. cbn zeta.
    destruct (completedAt a), (completedAt b); try done; cbn [truthy andb negb];
      destruct (Z.eqb_spec (AppList.prioritySortWeight (priority a)
                            - AppList.prioritySortWeight (priority b)) 0);
      cbn [negb]; lia.
  - unfold sortedTodosOrder, snapshotOrder. cbn zeta.
    by destruct (priority a), (priority b).
Qed.

End ListOrder.

Section Reminders.
Import AppList.

Implicit Types (st : TimerState) (todo : TodoItem)
  (acc : TimerState * list TimerAction).

Lemma scheduleReminder_lookup n now acc todo k :
  notificationTimersRef (fst (scheduleReminder n now acc todo)) !! k
  = match notificationTimersRef (fst acc) !! k with
    | Some t => Some t
    | None =>
        match deadline todo with
        | Some d =>
            if bool_decide (k = id todo)
               && (0 <? d - PRE_DEADLINE_REMINDER_MS - now)
            then Some (timeoutsSet (fst acc))
            else None
        | None => None
        end
    end.
Proof.
  unfold scheduleReminder. cbn zeta.
  destruct (deadline todo) as [d|]; [|by destruct (_ !! k)].
  case_bool_decide as Hhas.
  - destruct (notificationTimersRef (fst acc) !! k) eqn:Hk; [done|].
    case_bool_decide as Heq; [|done]. subst k.
    rewrite Hk in Hhas. by destruct Hhas.
  - destruct (Z.leb_spec (d - PRE_DEADLINE_REMINDER_MS - now) 0) as [Hle|Hgt].
    + destruct (_ !! k); [done|].
      destruct (Z.ltb_spec 0 (d - PRE_DEADLINE_REMINDER_MS - now)); [lia|].
      by rewrite andb_false_r.
    + cbn [fst notificationTimersRef].
      destruct (Z.ltb_spec 0 (d - PRE_DEADLINE_REMINDER_MS - now)); [|lia].
      rewrite andb_true_r. case_bool_decide as Heq.
      * subst k. rewrite lookup_insert_eq.
        destruct (notificationTimersRef (fst acc) !! id todo) eqn:Hk; [|done].
        exfalso. apply Hhas. by eexists.
      * rewrite lookup_insert_ne by done. by destruct (_ !! k).
Qed.

Lemma scheduleReminder_counter n now acc todo :
  (timeoutsSet (fst acc) ≤ timeoutsSet (fst (scheduleReminder n now acc todo)))%nat.
Proof.
  unfold scheduleReminder. cbn zeta.
  destruct (deadline todo); [|done].
  case_bool_decide; [done|]. destruct (_ <=? _); cbn; lia.
Qed.

Lemma scheduleReminder_actions n now acc todo a :
  a ∈ snd acc → a ∈ snd (scheduleReminder n now acc todo).
Proof.
  intros Ha. unfold scheduleReminder. cbn zeta.
  destruct (deadline todo); [|done].
  case_bool_decide; [done|]. destruct (_ <=? _); [done|].
  cbn. apply elem_of_app. by left.
Qed.

(** Through the loop a timer that exists is kept as it is, and a timer
    that appears is a new timeout, set for one of the tasks of the loop
    with the delay up to half an hour before its deadline. *)
Lemma schedule_loop n now (todos : list TodoItem) : ∀ acc k,
  let r := foldl (scheduleReminder n now) acc todos in
  (∀ t, notificationTimersRef (fst acc) !! k = Some t →
        notificationTimersRef (fst r) !! k = Some t)
  ∧ (notificationTimersRef (fst acc) !! k = None →
     ∀ t, notificationTimersRef (fst r) !! k = Some t →
          (timeoutsSet (fst acc) ≤ t)%nat
          ∧ ∃ todo d, todo ∈ todos ∧ id todo = k ∧ deadline todo = Some d
                      ∧ 0 < d - PRE_DEADLINE_REMINDER_MS - now
                      ∧ SetTimeout
                          {| timeoutId := t;
                             triggerAt := d - PRE_DEADLINE_REMINDER_MS - now;
                             remindedTodo := todo;
                             notificationsEnabledThen := n |} ∈ snd r)
  ∧ (timeoutsSet (fst acc) ≤ timeoutsSet (fst r))%nat
  ∧ (∀ a, a ∈ snd acc → a ∈ snd r).
Proof.
  induction todos as [|todo rest IH]; intros acc k; cbn zeta.
  - cbn. split_and!; [done| |done|done]. intros H t Ht. congruence.
  - cbn [foldl].
    destruct (IH (scheduleReminder n now acc todo) k) as (IH1 & IH2 & IH3 & IH4).
    pose proof (scheduleReminder_lookup n now acc todo k) as Hl.
    pose proof (scheduleReminder_counter n now acc todo) as Hc.
    split_and!.
    + intros t Ht. apply IH1. by rewrite Hl, Ht.
    + intros Hnone t Ht. rewrite Hnone in Hl.
      destruct (deadline todo) as [d|] eqn:Hd.
      * destruct (bool_decide (k = id todo) && _) eqn:E.
        -- apply andb_true_iff in E as [E1 E2].
           apply bool_decide_eq_true in E1. apply Z.ltb_lt in E2.
           rewrite (IH1 _ Hl) in Ht. injection Ht as <-.
           split; [done|]. exists todo, d.
           split_and!; [left|done|done|done|].
           apply IH4. unfold scheduleReminder. cbn zeta. rewrite Hd.
           subst k. rewrite Hnone.
           rewrite (bool_decide_eq_false_2 (is_Some None))
             by (by intros [? ?]).
           destruct (Z.leb_spec (d - PRE_DEADLINE_REMINDER_MS - now) 0); [lia|].
           cbn. apply elem_of_app. right. by left.
        -- destruct (IH2 Hl t Ht) as (Hge & todo' & d' & Hin & ?).
           split; [lia|]. exists todo', d'. split_and!; [by right|tauto..].
      * destruct (IH2 Hl t Ht) as (Hge & todo' & d' & Hin & ?).
        split; [lia|]. exists todo', d'. split_and!; [by right|tauto..].
    + lia.
    + intros a Ha. by apply IH4, scheduleReminder_actions.
Qed.

(** A task of the loop whose reminder lies ahead has a timer after it. *)
Lemma schedule_loop_sets n now (todos : list TodoItem) : ∀ acc todo d,
  todo ∈ todos → deadline todo = Some d →
  0 < d - PRE_DEADLINE_REMINDER_MS - now →
  is_Some (notificationTimersRef
             (fst (foldl (scheduleReminder n now) acc todos)) !! id todo).
Proof.
  induction todos as [|todo' rest IH]; intros acc todo d Hin Hd Hgt.
  - by apply elem_of_nil in Hin.
  - cbn [foldl]. apply elem_of_cons in Hin as [->|Hin]; [|by eapply IH].
    destruct (schedule_loop n now rest (scheduleReminder n now acc todo')
                (id todo')) as (Hkeep & _).
    pose proof (scheduleReminder_lookup n now acc todo' (id todo')) as Hl.
    rewrite Hd in Hl. rewrite bool_decide_eq_true_2 in Hl by done.
    destruct (Z.ltb_spec 0 (d - PRE_DEADLINE_REMINDER_MS - now)); [|lia].
    cbn [andb] in Hl.
    destruct (notificationTimersRef (fst acc) !! id todo') as [t|];
      eexists; by apply Hkeep.
Qed.

Lemma isPending_spec todo :
  isPending todo = true
  ↔ completedAt todo = None ∧ is_Some (deadline todo).
Proof.
  unfold isPending. destruct (completedAt todo), (deadline todo); cbn;
    split; try done; try (by intros [? [? ?]]); try (by intros [? ?]).
Qed.

Lemma pending_elem (hydratedTodos : list TodoItem) todo :
  todo ∈ List.filter isPending hydratedTodos
  ↔ todo ∈ hydratedTodos ∧ isPending todo = true.
Proof. rewrite !list_elem_of_In. apply List.filter_In. Qed.

(** X19.  The reminder effect keeps one timer per pending task and never
    reschedules: with a switch on, a timer of a task that is still pending
    is left exactly as it is (also when the deadline of the task has
    changed since the timer was set), a timer of a task that is no longer
    pending is cleared and forgotten, and afterwards every timer belongs
    to a pending task; with both switches off every timer is cleared. *)
Theorem reminders_follow_the_pending_tasks
    (hydratedTodos : list TodoItem) (notificationsEnabled speechEnabled : bool)
    (now : Z) st (k : string) (t : nat) :
  let pendingIds := map id (List.filter isPending hydratedTodos) in
  let r := reminderEffect hydratedTodos notificationsEnabled speechEnabled
             now st in
  (notificationsEnabled || speechEnabled = true →
     (notificationTimersRef st !! k = Some t → k ∈ pendingIds →
      notificationTimersRef (fst r) !! k = Some t)
     ∧ (notificationTimersRef st !! k = Some t → k ∉ pendingIds →
        notificationTimersRef (fst r) !! k = None
        ∧ ClearTimeout t ∈ snd r)
     ∧ (is_Some (notificationTimersRef (fst r) !! k) → k ∈ pendingIds))
  ∧ (notificationsEnabled || speechEnabled = false →
     notificationTimersRef (fst r) = ∅
     ∧ (notificationTimersRef st !! k = Some t → ClearTimeout t ∈ snd r)).
Proof.
  intros pendingIds r. split.
  - intros Hon. subst r. unfold reminderEffect.
    assert (Hoff : negb notificationsEnabled && negb speechEnabled = false)
      by (destruct notificationsEnabled, speechEnabled; done).
    rewrite Hoff. cbn zeta. fold pendingIds.
    set (kept := filter _ (notificationTimersRef st)).
    set (cleared := map _ (map_to_list (filter _ (notificationTimersRef st)))).
    set (acc := ({| notificationTimersRef := kept;
                    timeoutsSet := timeoutsSet st |}, cleared)).
    destruct (schedule_loop notificationsEnabled now
                (List.filter isPending hydratedTodos) acc k)
      as (Hkeep & Hnew & _ & Hacts).
    split_and!.
    + intros Hk Hin. apply Hkeep. subst acc kept. cbn.
      apply map_lookup_filter_Some. split; [done|]. cbn. tauto.
    + intros Hk Hnin.
      assert (Hnone : notificationTimersRef (fst acc) !! k = None).
      { subst acc kept. cbn. apply map_lookup_filter_None. right.
        intros t' Ht' Hst. cbn in Hst. by apply Hst. }
      split.
      * destruct (notificationTimersRef (fst (foldl _ acc _)) !! k) as [t'|] eqn:E;
          [|done].
        destruct (Hnew Hnone t' eq_refl) as (_ & todo & d & Hin & Hid & _).
        exfalso. apply Hnin. subst pendingIds. rewrite <- Hid.
        by apply list_elem_of_fmap_2.
      * apply Hacts. subst acc cleared. cbn.
        apply (list_elem_of_fmap_2 (λ kv, ClearTimeout (snd kv)) _ (k, t)).
        apply elem_of_map_to_list. apply map_lookup_filter_Some. by split.
    + intros [t' Ht'].
      destruct (notificationTimersRef (fst acc) !! k) as [t0|] eqn:E.
      * subst acc kept. cbn in E.
        apply map_lookup_filter_Some in E as [_ E]. cbn in E.
        destruct (decide (k ∈ pendingIds)); [done|]. by destruct E.
      * destruct (Hnew eq_refl t' Ht') as (_ & todo & d & Hin & Hid & _).
        subst pendingIds. rewrite <- Hid. by apply list_elem_of_fmap_2.
  - intros Hoff. subst r. unfold reminderEffect.
    assert (Hoff' : negb notificationsEnabled && negb speechEnabled = true)
      by (destruct notificationsEnabled, speechEnabled; done).
    rewrite Hoff'. cbn. split; [done|]. intros Hk.
    apply (list_elem_of_fmap_2 (λ kv, ClearTimeout (snd kv)) _ (k, t)).
    by apply elem_of_map_to_list.
Qed.

(** X20.  With a switch on, a pending task that has no timer gets one
    exactly when the instant half an hour before its deadline still lies
    ahead; the timeout is a new one, and it is set to fire at that instant
    for that task. *)
Theorem reminder_is_set_iff_its_instant_lies_ahead
    (hydratedTodos : list TodoItem) (notificationsEnabled speechEnabled : bool)
    (now : Z) st todo (d : Z) :
  notificationsEnabled || speechEnabled = true →
  NoDup (map id hydratedTodos) →
  todo ∈ hydratedTodos → completedAt todo = None → deadline todo = Some d →
  notificationTimersRef st !! id todo = None →
  let r := reminderEffect hydratedTodos notificationsEnabled speechEnabled
             now st in
  (is_Some (notificationTimersRef (fst r) !! id todo)
   ↔ now < d - PRE_DEADLINE_REMINDER_MS)
  ∧ ∀ t, notificationTimersRef (fst r) !! id todo = Some t →
      (timeoutsSet st ≤ t)%nat
      ∧ SetTimeout {| timeoutId := t;
                      triggerAt := d - PRE_DEADLINE_REMINDER_MS - now;
                      remindedTodo := todo;
                      notificationsEnabledThen := notificationsEnabled |}
        ∈ snd r.
Proof.
  intros Hon Hnd Hin Hopen Hd Hnone r.
  assert (Hpend : todo ∈ List.filter isPending hydratedTodos).
  { apply pending_elem. split; [done|]. apply isPending_spec.
    split; [done|by eexists]. }
  subst r. unfold reminderEffect.
  assert (Hoff : negb notificationsEnabled && negb speechEnabled = false)
    by (destruct notificationsEnabled, speechEnabled; done).
  rewrite Hoff. cbn zeta.
  set (kept := filter _ (notificationTimersRef st)).
  set (cleared := map _ (map_to_list (filter _ (notificationTimersRef st)))).
  set (acc := ({| notificationTimersRef := kept;
                  timeoutsSet := timeoutsSet st |}, cleared)).
  assert (Hnone' : notificationTimersRef (fst acc) !! id todo = None).
  { subst acc kept. cbn. apply map_lookup_filter_None. left. done. }
  destruct (schedule_loop notificationsEnabled now
              (List.filter isPending hydratedTodos) acc (id todo))
    as (_ & Hnew & _ & _).
  assert (Hsame : ∀ todo', todo' ∈ List.filter isPending hydratedTodos →
                           id todo' = id todo → todo' = todo).
  { intros todo' Hin' Hid. apply pending_elem in Hin' as [Hin' _].
    apply list_elem_of_lookup in Hin as [i Hi].
    apply list_elem_of_lookup in Hin' as [i' Hi'].
    assert (i' = i).
    { apply (NoDup_lookup (id <$> hydratedTodos) i' i (id todo)); [exact Hnd| |];
        rewrite list_lookup_fmap; [by rewrite Hi', <- Hid|by rewrite Hi]. }
    subst. congruence. }
  split.
  - split.
    + intros [t Ht].
      destruct (Hnew Hnone' t Ht) as (_ & todo' & d' & Hin' & Hid & Hd' & Hgt & _).
      rewrite (Hsame todo' Hin' Hid) in Hd'. simplify_eq. lia.
    + intros Hlt. eapply schedule_loop_sets; [done|done|lia].
  - intros t Ht.
    destruct (Hnew Hnone' t Ht) as (Hge & todo' & d' & Hin' & Hid & Hd' & Hgt & Hact).
    rewrite (Hsame todo' Hin' Hid) in Hd', Hact. simplify_eq.
    split; [done|done].
Qed.

End Reminders.

Section FurtherRuns.
Import Card CardLife Scenario Cases.

Lemma passed_threshold_never_fires_witness :
  prevRemainingRef tenMinutesLeft = Some 600000
  ∧ passed 600000 "pre-1h" = true
  ∧ remainingShrinks 600000 (drop 4 longTicks) = true
  ∧ countKey "pre-1h" (snd (runTicks longTodo (drop 4 longTicks) tenMinutesLeft))
    = 0%nat.
Proof.
  split_and!; [vm_compute; reflexivity|vm_compute; reflexivity|
               vm_compute; reflexivity|].
  apply (passed_threshold_never_fires longTodo (drop 4 longTicks)
           tenMinutesLeft 600000 "pre-1h");
    vm_compute; reflexivity.
Defined.

Lemma alert_is_taken_at_most_once_per_raising_tick_witness :
  pendingSpeechKeyRef (fst longCard) = None
  ∧ (count handlesAlert (snd (cardRun longTodo alertRun longCard))
     ≤ count raisesAlert (snd (cardRun longTodo alertRun longCard)))%nat.
Proof.
  split; [reflexivity|].
  apply (alert_is_taken_at_most_once_per_raising_tick longTodo alertRun longCard).
  reflexivity.
Defined.

Lemma raised_alert_is_taken_when_its_message_loads_witness :
  isCompleted longTodo = false
  ∧ snd (calc longTodo (due - 5 * HOUR_MS - HALF_HOUR_MS)
           (fst (resetForTask longTodo (due - 7 * HOUR_MS) longCard)))
    = [TierTransition]
  ∧ pendingSpeechKeyRef
      (fst (fst (dispatchEffect longTodo (due - 5 * HOUR_MS - HALF_HOUR_MS)
                   App.Harsh (Some "hurry") true true
                   (messageLoaded
                      (fst (calc longTodo (due - 5 * HOUR_MS - HALF_HOUR_MS)
                              (fst (resetForTask longTodo (due - 7 * HOUR_MS)
                                      longCard))),
                       snd (resetForTask longTodo (due - 7 * HOUR_MS) longCard))))))
    = None.
Proof.
  split_and!; [reflexivity|vm_compute; reflexivity|].
  apply (raised_alert_is_taken_when_its_message_loads longTodo
           (due - 7 * HOUR_MS) longCard []
           (due - 5 * HOUR_MS - HALF_HOUR_MS)
           (due - 5 * HOUR_MS - HALF_HOUR_MS) "hurry" true true);
    [reflexivity|discriminate|vm_compute; discriminate].
Defined.

Lemma nag_rule_never_relaxes_witness :
  due - 80 * HOUR_MS ≤ due - 30 * HOUR_MS
  ∧ Nag.pressure (Nag.determineNagRule nagTodo (due - 80 * HOUR_MS))
    ≤ Nag.pressure (Nag.determineNagRule nagTodo (due - 30 * HOUR_MS)).
Proof.
  split; [vm_compute; discriminate|].
  apply (nag_rule_never_relaxes nagTodo). vm_compute. discriminate.
Defined.

Lemma tier_never_relaxes_witness :
  due - 30 * HOUR_MS ≤ due - 3 * HOUR_MS
  ∧ AppList.prioritySortWeight
      (App.calculatePriority (Some due) None (due - 3 * HOUR_MS))
    ≤ AppList.prioritySortWeight
        (App.calculatePriority (Some due) None (due - 30 * HOUR_MS)).
Proof.
  split; [vm_compute; discriminate|].
  apply (tier_never_relaxes (Some due) None). vm_compute. discriminate.
Defined.

Lemma edit_form_stores_only_sane_values_witness :
  Forms.handleEditSubmit (λ s, s) parseDate parseNumber editForm
  = Forms.Submitted
      {| Forms.updatedName := "report";
         Forms.updatedDeadline := Some (App.DateOf due);
         Forms.updatedEstimatedTime := Some (App.Finite 2%Q) |}
  ∧ Forms.docName
      {| Forms.docName := "report";
         Forms.docDeadline := Some (App.DateOf due);
         Forms.docEstimatedTime := Some (App.Finite 2%Q) |} ≠ "".
Proof.
  split; [vm_compute; reflexivity|].
  apply (edit_form_stores_only_sane_values (λ s, s) parseDate parseNumber
           editForm
           {| Forms.updatedName := "report";
              Forms.updatedDeadline := Some (App.DateOf due);
              Forms.updatedEstimatedTime := Some (App.Finite 2%Q) |}
           {| Forms.docName := "report";
              Forms.docDeadline := Some (App.DateOf due);
              Forms.docEstimatedTime := Some (App.Finite 2%Q) |});
    vm_compute; reflexivity.
Defined.

Lemma add_form_stores_only_finite_values_witness :
  "user-1" ≠ ""
  ∧ match Forms.handleSubmit (λ s, s) parseDate parseNumber editForm
            (due - 30 * HOUR_MS) with
    | Forms.FormError _ => Forms.name editForm = ""
    | Forms.Submitted payload =>
        ∃ doc, Forms.handleAddTodo (λ s, s) parseNumber true (Some "user-1")
                 (due - 30 * HOUR_MS) payload = Some doc
          ∧ Forms.addedName doc = Forms.name editForm
          ∧ Forms.addedName doc ≠ ""
          ∧ (Forms.addedDeadline doc = None
             ∨ ∃ t, Forms.addedDeadline doc = Some (App.DateOf t))
          ∧ (Forms.addedEstimatedTime doc = None
             ∨ ∃ q, Forms.addedEstimatedTime doc = Some (App.Finite q))
          ∧ Forms.addedCompletedAt doc = None
          ∧ Forms.addedCreatedAt doc = App.DateOf (due - 30 * HOUR_MS)
          ∧ Forms.addedPriority doc
            = App.calculatePriority (Forms.timeOf (Forms.addedDeadline doc))
                (Forms.hoursOf (Forms.addedEstimatedTime doc))
                (due - 30 * HOUR_MS)
    end.
Proof.
  split; [discriminate|].
  apply (add_form_stores_only_finite_values (λ s, s) parseDate parseNumber
           editForm "user-1" (due - 30 * HOUR_MS)).
  discriminate.
Defined.

Lemma synthesised_line_is_spoken_from_cache_witness :
  App.fetchingOf 0 (App.run (App.idle true) [say "one"])
  = Some (App.Fetching (job 0 "one"))
  ∧ App.played
      (fst (App.handleSpeak App.Cute "one" (Some App.Harsh) false
              (App.run (App.idle true)
                 [say "one"; App.FetchDone 0 clip; App.AudioEnded 0])))
    = [0; 1]%nat.
Proof.
  split; [vm_compute; reflexivity|].
  apply (synthesised_line_is_spoken_from_cache
           (App.run (App.idle true) [say "one"]) 0%nat
           (App.Fetching (job 0 "one")) None "QUJD" [App.AudioEnded 0] App.Cute);
    [vm_compute; reflexivity|vm_compute; reflexivity|vm_compute; reflexivity|
     vm_compute; reflexivity|discriminate].
Defined.

Lemma switching_speech_off_drops_waiting_jobs_not_the_request_witness :
  forallb App.plain firstPlaying = true
  ∧ App.speechQueueRef
      (App.step (App.run (App.idle true) firstPlaying)
         (App.SetSpeechEnabled false)) = [].
Proof.
  split; [reflexivity|].
  apply (switching_speech_off_drops_waiting_jobs_not_the_request firstPlaying).
  reflexivity.
Defined.

Lemma interrupt_during_synthesis_lets_two_clips_sound_witness :
  forallb App.plain [say "one"] = true
  ∧ App.flights (App.run (App.idle true) [say "one"])
    = [App.Fetching (job 0 "one")]
  ∧ App.sounding
      (App.run
         (fst (App.handleSpeak App.Harsh "now" None true
                 (App.run (App.idle true) [say "one"])))
         [App.FetchDone 0 clip; App.FetchDone 1 clip])
    = [0; 1]%nat.
Proof.
  split_and!; [reflexivity|vm_compute; reflexivity|].
  apply (interrupt_during_synthesis_lets_two_clips_sound
           [say "one"] App.Harsh "now" None (job 0 "one") None "QUJD" None "QUJD");
    [reflexivity|vm_compute; reflexivity|discriminate].
Defined.

Lemma list_order_is_consistent_witness :
  (∀ x y, Z.sgn (byLength y x) = - Z.sgn (byLength x y))
  ∧ (∀ x y z, byLength x y ≤ 0 → byLength y z ≤ 0 → byLength x z ≤ 0)
  ∧ ∀ a b, AppList.sortedTodosOrder byLength a b
           = AppList.snapshotOrder byLength a b.
Proof.
  assert (H1 : ∀ x y, Z.sgn (byLength y x) = - Z.sgn (byLength x y))
    by (intros; unfold byLength; lia).
  assert (H2 : ∀ x y z, byLength x y ≤ 0 → byLength y z ≤ 0 → byLength x z ≤ 0)
    by (intros x y z; unfold byLength; lia).
  split_and!; [exact H1|exact H2|].
  intros a b. apply (list_order_is_consistent byLength H1 H2 a b a).
Defined.

Lemma reminder_is_set_iff_its_instant_lies_ahead_witness :
  NoDup (map AppList.id listed)
  ∧ (is_Some
       (AppList.notificationTimersRef
          (fst (AppList.reminderEffect listed true false
                  (due - 2 * HOUR_MS) noTimers)) !! "a")
     ↔ due - 2 * HOUR_MS < due - AppList.PRE_DEADLINE_REMINDER_MS).
Proof.
  assert (Hnd : NoDup (map AppList.id listed)).
  { vm_compute. apply NoDup_cons. split.
    - intros H. apply list_elem_of_singleton in H. discriminate.
    - apply NoDup_singleton. }
  split; [exact Hnd|].
  apply (reminder_is_set_iff_its_instant_lies_ahead listed true false
           (due - 2 * HOUR_MS) noTimers
           {| AppList.id := "a"; AppList.name := "report";
              AppList.deadline := Some due; AppList.estimatedTime := None;
              AppList.priority := LEGACY_SAFE;
              AppList.createdAt := Some (due - 72 * HOUR_MS);
              AppList.completedAt := None |} due);
    [reflexivity|exact Hnd|left|reflexivity|reflexivity|reflexivity].
Defined.

End FurtherRuns.
